(** * Snake Q-learning agent: a shallow embedding of [game.py] and [ai.py]

    The development follows the two Python modules:

    - [game.py]: [Direction], [Snake], [Fruit], [Game];
   - [ai.py]: [SnakeAI] with [get_state], [get_action], [apply_action]
      and [train].

    Modelling conventions.
    - Python integers are [Z]; [//] is [Z.div] (both floor).
    - Python floats (epsilon, learning rate, action values) are exact
      rationals in canonical form ([Qc]); rounding is not modelled,
      except for the decay of epsilon, which is also given on binary64
      floats ([decay_epsilon_float]).
    - The module-level generator of Python's [random] is an entropy
      stream read through a cursor; every call consumes one word.
    - Exceptions and unbounded [while] loops live in a small state and
      error monad [M]; loops take a fuel argument and raise [OutOfFuel]
      when it runs out.
    - Rendering (pygame), the game clock and the log files are not
      modelled; the logger keeps the per-episode records it is sent. *)

From Stdlib Require Import ZArith QArith Qcanon Qround List Lia Lqa.
From Stdlib Require Import PrimFloat.
From stdpp Require Import base numbers option list gmap.
Import ListNotations.

Local Open Scope Z_scope.

(** ** Exceptions, results and the effect monad *)

Inductive error : Type :=
  | IndexError
  | KeyError
  | ValueError
  | OutOfFuel.

Inductive res (A : Type) : Type :=
  | Ok (a : A)
  | Raise (e : error).
Arguments Ok {A} a.
Arguments Raise {A} e.

(** State of the [random] module: the words the generator will deliver
    and how many were already consumed. *)
Record Random : Type := mkRandom {
  entropy : nat -> N;
  cursor : nat
}.

Definition M (A : Type) : Type := Random -> res (A * Random).

Global Instance M_ret : MRet M := λ A a r, Ok (a, r).

Global Instance M_bind : MBind M := λ A B k m r,
  match m r with
  | Ok (a, r') => k a r'
  | Raise e => Raise e
  end.

Definition raise {A} (e : error) : M A := λ _, Raise e.

Definition lift {A} (x : res A) : M A :=
  λ r, match x with
       | Ok a => Ok (a, r)
       | Raise e => Raise e
       end.

(** ** Python's [random] module *)

Module random.

Definition next_word : M N :=
  fun r => Ok (entropy r (cursor r), mkRandom (entropy r) (S (cursor r))).

(** [random.random()]: a float k / 2^53 with 0 <= k < 2^53. *)
Definition random : M Qc :=
  w ← next_word;
  mret (Q2Qc (Z.of_N (w mod 2 ^ 53)%N # 2 ^ 53)).

(** [random.randrange(start, stop, step)]. *)
Definition randrange (start stop step : Z) : M Z :=
  let width := stop - start in
  if step =? 0 then raise ValueError
  else
    let n := if 0 <? step then (width + step - 1) / step
             else (width + step + 1) / step in
    if n <=? 0 then raise ValueError
    else w ← next_word; mret (start + step * (Z.of_N w mod n)).

(** [random.randint(a, b)] is [randrange(a, b + 1)]. *)
Definition randint (a b : Z) : M Z := randrange a (b + 1) 1.

(** [random.choice(seq)]: the chosen element. *)
Definition choice {A} (seq : list A) : M A :=
  match seq with
  | [] => raise IndexError
  | _ =>
      w ← next_word;
     match seq !! (N.to_nat w mod length seq)%nat with
       | Some x => mret x
       | None => raise IndexError
       end
  end.

End random.

(** ** [game.py] *)

Inductive Direction : Type := UP | DOWN | LEFT | RIGHT.

Definition Direction_value (d : Direction) : Z * Z :=
  match d with
  | UP => (0, -1)
  | DOWN => (0, 1)
  | LEFT => (-1, 0)
  | RIGHT => (1, 0)
  end.

Global Instance Direction_eq_dec : EqDecision Direction.
Proof. solve_decision. Defined.

Definition Color : Type := (Z * Z * Z)%type.

Record Snake : Type := mkSnake {
  body : list (Z * Z);
  direction : Direction;
  snake_block_size : Z;
  growth_pending : bool
}.

Record Fruit : Type := mkFruit {
  fruit_block_size : Z;
  fruit_width : Z;
  fruit_height : Z;
  position : Z * Z;
  colors : list Color;
  color : Color;
  points : Z
}.

Record Game : Type := mkGame {
  width : Z;
  height : Z;
  block_size : Z;
  visible : bool;
  snake : Snake;
  fruit : Fruit;
  score : Z;
  game_over : bool;
  speed : Z
}.

(** Field assignments ([obj.field = value]). *)
Definition set_body (b : list (Z * Z)) (s : Snake) : Snake :=
  mkSnake b (direction s) (snake_block_size s) (growth_pending s).
Definition set_snake_direction (d : Direction) (s : Snake) : Snake :=
  mkSnake (body s) d (snake_block_size s) (growth_pending s).
Definition set_growth_pending (p : bool) (s : Snake) : Snake :=
  mkSnake (body s) (direction s) (snake_block_size s) p.

Definition set_position (p : Z * Z) (f : Fruit) : Fruit :=
  mkFruit (fruit_block_size f) (fruit_width f) (fruit_height f) p
          (colors f) (color f) (points f).
Definition set_color (c : Color) (f : Fruit) : Fruit :=
  mkFruit (fruit_block_size f) (fruit_width f) (fruit_height f) (position f)
          (colors f) c (points f).

Definition set_snake (s : Snake) (g : Game) : Game :=
  mkGame (width g) (height g) (block_size g) (visible g) s (fruit g)
         (score g) (game_over g) (speed g).
Definition set_fruit (f : Fruit) (g : Game) : Game :=
  mkGame (width g) (height g) (block_size g) (visible g) (snake g) f
         (score g) (game_over g) (speed g).
Definition set_score (n : Z) (g : Game) : Game :=
  mkGame (width g) (height g) (block_size g) (visible g) (snake g) (fruit g)
         n (game_over g) (speed g).
Definition set_game_over (b : bool) (g : Game) : Game :=
  mkGame (width g) (height g) (block_size g) (visible g) (snake g) (fruit g)
         (score g) b (speed g).
Definition set_speed (n : Z) (g : Game) : Game :=
  mkGame (width g) (height g) (block_size g) (visible g) (snake g) (fruit g)
         (score g) (game_over g) n.

(** [Snake.__init__] *)
Definition Snake_init (start_pos : Z * Z) (bs : Z) : Snake :=
  mkSnake [start_pos] RIGHT bs false.

(** [self.body.pop()] *)
Definition list_pop {A} (l : list A) : res (list A) :=
  match l with
  | [] => Raise IndexError
  | _ => Ok (removelast l)
  end.

(** [Snake.move] *)
Definition Snake_move (s : Snake) : res Snake :=
  match body s with
  | [] => Raise IndexError
  | current_head :: _ =>
      let '(dx, dy) := Direction_value (direction s) in
      let new_head := (current_head.1 + dx * snake_block_size s,
                       current_head.2 + dy * snake_block_size s) in
      let body1 := new_head :: body s in
      if negb (growth_pending s) then
        match list_pop body1 with
        | Ok body2 => Ok (set_body body2 s)
        | Raise e => Raise e
        end
      else Ok (set_growth_pending false (set_body body1 s))
  end.

(** [Snake.grow] *)
Definition Snake_grow (s : Snake) : Snake := set_growth_pending true s.

(** [Snake.check_collision] *)
Definition Snake_check_collision (s : Snake) (w h : Z) : res bool :=
  match body s with
  | [] => Raise IndexError
  | head :: rest =>
      if (head.1 <? 0) || (w <=? head.1) || (head.2 <? 0) || (h <=? head.2)
      then Ok true
      else if bool_decide (head ∈ rest) then Ok true
      else Ok false
  end.

(** [Fruit.respawn] *)
Definition Fruit_respawn (f : Fruit) : M Fruit :=
  let min_x := fruit_block_size f * 2 in
  let max_x := fruit_width f - fruit_block_size f * 2 in
  let min_y := fruit_block_size f * 2 in
  let max_y := fruit_height f - fruit_block_size f * 2 in
  x ← random.randrange min_x max_x (fruit_block_size f);
  y ← random.randrange min_y max_y (fruit_block_size f);
  c ← random.choice (colors f);
  mret (set_color c (set_position (x, y) f)).

(** [Fruit.__init__] *)
Definition Fruit_init (w h bs : Z) : M Fruit :=
  let cols := [(255, 0, 0); (255, 165, 0); (255, 215, 0); (148, 0, 211)] in
  c ← random.choice cols;
  Fruit_respawn (mkFruit bs w h (0, 0) cols c 1).

(** [Game.__init__] *)
Definition Game_init (w h : Z) (vis : bool) : M Game :=
  let bs := 20 in
  let spawn_pos := (w / 2, h / 2) in
  let sn := Snake_init spawn_pos bs in
  fr ← Fruit_init w h bs;
  mret (mkGame w h bs vis sn fr 0 false 10).

(** The loop [while self.fruit.position in self.snake.body:
    self.fruit.respawn()] of [Game.update]. *)
Fixpoint respawn_off_snake (fuel : nat) (sn : Snake) (f : Fruit) : M Fruit :=
  if bool_decide (position f ∈ body sn) then
    match fuel with
    | O => raise OutOfFuel
    | S fuel' => f' ← Fruit_respawn f; respawn_off_snake fuel' sn f'
    end
  else mret f.

(** [Game.update] *)
Definition Game_update (fuel : nat) (g : Game) : M Game :=
  if game_over g then mret g
  else
    sn ← lift (Snake_move (snake g));
    let g := set_snake sn g in
     hit ← lift (Snake_check_collision (snake g) (width g) (height g));
    if hit : bool then mret (set_game_over true g)
     else
       match body (snake g) with
       | [] => raise IndexError
       | head :: _ =>
           if bool_decide (head = position (fruit g)) then
             let g := set_snake (Snake_grow (snake g)) g in
             let g := set_score (score g + points (fruit g)) g in
             let g := set_speed (Z.min 20 (10 + score g / 10)) g in
             f1 ← Fruit_respawn (fruit g);
           f2 ← respawn_off_snake fuel (snake g) f1;
           mret (set_fruit f2 g)
           else mret g
       end.

(** [Game.reset] *)
Definition Game_reset (g : Game) : M Game :=
  let spawn_pos := (width g / 2, height g / 2) in
  let g := set_snake (Snake_init spawn_pos (block_size g)) g in
  f ← Fruit_respawn (fruit g);
  let g := set_fruit f g in
   let g := set_score 0 g in
   let g := set_game_over false g in
   mret (set_speed 10 g).

(** ** [snake_logger.py]: the statistics the trainer feeds *)

Record SnakeLogger : Type := mkSnakeLogger {
  total_games : Z;
  best_score : Z;
  scores_history : list Z;
  q_table_sizes : list nat
}.

Definition SnakeLogger_init : SnakeLogger := mkSnakeLogger 0 0 [] [].

(** [SnakeLogger.log_training_start] *)
Definition log_training_start (lg : SnakeLogger) (num_games : Z) : SnakeLogger :=
  mkSnakeLogger num_games (best_score lg) (scores_history lg) (q_table_sizes lg).

(** [SnakeLogger.log_game_result]; the messages and the ten-game
    averages it prints are left out. *)
Definition log_game_result (lg : SnakeLogger) (game_number sc : Z)
    (q_table_size : nat) (eps : Qc) : SnakeLogger :=
  mkSnakeLogger (total_games lg)
                (if best_score lg <? sc then sc else best_score lg)
                (scores_history lg ++ [sc])
                (q_table_sizes lg ++ [q_table_size]).

(** ** [ai.py] *)

(** The encoded state: the 11-tuple [get_state] returns. *)
Abbreviation State :=
  (bool * bool * bool * bool * bool * bool * bool * bool * bool * bool * bool)%type.

Record SnakeAI : Type := mkSnakeAI {
  learning_rate : Qc;
  discount_factor : Qc;
  epsilon : Qc;
  epsilon_decay : Qc;
  epsilon_min : Qc;
  q_table : gmap State (list Qc);
  logger : SnakeLogger
}.

Definition set_epsilon (e : Qc) (ai : SnakeAI) : SnakeAI :=
  mkSnakeAI (learning_rate ai) (discount_factor ai) e (epsilon_decay ai)
            (epsilon_min ai) (q_table ai) (logger ai).
Definition set_q_table (t : gmap State (list Qc)) (ai : SnakeAI) : SnakeAI :=
  mkSnakeAI (learning_rate ai) (discount_factor ai) (epsilon ai)
            (epsilon_decay ai) (epsilon_min ai) t (logger ai).
Definition set_logger (lg : SnakeLogger) (ai : SnakeAI) : SnakeAI :=
  mkSnakeAI (learning_rate ai) (discount_factor ai) (epsilon ai)
            (epsilon_decay ai) (epsilon_min ai) (q_table ai) lg.

(** [SnakeAI.__init__] *)
Definition SnakeAI_init : SnakeAI :=
  mkSnakeAI (Q2Qc (5 # 100)) (Q2Qc (95 # 100)) (Q2Qc 1) (Q2Qc (998 # 1000))
            (Q2Qc (1 # 100)) ∅ SnakeLogger_init.

(** The three cells next to the head that [get_state] compares with
    the body segments: straight on, to the left and to the right of the
    heading. *)
Definition danger_cells (current_dir : Direction) (snake_head : Z * Z) (bs : Z)
    : (Z * Z) * (Z * Z) * (Z * Z) :=
  match current_dir with
  | UP => ((snake_head.1, snake_head.2 - bs),
           (snake_head.1 - bs, snake_head.2),
           (snake_head.1 + bs, snake_head.2))
  | DOWN => ((snake_head.1, snake_head.2 + bs),
             (snake_head.1 + bs, snake_head.2),
             (snake_head.1 - bs, snake_head.2))
  | LEFT => ((snake_head.1 - bs, snake_head.2),
             (snake_head.1, snake_head.2 + bs),
             (snake_head.1, snake_head.2 - bs))
  | RIGHT => ((snake_head.1 + bs, snake_head.2),
              (snake_head.1, snake_head.2 - bs),
              (snake_head.1, snake_head.2 + bs))
  end.

(** One round of the loop [for segment in game.snake.body[1:]]. *)
Definition danger_segment (current_dir : Direction) (snake_head : Z * Z) (bs : Z)
    (dangers : bool * bool * bool) (segment : Z * Z) : bool * bool * bool :=
  let '(danger_straight, danger_left, danger_right) := dangers in
  let '(cell_straight, cell_left, cell_right) :=
    danger_cells current_dir snake_head bs in
  (if bool_decide (cell_straight = segment) then true else danger_straight,
   if bool_decide (cell_left = segment) then true else danger_left,
   if bool_decide (cell_right = segment) then true else danger_right).

(** [SnakeAI.get_state] *)
Definition get_state (game : Game) : res State :=
  match body (snake game) with
  | [] => Raise IndexError
  | snake_head :: rest =>
      let fruit_pos := position (fruit game) in
      let rel_x := fruit_pos.1 - snake_head.1 in
      let rel_y := fruit_pos.2 - snake_head.2 in
      let bs := block_size game in
      let current_dir := direction (snake game) in
      let walls :=
        match current_dir with
        | UP => (snake_head.2 - bs <? 0,
                 snake_head.1 - bs <? 0,
                 width game <=? snake_head.1 + bs)
        | DOWN => (height game <=? snake_head.2 + bs,
                   width game <=? snake_head.1 + bs,
                   snake_head.1 - bs <? 0)
        | LEFT => (snake_head.1 - bs <? 0,
                   height game <=? snake_head.2 + bs,
                   snake_head.2 - bs <? 0)
        | RIGHT => (width game <=? snake_head.1 + bs,
                    snake_head.2 - bs <? 0,
                    height game <=? snake_head.2 + bs)
        end in
      let '(danger_straight, danger_left, danger_right) :=
        fold_left (danger_segment current_dir snake_head bs) rest walls in
      Ok (danger_straight, danger_left, danger_right,
          0 <? rel_x, rel_x <? 0, 0 <? rel_y, rel_y <? 0,
          bool_decide (current_dir = UP), bool_decide (current_dir = DOWN),
          bool_decide (current_dir = LEFT), bool_decide (current_dir = RIGHT))
  end.

(** [np.argmax] on a list: the first index holding the maximum. *)
Fixpoint argmax_from (best_i : nat) (best : Qc) (i : nat) (l : list Qc) : nat :=
  match l with
  | [] => best_i
  | x :: l' =>
      if bool_decide (best < x)%Qc then argmax_from i x (S i) l'
      else argmax_from best_i best (S i) l'
  end.

Definition np_argmax (l : list Qc) : res Z :=
  match l with
  | [] => Raise ValueError
  | x :: l' => Ok (Z.of_nat (argmax_from 0 x 1 l'))
  end.

(** [np.max] on a list. *)
Definition Qc_max (a b : Qc) : Qc := if bool_decide (a < b)%Qc then b else a.

Definition np_max (l : list Qc) : res Qc :=
  match l with
  | [] => Raise ValueError
  | x :: l' => Ok (fold_left Qc_max l' x)
  end.

(** [d[k]] on a dict. *)
Definition dict_get (t : gmap State (list Qc)) (k : State) : res (list Qc) :=
  match t !! k with
  | Some row => Ok row
  | None => Raise KeyError
  end.

(** [if k not in d: d[k] = [0, 0, 0]] *)
Definition ensure_state (k : State) (t : gmap State (list Qc))
    : gmap State (list Qc) :=
  match t !! k with
  | None => <[k := [Q2Qc 0; Q2Qc 0; Q2Qc 0]]> t
  | Some _ => t
  end.

(** The position a Python list index denotes: negative indices count
    from the end, anything else out of range raises. *)
Definition py_index {A} (l : list A) (i : Z) : res nat :=
  let n := Z.of_nat (length l) in
  if (0 <=? i) && (i <? n) then Ok (Z.to_nat i)
  else if (- n <=? i) && (i <? 0) then Ok (Z.to_nat (i + n))
  else Raise IndexError.

(** [SnakeAI.get_action] *)
Definition get_action (ai : SnakeAI) (state : State) : M (Z * SnakeAI) :=
  u ← random.random;
  if bool_decide (u < epsilon ai)%Qc then
    a ← random.randint 0 2; mret (a, ai)
  else
    let ai := set_q_table (ensure_state state (q_table ai)) ai in
    row ← lift (dict_get (q_table ai) state);
    a ← lift (np_argmax row);
    mret (a, ai).

(** [SnakeAI.apply_action] *)
Definition apply_action (game : Game) (action : Z) : Game :=
  let current_direction := direction (snake game) in
  let turn d := set_snake (set_snake_direction d (snake game)) game in
  if action =? 1 then
    match current_direction with
    | UP => turn LEFT
    | LEFT => turn DOWN
    | DOWN => turn RIGHT
    | RIGHT => turn UP
    end
  else if action =? 2 then
    match current_direction with
    | UP => turn RIGHT
    | RIGHT => turn DOWN
    | DOWN => turn LEFT
    | LEFT => turn UP
    end
  else game.

(** *** [SnakeAI.train] *)

(** The local variables of one round of [for game_num in ...]. *)
Record Episode : Type := mkEpisode {
  game : Game;
  steps_without_fruit : Z;
  moves_made : Z
}.

(** What one round of the [while] loop observed and learned from; the
    code keeps these in local variables only. [tr_terminal] is
    [game.game_over] as [game.update()] left it. *)
Record Transition : Type := mkTransition {
  tr_old_state : State;
  tr_action : Z;
  tr_reward : Qc;
  tr_new_state : State;
  tr_old_score : Z;
  tr_new_score : Z;
  tr_terminal : bool
}.

(** "Calculate reward": the reward, the stagnation counter and the game
    after the [if game.game_over: ... elif ... else ...] block. *)
Definition calculate_reward (g : Game) (old_score new_score : Z)
    (steps : Z) : Qc * Z * Game :=
  if game_over g then (Q2Qc (-10), steps, g)
  else if old_score <? new_score then (Q2Qc 10, 0, g)
  else
    let steps := steps + 1 in
    if 100 <? steps then (Q2Qc (-10), steps, set_game_over true g)
    else (Q2Qc 0, steps, g).

(** "Update Q-table": the two default insertions and the Bellman
    assignment to [q_table[old_state][action]]. *)
Definition q_update (ai : SnakeAI) (old_state : State) (action : Z)
    (reward : Qc) (new_state : State) : res SnakeAI :=
  let t := ensure_state new_state (ensure_state old_state (q_table ai)) in
  match dict_get t old_state with
  | Raise e => Raise e
  | Ok row =>
      match py_index row action with
      | Raise e => Raise e
      | Ok i =>
          match row !! i with
          | None => Raise IndexError
          | Some old_q =>
              match dict_get t new_state with
              | Raise e => Raise e
              | Ok next_row =>
                  match np_max next_row with
                  | Raise e => Raise e
                  | Ok next_max =>
                      let new_q :=
                        (old_q + learning_rate ai
                                 * (reward + discount_factor ai * next_max - old_q))%Qc in
                      Ok (set_q_table (<[old_state := <[i := new_q]> row]> t) ai)
                  end
              end
          end
      end
  end.

(** The part of the loop body that drives the game: encode, choose,
    steer, advance, encode again. *)
Definition play_tick (fuel : nat) (ai : SnakeAI) (ep : Episode)
    : M (SnakeAI * Game * State * Z * State) :=
  old_state ← lift (get_state (game ep));
  '(action, ai) ← get_action ai old_state;
  let g := apply_action (game ep) action in
  g ← Game_update fuel g;
  new_state ← lift (get_state g);
  mret (ai, g, old_state, action, new_state).

(** One round of [while not game.game_over]. *)
Definition train_iteration (fuel : nat) (ai : SnakeAI) (ep : Episode)
    : M (SnakeAI * Episode * Transition) :=
  let old_score := score (game ep) in
  '(ai, g, old_state, action, new_state) ← play_tick fuel ai ep;
  let moves := moves_made ep + 1 in
  let new_score := score g in
  let '(reward, steps, g') :=
    calculate_reward g old_score new_score (steps_without_fruit ep) in
  ai ← lift (q_update ai old_state action reward new_state);
  mret (ai, mkEpisode g' steps moves,
        mkTransition old_state action reward new_state old_score new_score
                     (game_over g)).

(** At most [n] rounds of the [while] loop, with the transitions seen. *)
Fixpoint episode_steps (fuel : nat) (n : nat) (ai : SnakeAI) (ep : Episode)
    : M (SnakeAI * Episode * list Transition) :=
  match n with
  | O => mret (ai, ep, [])
  | S n' =>
      if game_over (game ep) then mret (ai, ep, [])
      else
        '(ai, ep, tr) ← train_iteration fuel ai ep;
        '(ai, ep, trs) ← episode_steps fuel n' ai ep;
        mret (ai, ep, tr :: trs)
  end.

(** The [while] loop run to its end. *)
Definition episode_loop (fuel : nat) (ai : SnakeAI) (ep : Episode)
    : M (SnakeAI * Episode * list Transition) :=
  '(ai, ep, trs) ← episode_steps fuel fuel ai ep;
  if game_over (game ep) then mret (ai, ep, trs) else raise OutOfFuel.

(** "Decay epsilon" *)
Definition decay_epsilon (ai : SnakeAI) : SnakeAI :=
  if bool_decide (epsilon_min ai < epsilon ai)%Qc
  then set_epsilon (epsilon ai * epsilon_decay ai)%Qc ai
  else ai.

(** What follows the [while] loop in one round of the [for] loop: "Log
    game results" and "Decay epsilon". *)
Definition end_of_episode (ai : SnakeAI) (ep : Episode) (game_num : Z) : SnakeAI :=
  let lg := log_game_result (logger ai) (game_num + 1) (score (game ep))
                            (size (q_table ai)) (epsilon ai) in
  decay_epsilon (set_logger lg ai).

(** One round of [for game_num in range(num_games)]. *)
Definition train_game (fuel : nat) (ai : SnakeAI) (game_num : Z) : M SnakeAI :=
  g ← Game_init 800 600 false;
  '(ai, ep, _) ← episode_loop fuel ai (mkEpisode g 0 0);
  mret (end_of_episode ai ep game_num).

Fixpoint train_games (fuel : nat) (ai : SnakeAI) (game_nums : list Z) : M SnakeAI :=
  match game_nums with
  | [] => mret ai
  | game_num :: rest =>
      ai ← train_game fuel ai game_num;
      train_games fuel ai rest
  end.

(** [SnakeAI.train], up to the end of the [for] loop; the summary, the
    plots and the pickle file written afterwards are not modelled. *)
Definition train (fuel : nat) (ai : SnakeAI) (num_games : Z) : M SnakeAI :=
  let ai := set_logger (log_training_start (logger ai) num_games) ai in
  train_games fuel ai (seqZ 0 num_games).

(** Epsilon after [n] rounds of "Decay epsilon". *)
Definition epsilon_after (n : nat) (ai : SnakeAI) : Qc :=
  epsilon (Nat.iter n decay_epsilon ai).

(** ** Notions the statements use *)

(** The value a run returns, if it returns one. *)
Definition value_of {A} (x : res (A * Random)) : option A :=
  match x with
  | Ok (a, _) => Some a
  | Raise _ => None
  end.

(** The run returned a value. *)
Definition succeeds {A} (x : res A) : bool :=
  match x with
  | Ok _ => true
  | Raise _ => false
  end.

(** The heading of the snake of a game. *)
Definition heading (g : Game) : Direction := direction (snake g).

(** The fruit lies on no cell of the snake. *)
Definition fruit_off_snake (g : Game) : Prop :=
  position (fruit g) ∉ body (snake g).

(** The action value a table holds for a state and a list position. *)
Definition q_value (t : gmap State (list Qc)) (s : State) (i : nat) : option Qc :=
  row ← t !! s; row !! i.

(** Every row of the table is a list of three action values. *)
Definition table_wf (t : gmap State (list Qc)) : Prop :=
  ∀ s row, t !! s = Some row → length row = 3%nat.

(** [i] is the first position of [row] holding its maximum. *)
Definition first_max (row : list Qc) (i : nat) : Prop :=
  ∃ v, row !! i = Some v
       ∧ (∀ j w, row !! j = Some w → (w <= v)%Qc)
       ∧ (∀ j w, (j < i)%nat → row !! j = Some w → (w < v)%Qc).

(** [m] is the maximum of [row]. *)
Definition max_of (row : list Qc) (m : Qc) : Prop :=
  m ∈ row ∧ ∀ w, w ∈ row → (w <= m)%Qc.

(** The score went up during the transition. *)
Definition scored (tr : Transition) : bool := tr_old_score tr <? tr_new_score tr.

(** The number of transitions since the last one that scored, or since
    the start of the episode: the consecutive ticks without a score
    increase at the end of [trs]. *)
Definition stall (trs : list Transition) : nat :=
  fold_left (λ c tr, if scored tr then O else S c) trs O.

(** What a run of the [while] loop looked like: the number of
    transitions, the stall at its end, whether the game is over, the
    stagnation counter, and the last reward and terminal flag. *)
Definition episode_summary (x : SnakeAI * Episode * list Transition)
    : nat * nat * bool * Z * option Qc * option bool :=
  let '(_, ep, trs) := x in
  (length trs, stall trs, game_over (game ep), steps_without_fruit ep,
   tr_reward <$> last trs, tr_terminal <$> last trs).

(** The move of the snake of [g] brings its head onto the fruit without
    a collision: the tick that eats the fruit and draws a new one. *)
Definition lands_on_fruit (g : Game) : Prop :=
  match Snake_move (snake g) with
  | Ok sn =>
      match body sn with
      | head :: _ =>
          head = position (fruit g)
          ∧ Snake_check_collision sn (width g) (height g) = Ok false
      | [] => False
      end
  | Raise _ => False
  end.

(** ** Runs derived from the code *)

(** The start of one round of the [for] loop: a new game and at most
    [n] rounds of its [while] loop. *)
Definition episode_prefix (fuel n : nat) (ai : SnakeAI)
    : M (SnakeAI * Episode * list Transition) :=
  g ← Game_init 800 600 false;
  episode_steps fuel n ai (mkEpisode g 0 0).

(** The same Bellman assignment made [n] times in a row. *)
Fixpoint repeat_update (n : nat) (ai : SnakeAI) (old_state : State) (action : Z)
    (reward : Qc) (new_state : State) : res SnakeAI :=
  match n with
  | O => Ok ai
  | S n' =>
      match repeat_update n' ai old_state action reward new_state with
      | Ok ai' => q_update ai' old_state action reward new_state
      | Raise e => Raise e
      end
  end.

(** The action value after [n] Bellman assignments with the same reward
    and the same maximum [next_max] of the next state's row, in exact
    arithmetic: the numbers [q_update] computes with. What the same
    assignments give on the binary64 numbers of the program is
    [bellman_iter_float] below. *)
Definition bellman_iter (lr df reward next_max : Qc) (n : nat) (q0 : Qc) : Qc :=
  Nat.iter n (λ q, q + lr * (reward + df * next_max - q))%Qc q0.

(** The schedule the specification states for epsilon after [n]
    completed episodes: max(epsilon_min, epsilon_start * decay^n). *)
Definition epsilon_schedule (ai : SnakeAI) (n : nat) : Qc :=
  Qc_max (epsilon_min ai) (epsilon ai * epsilon_decay ai ^ n)%Qc.

(** "Decay epsilon" on binary64 floats, the numbers the program itself
    computes with. A decimal literal denotes the nearest binary64
    value, here as in Python. *)
Definition decay_epsilon_float (eps eps_min eps_decay : PrimFloat.float)
    : PrimFloat.float :=
  if PrimFloat.ltb eps_min eps then PrimFloat.mul eps eps_decay else eps.

Definition float_epsilon_min : PrimFloat.float := 0.01%float.

Definition float_epsilon_decay : PrimFloat.float := 0.998%float.

(** The epsilon of a fresh agent after [n] decays, on floats. *)
Definition epsilon_after_float (n : nat) : PrimFloat.float :=
  Nat.iter n (λ eps, decay_epsilon_float eps float_epsilon_min float_epsilon_decay)
           1%float.

(** The value "Update Q-table" assigns, on binary64 floats:
    [old_q + learning_rate * (reward + discount_factor * next_max - old_q)]
    with the operations in the order and grouping Python evaluates
    them. *)
Definition bellman_value_float (lr df reward next_max old_q : PrimFloat.float)
    : PrimFloat.float :=
  PrimFloat.add old_q
    (PrimFloat.mul lr
       (PrimFloat.sub (PrimFloat.add reward (PrimFloat.mul df next_max)) old_q)).

Definition float_learning_rate : PrimFloat.float := 0.05%float.

Definition float_discount_factor : PrimFloat.float := 0.95%float.

(** The action value after [n] such assignments with the parameters of
    a fresh agent, on floats. *)
Definition bellman_iter_float (reward next_max : PrimFloat.float) (n : nat)
    (q0 : PrimFloat.float) : PrimFloat.float :=
  Nat.iter n (bellman_value_float float_learning_rate float_discount_factor
                                  reward next_max) q0.

(** ** Inputs to try the code on *)

(** A game on [w] by [h] pixels with cells of [bs] pixels, whose
    one-segment snake sits at the centre heading right and whose fruit
    lies at [fruit_pos]. *)
Definition centred_game (w h bs : Z) (fruit_pos : Z * Z) : Game :=
  mkGame w h bs false (Snake_init (w / 2, h / 2) bs)
         (mkFruit bs w h fruit_pos
                  [(255, 0, 0); (255, 165, 0); (255, 215, 0); (148, 0, 211)]
                  (255, 0, 0) 1)
         0 false 10.

(** An encoded state to try the policy and the learner on: nothing
    dangerous, fruit to the right and above, heading right. *)
Definition sample_state : State :=
  (false, false, false, true, false, false, true, false, false, false, true).

(** A second one: the same, with the fruit straight above. *)
Definition sample_next_state : State :=
  (false, false, false, false, false, false, true, false, false, false, true).

(** An agent that no longer explores and already knows [sample_state]. *)
Definition greedy_ai : SnakeAI :=
  set_epsilon (Q2Qc 0)
    (set_q_table (<[sample_state := [Q2Qc 1; Q2Qc 3; Q2Qc 3]]> ∅) SnakeAI_init).

(** An agent that knows one state, with action 1 valued 5 and the
    other two actions valued 0. *)
Definition one_state_ai : SnakeAI :=
  set_q_table (<[sample_state := [Q2Qc 0; Q2Qc 5; Q2Qc 0]]> ∅) SnakeAI_init.

(** A generator that delivers the word 1 for ever: every
    [random.random()] is 2^-53, every [random.randint(0, 2)] is 1. *)
Definition ones : Random := mkRandom (λ _, 1%N) 0.

(** A generator whose draws put the fruit on the centre cell (400, 300)
    of the default grid, at construction (words 1 and 2) and again at
    the next respawn (words 4 and 5): 400 = 40 + 20 * 18 and
    300 = 40 + 20 * 13. *)
Definition centre_draws : Random :=
  mkRandom (λ i, if bool_decide (i = 1%nat ∨ i = 4%nat) then 18%N
                 else if bool_decide (i = 2%nat ∨ i = 5%nat) then 13%N
                 else 0%N) 0.

(** ** Bounds on powers *)

(** Powers of a fraction, left unreduced. *)
Fixpoint Qpow (x : Q) (n : nat) : Q :=
  match n with
  | O => 1%Q
  | S n' => (x * Qpow x n')%Q
  end.

(** Fixed-point bounds on powers: numbers are counted in units of
    10^-12, products are rounded down or up to the unit, and powers
    are taken by repeated squaring. *)
Definition fx_scale : positive := 1000000000000.

Definition fx_mul_down (a b : Z) : Z := (a * b) / Z.pos fx_scale.

Definition fx_mul_up (a b : Z) : Z :=
  (a * b + Z.pos fx_scale - 1) / Z.pos fx_scale.

Fixpoint fx_pow_down (a : Z) (p : positive) : Z :=
  match p with
  | xH => a
  | xO p' => let h := fx_pow_down a p' in fx_mul_down h h
  | xI p' => let h := fx_pow_down a p' in fx_mul_down a (fx_mul_down h h)
  end.

Fixpoint fx_pow_up (a : Z) (p : positive) : Z :=
  match p with
  | xH => a
  | xO p' => let h := fx_pow_up a p' in fx_mul_up h h
  | xI p' => let h := fx_pow_up a p' in fx_mul_up a (fx_mul_up h h)
  end.

(** ** More of [game.py]: the keyboard *)

(** The keys and events of pygame the program looks at; every other key
    is [K_other], every other event [OtherEvent]. *)
Inductive Key : Type :=
  K_UP | K_DOWN | K_LEFT | K_RIGHT | K_ESCAPE | K_r | K_other.

Inductive Event : Type :=
  | QUIT
  | KEYDOWN (key : Key)
  | OtherEvent.

Global Instance Key_eq_dec : EqDecision Key.
Proof. solve_decision. Defined.

Global Instance Event_eq_dec : EqDecision Event.
Proof. solve_decision. Defined.

(** The [if ... elif ...] chain of [Game.handle_input] for one key. *)
Definition handle_key (key : Key) (g : Game) : Game :=
  let d := direction (snake g) in
  let turn d' := set_snake (set_snake_direction d' (snake g)) g in
  if bool_decide (key = K_UP) && bool_decide (d ≠ DOWN) then turn UP
  else if bool_decide (key = K_DOWN) && bool_decide (d ≠ UP) then turn DOWN
  else if bool_decide (key = K_LEFT) && bool_decide (d ≠ RIGHT) then turn LEFT
  else if bool_decide (key = K_RIGHT) && bool_decide (d ≠ LEFT) then turn RIGHT
  else g.

(** [Game.handle_input], on the events [pygame.event.get()] delivers:
    whether the game goes on, and the game. *)
Fixpoint handle_input (events : list Event) (g : Game) : bool * Game :=
  match events with
  | [] => (true, g)
  | QUIT :: _ => (false, g)
  | KEYDOWN key :: rest => handle_input rest (handle_key key g)
  | OtherEvent :: rest => handle_input rest g
  end.

(** One round of the loop of [Game.run]: the events, the restart when
    the game is over and R is held down, the tick. Drawing and the
    clock are left out. The result: [running] and the game. *)
Definition run_frame (fuel : nat) (events : list Event) (r_held : bool)
    (g : Game) : M (bool * Game) :=
  let '(running, g) := handle_input events g in
  g ← (if game_over g && r_held then Game_reset g else mret g);
  g ← Game_update fuel g;
  mret (running, g).

(** [Game.run] for at most [n] rounds; [frames] holds the events each
    round finds and whether R is held down, nothing once it is used
    up. *)
Fixpoint run (fuel n : nat) (frames : list (list Event * bool)) (g : Game)
    : M Game :=
  match n with
  | O => raise OutOfFuel
  | S n' =>
      let '(events, r_held) := hd ([], false) frames in
      '(running, g) ← run_frame fuel events r_held g;
      if running : bool then run fuel n' (tl frames) g else mret g
  end.

(** ** More of [ai.py]: [play] *)

(** The event loop at the top of a round of [play]: the value of
    [running] after it. *)
Fixpoint play_events (events : list Event) : bool :=
  match events with
  | [] => true
  | QUIT :: _ => false
  | KEYDOWN key :: rest =>
      if bool_decide (key = K_ESCAPE) then false else play_events rest
  | OtherEvent :: rest => play_events rest
  end.

(** The loop [while not game.game_over and running] of [play], for at
    most [n] rounds; [frames] holds the events each round finds, none
    once it is used up. Drawing and the pause between frames are left
    out. The result: agent, game, [moves_made] and [running]. *)
Fixpoint play_loop (fuel n : nat) (frames : list (list Event))
    (ai : SnakeAI) (g : Game) (moves : Z) : M (SnakeAI * Game * Z * bool) :=
  if game_over g then mret (ai, g, moves, true)
  else
    match n with
    | O => raise OutOfFuel
    | S n' =>
        if play_events (hd [] frames) then
          state ← lift (get_state g);
          '(action, ai) ← get_action ai state;
          let g := apply_action g action in
          g ← Game_update fuel g;
          play_loop fuel n' (tl frames) ai g (moves + 1)
        else mret (ai, g, moves, false)
    end.

(** [SnakeAI.play], up to the end of its loop. *)
Definition play (fuel : nat) (frames : list (list Event)) (ai : SnakeAI)
    : M (SnakeAI * Game * Z * bool) :=
  g ← Game_init 800 600 true;
  play_loop fuel fuel frames ai g 0.

(** ** More of [snake_logger.py] *)

(** How [SnakeLogger.log_training_end] ends: with the summary it logs
    (the games announced, the best score, the sum and the number of the
    scores it divides for the average, the last table size), or with
    the exception raised by [sum(...) / len(...)] or by
    [q_table_sizes[-1]]. The duration and the file written afterwards
    are left out. *)
Inductive log_end : Type :=
  | LogSummary (games_played best total_score : Z) (games_logged final_size : nat)
  | ZeroDivisionError
  | LogIndexError.

(** [SnakeLogger.log_training_end] *)
Definition log_training_end (lg : SnakeLogger) : log_end :=
  match scores_history lg with
  | [] => ZeroDivisionError
  | _ =>
      match last (q_table_sizes lg) with
      | None => LogIndexError
      | Some sz =>
          LogSummary (total_games lg) (best_score lg)
                     (foldr Z.add 0 (scores_history lg))
                     (length (scores_history lg)) sz
      end
  end.

(** [SnakeLogger.get_training_summary]: the best score, the sum of the
    scores and the number it is divided by, [total_games] and
    [final_q_table_size]. *)
Definition get_training_summary (lg : SnakeLogger) : Z * Z * nat * nat * nat :=
  (best_score lg,
   foldr Z.add 0 (scores_history lg),
   Nat.max (length (scores_history lg)) 1,
   length (scores_history lg),
   default 0%nat (last (q_table_sizes lg))).

(** [l[::step]] for a step of 1 or more: every [step]-th element of
    [l], the first one included. [skip] elements are passed over before
    the next one is taken. *)
Fixpoint every_nth {A} (step skip : nat) (l : list A) : list A :=
  match l with
  | [] => []
  | x :: l' =>
      match skip with
      | O => x :: every_nth step (step - 1) l'
      | S skip' => every_nth step skip' l'
      end
  end.

Definition slice_step {A} (l : list A) (step : nat) : list A :=
  every_nth step 0 l.

(** The two series [SnakeLogger.plot_training_progress] draws, thinned
    out when more than 1000 games were logged. *)
Definition plot_series (lg : SnakeLogger) : list Z * list nat :=
  let scores := scores_history lg in
  let sizes := q_table_sizes lg in
  if (1000 <? length scores)%nat then
    let step := (length scores / 1000)%nat in
    (slice_step scores step, slice_step sizes step)
  else (scores, sizes).

(** ** More notions the statements use *)

(** The heading opposite to [d]. *)
Definition opposite (d : Direction) : Direction :=
  match d with
  | UP => DOWN
  | DOWN => UP
  | LEFT => RIGHT
  | RIGHT => LEFT
  end.

(** The three danger flags of an encoded state. *)
Definition danger_straight_of (s : State) : bool :=
  let '(ds, _, _, _, _, _, _, _, _, _, _) := s in ds.
Definition danger_left_of (s : State) : bool :=
  let '(_, dl, _, _, _, _, _, _, _, _, _) := s in dl.
Definition danger_right_of (s : State) : bool :=
  let '(_, _, dr, _, _, _, _, _, _, _, _) := s in dr.

(** The danger flag that belongs to an action: left for 1, right for 2,
    straight for every action that leaves the heading alone. *)
Definition danger_flag (action : Z) (s : State) : bool :=
  if action =? 1 then danger_left_of s
  else if action =? 2 then danger_right_of s
  else danger_straight_of s.

(** The wall test of [get_state] for a snake that heads towards [d]. *)
Definition wall_towards (g : Game) (snake_head : Z * Z) (d : Direction) : bool :=
  match d with
  | UP => snake_head.2 - block_size g <? 0
  | DOWN => height g <=? snake_head.2 + block_size g
  | LEFT => snake_head.1 - block_size g <? 0
  | RIGHT => width g <=? snake_head.1 + block_size g
  end.

(** A cell of the grid of the game. *)
Definition in_grid (g : Game) (c : Z * Z) : Prop :=
  0 ≤ c.1 < width g ∧ 0 ≤ c.2 < height g.

(** The parts of a game agree on the grid and the cell size, and a
    fruit is worth one point: what [Game.__init__] sets up. *)
Definition game_wf (g : Game) : Prop :=
  0 < block_size g
  ∧ snake_block_size (snake g) = block_size g
  ∧ fruit_block_size (fruit g) = block_size g
  ∧ fruit_width (fruit g) = width g
  ∧ fruit_height (fruit g) = height g
  ∧ points (fruit g) = 1.

(** The snake lies in the grid and on pairwise different cells. *)
Definition snake_ok (g : Game) : Prop :=
  body (snake g) ≠ [] ∧ NoDup (body (snake g))
  ∧ ∀ c, c ∈ body (snake g) → in_grid g c.

(** The length of the snake, counting a growth that is still pending,
    is one more than the score. *)
Definition length_matches_score (g : Game) : Prop :=
  Z.of_nat (length (body (snake g)))
  + (if growth_pending (snake g) then 1 else 0)
  = 1 + score g.

(** The speed is the one the score calls for. *)
Definition speed_matches_score (g : Game) : Prop :=
  speed g = Z.min 20 (10 + score g / 10).

(** The fruit lies at least two cells away from every wall, on the
    grid of cells that starts there. *)
Definition fruit_in_area (f : Fruit) : Prop :=
  let bs := fruit_block_size f in
  (2 * bs ≤ (position f).1 < fruit_width f - 2 * bs
   ∧ ((position f).1 - 2 * bs) `mod` bs = 0)
  ∧ (2 * bs ≤ (position f).2 < fruit_height f - 2 * bs
     ∧ ((position f).2 - 2 * bs) `mod` bs = 0).

(** A sound game: its parts agree, length and speed are the ones the
    score calls for, the fruit lies inside its area, and as long as the
    game goes on the snake lies in the grid without crossing itself. *)
Definition game_sound (g : Game) : Prop :=
  game_wf g ∧ length_matches_score g ∧ speed_matches_score g
  ∧ fruit_in_area (fruit g)
  ∧ (game_over g = false → snake_ok g).

(** A game the code can go on with: sound, with a colour to choose for
    the fruit and a snake that has a head. *)
Definition game_ready (g : Game) : Prop :=
  game_sound g ∧ colors (fruit g) ≠ [] ∧ body (snake g) ≠ [].

(** No exception of Python: the run returned, or one of its loops was
    still going when the fuel was used up. *)
Definition no_exception {A} (x : res A) : Prop :=
  match x with
  | Ok _ => True
  | Raise e => e = OutOfFuel
  end.

(** The flags of the fruit along one axis: on neither side, or on one
    of the two. *)
Definition fruit_sides : list (bool * bool) :=
  [(false, false); (true, false); (false, true)].

(** The four heading flags: exactly one is set. *)
Definition heading_flags : list (bool * bool * bool * bool) :=
  [(true, false, false, false); (false, true, false, false);
   (false, false, true, false); (false, false, false, true)].

(** The encoded states with any danger flags, the fruit on at most one
    side along each axis, and one heading. *)
Definition state_space : list State :=
  ds ← [false; true]; dl ← [false; true]; dr ← [false; true];
  '(fr, fl) ← fruit_sides; '(fb, fa) ← fruit_sides;
  '(hu, hd, hl, hr) ← heading_flags;
  [(ds, dl, dr, fr, fl, fb, fa, hu, hd, hl, hr)].

(** Every action value of the table lies between [- B] and [B]. *)
Definition table_bounded (B : Qc) (t : gmap State (list Qc)) : Prop :=
  ∀ s row v, t !! s = Some row → v ∈ row → (- B <= v)%Qc ∧ (v <= B)%Qc.

(** The number of transitions in which the score went up. *)
Definition score_ups (trs : list Transition) : nat :=
  length (List.filter scored trs).

(** The largest of 0 and the scores logged. *)
Definition max_score (scores : list Z) : Z := foldr Z.max 0 scores.

(** More inputs to try the code on: a game whose fruit lies right in
    front of the snake, and a finished game. *)
Definition feeding_game : Game := centred_game 800 600 20 (420, 300).

Definition quiet_game : Game := centred_game 800 600 20 (60, 60).

(** * Properties *)

(** ** Steering: [apply_action] *)

Section Steering.

Implicit Types (g : Game) (action : Z).

Lemma apply_action_only_heading g action :
  apply_action g action
  = set_snake (set_snake_direction (heading (apply_action g action)) (snake g)) g.
Proof.
  unfold apply_action, heading.
  destruct g as [w h bs vis [b d sbs gp] fr sc go sp]; simpl.
  destruct (action =? 1); [by destruct d|].
  destruct (action =? 2); [by destruct d|done].
Qed.

Lemma apply_action_left_right g : apply_action (apply_action g 1) 2 = g.
Proof. by destruct g as [w h bs vis [b [] sbs gp] fr sc go sp]. Qed.

Lemma apply_action_right_left g : apply_action (apply_action g 2) 1 = g.
Proof. by destruct g as [w h bs vis [b [] sbs gp] fr sc go sp]. Qed.

(** C9: a left turn followed by a right turn, a right turn followed
    by a left turn, and four equal turns in a row, all give back the
    heading the snake started with. *)
Theorem apply_action_turns_restore_heading g :
  heading (apply_action (apply_action g 1) 2) = heading g
  ∧ heading (apply_action (apply_action g 2) 1) = heading g
  ∧ heading (Nat.iter 4 (λ g', apply_action g' 1) g) = heading g
  ∧ heading (Nat.iter 4 (λ g', apply_action g' 2) g) = heading g.
Proof.
  rewrite apply_action_left_right, apply_action_right_left.
  by destruct g as [w h bs vis [b [] sbs gp] fr sc go sp].
Qed.

(** C10: an action other than 1 and 2 (action 0, "straight", and any
    integer out of range) leaves the game, heading included, as it
    was; and whatever the action, nothing but the heading changes. *)
Theorem apply_action_frame g action :
  (action ≠ 1 → action ≠ 2 → apply_action g action = g)
  ∧ width (apply_action g action) = width g
  ∧ height (apply_action g action) = height g
  ∧ block_size (apply_action g action) = block_size g
  ∧ visible (apply_action g action) = visible g
  ∧ fruit (apply_action g action) = fruit g
  ∧ score (apply_action g action) = score g
  ∧ game_over (apply_action g action) = game_over g
  ∧ speed (apply_action g action) = speed g
  ∧ body (snake (apply_action g action)) = body (snake g)
  ∧ snake_block_size (snake (apply_action g action)) = snake_block_size (snake g)
  ∧ growth_pending (snake (apply_action g action)) = growth_pending (snake g).
Proof.
  split.
  - intros H1 H2. unfold apply_action.
    destruct (Z.eqb_spec action 1); [done|].
    by destruct (Z.eqb_spec action 2).
  - by rewrite (apply_action_only_heading g action).
Qed.

End Steering.

Lemma apply_action_frame_witness :
  apply_action (centred_game 800 600 20 (420, 280)) 0
  = centred_game 800 600 20 (420, 280).
Proof.
  destruct (apply_action_frame (centred_game 800 600 20 (420, 280)) 0) as [H _].
  apply H; lia.
Defined.

(** ** The state encoder: [get_state] *)

(** C7: with a one-segment snake at the centre of the grid heading
    right and the fruit one cell to the right and one cell up, the
    encoder returns eleven booleans: no danger straight, left or right;
    fruit to the right and above, not to the left, not below; heading
    right and no other heading. In the order of the tuple: danger
    straight, left, right; fruit right, left, below, above; heading
    up, down, left, right. The grid must leave a free cell around the
    centre, as every grid [Game] can be built on does. *)
Theorem get_state_centre_heading_right (w h bs : Z) :
  0 < bs → 2 * bs < w → 2 * bs < h →
  get_state (centred_game w h bs (w / 2 + bs, h / 2 - bs))
  = Ok (false, false, false,
        true, false, false, true,
        false, false, false, true).
Proof.
  intros Hbs Hw Hh. unfold get_state, centred_game; simpl.
  pose proof (Z.div_mod w 2 ltac:(lia)) as Ew.
  pose proof (Z.mod_pos_bound w 2 ltac:(lia)) as Bw.
  pose proof (Z.div_mod h 2 ltac:(lia)) as Eh.
  pose proof (Z.mod_pos_bound h 2 ltac:(lia)) as Bh.
  repeat match goal with
         | |- context [?a <? ?b] => destruct (Z.ltb_spec a b); try lia
         | |- context [?a <=? ?b] => destruct (Z.leb_spec a b); try lia
         end.
  reflexivity.
Qed.

Lemma get_state_centre_heading_right_witness :
  get_state (centred_game 800 600 20 (420, 280))
  = Ok (false, false, false,
        true, false, false, true,
        false, false, false, true).
Proof. apply (get_state_centre_heading_right 800 600 20); lia. Defined.

(** ** The policy: [get_action] *)

Section Policy.

Implicit Types (ai : SnakeAI) (state : State) (r : Random) (row : list Qc).

Lemma argmax_from_spec (l pre : list Qc) (best_i : nat) (best : Qc) :
  pre !! best_i = Some best →
  (∀ j w, pre !! j = Some w → (w <= best)%Qc) →
  (∀ j w, (j < best_i)%nat → pre !! j = Some w → (w < best)%Qc) →
  first_max (pre ++ l) (argmax_from best_i best (length pre) l).
Proof.
  revert pre best_i best.
  induction l as [|x l IH]; intros pre bi b Hb Hle Hlt; simpl.
  - rewrite app_nil_r. by exists b.
  - replace (pre ++ x :: l) with ((pre ++ [x]) ++ l)
      by (by rewrite <- app_assoc).
    replace (S (length pre)) with (length (pre ++ [x]))
      by (rewrite length_app; simpl; lia).
    case_bool_decide as Hx; apply IH.
    + rewrite lookup_app_r by lia. by rewrite Nat.sub_diag.
    + intros j w [Hj|[_ Hj]]%lookup_app_Some.
      * apply Qclt_le_weak. eapply Qcle_lt_trans; [by eapply Hle|done].
      * apply list_lookup_singleton_Some in Hj as [_ <-]. apply Qcle_refl.
    + intros j w Hlen [Hj|[Hge _]]%lookup_app_Some; [|lia].
      eapply Qcle_lt_trans; [by eapply Hle|done].
    + by apply lookup_app_l_Some.
    + intros j w [Hj|[_ Hj]]%lookup_app_Some; [by eapply Hle|].
      apply list_lookup_singleton_Some in Hj as [_ <-].
      by apply Qcnot_lt_le.
    + intros j w Hj [Hjw|[Hge _]]%lookup_app_Some; [by eapply Hlt|].
      apply lookup_lt_Some in Hb. lia.
Qed.

Lemma np_argmax_first_max row :
  row ≠ [] → ∃ i, np_argmax row = Ok (Z.of_nat i) ∧ first_max row i.
Proof.
  destruct row as [|x l]; [done|intros _].
  exists (argmax_from 0 x 1 l). split; [done|].
  apply (argmax_from_spec l [x] 0%nat x); [done| |intros; lia].
  intros j w Hj. apply list_lookup_singleton_Some in Hj as [_ <-].
  apply Qcle_refl.
Qed.

Lemma random_random_nonneg r :
  ∃ u, random.random r = Ok (u, mkRandom (entropy r) (S (cursor r)))
       ∧ (0 <= u)%Qc.
Proof.
  eexists. split; [reflexivity|].
  unfold Qcle; simpl. rewrite !Qred_correct.
  unfold Qle; simpl.
  pose proof (N2Z.is_nonneg (entropy r (cursor r) `mod` 2 ^ 53)%N).
  lia.
Qed.

Lemma ensure_state_lookup state (t : gmap State (list Qc)) :
  ∃ row, ensure_state state t !! state = Some row
         ∧ (t !! state = None → row = [0; 0; 0]%Qc)
         ∧ (t !! state = Some row ∨ t !! state = None).
Proof.
  unfold ensure_state. destruct (t !! state) as [row|] eqn:E.
  - exists row. naive_solver.
  - eexists. rewrite lookup_insert_eq. naive_solver.
Qed.

Lemma ensure_state_other state (k : State) (t : gmap State (list Qc)) :
  k ≠ state → ensure_state state t !! k = t !! k.
Proof.
  intros Hk. unfold ensure_state. destruct (t !! state); [done|].
  by rewrite lookup_insert_ne.
Qed.

Lemma ensure_state_keeps state (k : State) row (t : gmap State (list Qc)) :
  t !! k = Some row → ensure_state state t !! k = Some row.
Proof.
  intros Hk. unfold ensure_state. destruct (t !! state) eqn:E; [done|].
  rewrite lookup_insert_ne; [done|congruence].
Qed.

Lemma ensure_state_present state row (t : gmap State (list Qc)) :
  t !! state = Some row → ensure_state state t = t.
Proof. intros E. unfold ensure_state. by rewrite E. Qed.

Lemma ensure_state_wf state (t : gmap State (list Qc)) :
  table_wf t → table_wf (ensure_state state t).
Proof.
  intros Hwf s row. unfold ensure_state.
  destruct (t !! state) eqn:E; [apply Hwf|].
  destruct (decide (state = s)) as [->|Hne].
  - rewrite lookup_insert_eq. by intros [= <-].
  - rewrite lookup_insert_ne by done. apply Hwf.
Qed.

(** C6: when epsilon is 0 the draw of [random.random()] is never
    below it, so no random action is taken: the state gets a row of
    three zeros if it had none, nothing else changes, and the action
    returned is the first position holding the maximum of the state's
    three action values. *)
Theorem get_action_greedy ai state r :
  epsilon ai = 0%Qc → table_wf (q_table ai) →
  ∃ row i,
    get_action ai state r
    = Ok (Z.of_nat i, set_q_table (ensure_state state (q_table ai)) ai,
          mkRandom (entropy r) (S (cursor r)))
    ∧ ensure_state state (q_table ai) !! state = Some row
    ∧ (q_table ai !! state = None → row = [0; 0; 0]%Qc)
    ∧ (q_table ai !! state = Some row ∨ q_table ai !! state = None)
    ∧ length row = 3%nat
    ∧ first_max row i.
Proof.
  intros Heps Hwf.
  destruct (random_random_nonneg r) as (u & Hu & Hpos).
  destruct (ensure_state_lookup state (q_table ai)) as (row & Hrow & Hnew & Hold).
  assert (length row = 3%nat) as Hlen
    by (by eapply (ensure_state_wf state), Hrow).
  destruct (np_argmax_first_max row) as (i & Hi & Hmax);
    [by destruct row|].
  exists row, i. repeat split; try done.
  unfold get_action, mbind, M_bind. rewrite Hu, Heps.
  rewrite bool_decide_eq_false_2 by (by apply Qcle_not_lt).
  unfold lift, dict_get; simpl. by rewrite Hrow, Hi.
Qed.

End Policy.

Lemma table_wf_empty : table_wf ∅.
Proof. intros s row H. by rewrite lookup_empty in H. Qed.

Lemma table_wf_insert (s : State) (row : list Qc) (t : gmap State (list Qc)) :
  length row = 3%nat → table_wf t → table_wf (<[s := row]> t).
Proof.
  intros Hlen Hwf s' row'. destruct (decide (s = s')) as [->|Hne].
  - rewrite lookup_insert_eq. by intros [= <-].
  - rewrite lookup_insert_ne by done. apply Hwf.
Qed.

Lemma get_action_greedy_witness :
  ∃ row i,
    get_action greedy_ai sample_state (mkRandom (λ _, 1%N) 0)
    = Ok (Z.of_nat i,
          set_q_table (ensure_state sample_state (q_table greedy_ai)) greedy_ai,
          mkRandom (λ _, 1%N) 1)
    ∧ ensure_state sample_state (q_table greedy_ai) !! sample_state = Some row
    ∧ (q_table greedy_ai !! sample_state = None → row = [0; 0; 0]%Qc)
    ∧ (q_table greedy_ai !! sample_state = Some row
       ∨ q_table greedy_ai !! sample_state = None)
    ∧ length row = 3%nat
    ∧ first_max row i.
Proof.
  apply (get_action_greedy greedy_ai sample_state (mkRandom (λ _, 1%N) 0)).
  - reflexivity.
  - apply table_wf_insert; [reflexivity|apply table_wf_empty].
Defined.

(** On the row [1; 3; 3] the two maxima tie and the first one wins. *)
Example get_action_greedy_tie :
  fst <$> value_of (get_action greedy_ai sample_state (mkRandom (λ _, 1%N) 0))
  = Some 1.
Proof. vm_compute. reflexivity. Qed.

(** ** The learner: the Bellman assignment of [train] *)

Section Learner.

Implicit Types (ai : SnakeAI) (old_state new_state s : State)
  (action : Z) (reward : Qc) (row : list Qc) (t : gmap State (list Qc)).

Lemma Qc_max_ub a b : (a <= Qc_max a b)%Qc ∧ (b <= Qc_max a b)%Qc.
Proof.
  unfold Qc_max. case_bool_decide as H.
  - split; [by apply Qclt_le_weak|apply Qcle_refl].
  - split; [apply Qcle_refl|by apply Qcnot_lt_le].
Qed.

Lemma fold_Qc_max_spec (l : list Qc) (x : Qc) :
  max_of (x :: l) (fold_left Qc_max l x).
Proof.
  revert x. induction l as [|y l IH]; intros x; simpl.
  - split; [apply elem_of_cons; by left|].
    intros w ->%list_elem_of_singleton. apply Qcle_refl.
  - destruct (IH (Qc_max x y)) as [Hin Hub].
    destruct (Qc_max_ub x y) as [Hx Hy].
    assert (Qc_max x y <= fold_left Qc_max l (Qc_max x y))%Qc as Hm
      by (apply Hub, elem_of_cons; by left).
    split.
    + rewrite !elem_of_cons.
      apply elem_of_cons in Hin as [Hin|Hin]; [|by right; right].
      rewrite Hin. unfold Qc_max. case_bool_decide; auto.
    + intros w Hw. rewrite !elem_of_cons in Hw.
      destruct Hw as [->|[->|Hw]]; [by eapply Qcle_trans..|].
      apply Hub, elem_of_cons. by right.
Qed.

Lemma np_max_spec row :
  row ≠ [] → ∃ m, np_max row = Ok m ∧ max_of row m.
Proof.
  destruct row as [|x l]; [done|intros _].
  eexists. split; [reflexivity|apply fold_Qc_max_spec].
Qed.

Lemma py_index_in_range {A} (l : list A) (i : Z) :
  0 ≤ i < Z.of_nat (length l) → py_index l i = Ok (Z.to_nat i).
Proof.
  intros [H0 H1]. unfold py_index.
  destruct (Z.leb_spec 0 i); [|lia].
  by destruct (Z.ltb_spec i (Z.of_nat (length l))); [|lia].
Qed.

(** What the assignment computes, when the rows have three entries
    and the action is one of 0, 1, 2. *)
Lemma q_update_spec ai old_state action reward new_state :
  table_wf (q_table ai) → 0 ≤ action < 3 →
  let t := ensure_state new_state (ensure_state old_state (q_table ai)) in
  ∃ row old_q next_row next_max,
    t !! old_state = Some row
    ∧ row !! Z.to_nat action = Some old_q
    ∧ t !! new_state = Some next_row
    ∧ np_max next_row = Ok next_max
    ∧ max_of next_row next_max
    ∧ q_update ai old_state action reward new_state
      = Ok (set_q_table
              (<[old_state :=
                   <[Z.to_nat action :=
                       (old_q + learning_rate ai
                                * (reward + discount_factor ai * next_max - old_q))%Qc]>
                     row]> t) ai).
Proof.
  intros Hwf Ha t.
  assert (table_wf t) as Hwft by (by apply ensure_state_wf, ensure_state_wf).
  destruct (ensure_state_lookup new_state (ensure_state old_state (q_table ai)))
    as (next_row & Hnext & _).
  fold t in Hnext.
  destruct (ensure_state_lookup old_state (q_table ai)) as (row0 & Hrow0 & _).
  assert (∃ row, t !! old_state = Some row) as [row Hrow].
  { destruct (decide (old_state = new_state)) as [->|Hne]; [by eexists|].
    exists row0. subst t. by rewrite ensure_state_other. }
  pose proof (Hwft _ _ Hrow) as Hlen.
  pose proof (Hwft _ _ Hnext) as Hlen'.
  destruct (lookup_lt_is_Some_2 row (Z.to_nat action)) as [old_q Hq]; [lia|].
  destruct (np_max_spec next_row) as (next_max & Hmax & Hspec);
    [by destruct next_row|].
  exists row, old_q, next_row, next_max. repeat split; try done; try apply Hspec.
  unfold q_update, dict_get. fold t. rewrite Hrow.
  rewrite py_index_in_range by lia. by rewrite Hq, Hnext, Hmax.
Qed.

(** C4: the update first gives old and new state a row of three zeros
    where they had none, then replaces the value of (old state,
    action) by old + learning_rate * (reward + discount_factor *
    max(row of the new state) - old), and touches no other value.
    When both states were absent the old value is 0 and the new one
    is learning_rate * reward. *)
Theorem q_update_bellman ai old_state action reward new_state :
  table_wf (q_table ai) → 0 ≤ action < 3 →
  let t := ensure_state new_state (ensure_state old_state (q_table ai)) in
  let i := Z.to_nat action in
  ∃ old_q next_row next_max ai',
    (∀ s, s = old_state ∨ s = new_state →
          q_table ai !! s = None → t !! s = Some [0; 0; 0]%Qc)
    ∧ (∀ s row, q_table ai !! s = Some row → t !! s = Some row)
    ∧ q_value t old_state i = Some old_q
    ∧ t !! new_state = Some next_row
    ∧ max_of next_row next_max
    ∧ q_update ai old_state action reward new_state = Ok ai'
    ∧ q_value (q_table ai') old_state i
      = Some (old_q + learning_rate ai
                      * (reward + discount_factor ai * next_max - old_q))%Qc
    ∧ (∀ s j, (s, j) ≠ (old_state, i) →
              q_value (q_table ai') s j = q_value t s j)
    ∧ (q_table ai !! old_state = None → q_table ai !! new_state = None →
       old_q = 0%Qc
       ∧ q_value (q_table ai') old_state i = Some (learning_rate ai * reward)%Qc).
Proof.
  intros Hwf Ha t i.
  destruct (q_update_spec ai old_state action reward new_state Hwf Ha)
    as (row & old_q & next_row & next_max & Hrow & Hq & Hnext & Hmax & Hspec & Hupd).
  fold t in Hrow, Hnext, Hupd. fold i in Hq, Hupd.
  assert (∀ s, s = old_state ∨ s = new_state →
               q_table ai !! s = None → t !! s = Some [0; 0; 0]%Qc) as Hzero.
  { intros s Hs Hnone. subst t.
    destruct (decide (s = new_state)) as [->|Hne].
    - destruct (ensure_state_lookup new_state (ensure_state old_state (q_table ai)))
        as (r & Hr & Hnew & _).
      destruct (decide (new_state = old_state)) as [->|Hne'].
      + destruct (ensure_state_lookup old_state (q_table ai)) as (r' & Hr' & Hnew' & _).
        erewrite ensure_state_present by done. by rewrite Hr', Hnew'.
      + rewrite Hr. f_equal. apply Hnew. by rewrite ensure_state_other.
    - destruct Hs as [-> | ->]; [|done]. rewrite ensure_state_other by done.
      destruct (ensure_state_lookup old_state (q_table ai)) as (r' & Hr' & Hnew' & _).
      by rewrite Hr', Hnew'. }
  assert (length row = 3%nat) as Hlen.
  { eapply (ensure_state_wf new_state), Hrow. by apply ensure_state_wf. }
  eexists old_q, next_row, next_max, _. split_and!; [done| | |done|done|exact Hupd|..].
  - intros s r Hs. by apply ensure_state_keeps, ensure_state_keeps.
  - unfold q_value. by rewrite Hrow.
  - simpl. unfold q_value. rewrite lookup_insert_eq; simpl.
    apply list_lookup_insert_eq. lia.
  - intros s j Hne. simpl. unfold q_value.
    destruct (decide (s = old_state)) as [->|Hs].
    + rewrite lookup_insert_eq, Hrow; simpl.
      apply list_lookup_insert_ne. congruence.
    + by rewrite lookup_insert_ne.
  - intros Hold Hnew.
    rewrite (Hzero old_state) in Hrow by auto. injection Hrow as <-.
    rewrite (Hzero new_state) in Hnext by auto. injection Hnext as <-.
    assert (old_q = 0%Qc) as ->.
    { apply list_elem_of_lookup_2 in Hq. rewrite !elem_of_cons in Hq.
      destruct Hq as [?|[?|[?|Hq]]]; try done. by apply elem_of_nil in Hq. }
    assert (next_max = 0%Qc) as ->.
    { destruct Hspec as [Hin _]. rewrite !elem_of_cons in Hin.
      destruct Hin as [?|[?|[?|Hin]]]; try done. by apply elem_of_nil in Hin. }
    split; [done|]. simpl. unfold q_value. rewrite lookup_insert_eq; simpl.
    rewrite list_lookup_insert_eq by (simpl; lia). f_equal. ring.
Qed.

Lemma q_update_bellman_witness :
  ∃ ai', q_update SnakeAI_init sample_state 1 (Q2Qc 10) sample_next_state = Ok ai'
         ∧ q_value (q_table ai') sample_state 1
           = Some (learning_rate SnakeAI_init * Q2Qc 10)%Qc.
Proof.
  destruct (q_update_bellman SnakeAI_init sample_state 1 (Q2Qc 10) sample_next_state)
    as (old_q & next_row & next_max & ai' & _ & _ & _ & _ & _ & Hupd & _ & _ & Hfresh).
  - apply table_wf_empty.
  - lia.
  - exists ai'. split; [exact Hupd|]. apply Hfresh; apply lookup_empty.
Defined.

End Learner.

(** ** Repeated updates of one action value *)

(** A non-negative gap that shrinks by the factor 1 - alpha at every
    step never grows and falls below every positive bound. *)
Section Contraction.

Variables (alpha : Q) (d : nat → Q).
Hypothesis alpha_pos : (0 < alpha)%Q.
Hypothesis alpha_lt_1 : (alpha < 1)%Q.
Hypothesis d_step : ∀ n, (d (S n) == (1 - alpha) * d n)%Q.
Hypothesis d0_nonneg : (0 <= d 0%nat)%Q.

Lemma gap_nonneg n : (0 <= d n)%Q.
Proof. induction n as [|n IH]; [done|]. rewrite d_step. nra. Qed.

Lemma gap_decreasing n : (d (S n) <= d n)%Q.
Proof. pose proof (gap_nonneg n). rewrite d_step. nra. Qed.

Lemma gap_antitone n m : (n ≤ m)%nat → (d m <= d n)%Q.
Proof.
  induction 1 as [|m _ IH]; [apply Qle_refl|].
  eapply Qle_trans; [apply gap_decreasing|done].
Qed.

Lemma gap_bernoulli n :
  (d n * (1 + inject_Z (Z.of_nat n) * alpha) <= d 0%nat)%Q.
Proof.
  induction n as [|n IH].
  - simpl. ring_simplify. apply Qle_refl.
  - pose proof (gap_nonneg n) as Hn.
    assert (inject_Z (Z.of_nat (S n)) == inject_Z (Z.of_nat n) + 1)%Q as ->.
    { rewrite Nat2Z.inj_succ. unfold Z.succ. by rewrite inject_Z_plus. }
    assert (0 <= inject_Z (Z.of_nat n))%Q as Hk
      by (rewrite <- (Zle_Qle 0); lia).
    rewrite d_step.
    eapply Qle_trans; [|exact IH].
    set (k := inject_Z (Z.of_nat n)) in *. set (x := d n) in *.
    assert (0 <= x * (alpha * alpha * (k + 1)))%Q by
      (apply Qmult_le_0_compat; [done|]; nra).
    lra.
Qed.

Lemma gap_vanishes eps :
  (0 < eps)%Q → ∃ N : nat, ∀ n, (N ≤ n)%nat → (d n < eps)%Q.
Proof.
  intros Heps.
  set (x := (d 0%nat / (eps * alpha))%Q).
  exists (Z.to_nat (Qfloor x + 1)). intros n Hn.
  eapply Qle_lt_trans; [by apply gap_antitone|].
  set (N := Z.to_nat (Qfloor x + 1)).
  pose proof (gap_bernoulli N) as HN.
  pose proof (gap_nonneg N) as HdN.
  assert (x < inject_Z (Z.of_nat N))%Q as Hx.
  { eapply Qlt_le_trans; [apply Qlt_floor|]. rewrite <- Zle_Qle. lia. }
  assert (0 < eps * alpha)%Q as Hea by nra.
  assert (d 0%nat == x * (eps * alpha))%Q as Hd0.
  { unfold x. field. split; lra. }
  set (k := inject_Z (Z.of_nat N)) in *.
  assert (x * (eps * alpha) < k * (eps * alpha))%Q as Hlt
    by (by apply Qmult_lt_compat_r).
  rewrite <- Hd0 in Hlt.
  assert (0 <= k)%Q as Hk by (unfold k; rewrite <- (Zle_Qle 0); lia).
  destruct (Qlt_le_dec (d N) eps) as [|Hge]; [done|exfalso].
  assert (0 <= (d N - eps) * (k * alpha))%Q
    by (apply Qmult_le_0_compat; nra).
  lra.
Qed.

End Contraction.

(** Statements on canonical rationals read as statements on their
    underlying fractions. *)
Ltac qc_to_q :=
  unfold Qcle, Qclt, Qcminus, Qcplus, Qcmult, Qcopp, Q2Qc in *;
  cbn [this] in *;
  rewrite ?Qred_correct in *.

Section Recurrence.

Variables (lr df reward next_max q0 : Qc).
Hypothesis lr_pos : (0 < lr)%Qc.
Hypothesis lr_lt_1 : (lr < 1)%Qc.

Let q (n : nat) : Qc := bellman_iter lr df reward next_max n q0.
Let fixed_point : Qc := (reward + df * next_max)%Qc.

Lemma bellman_iter_succ n :
  q (S n) = (q n + lr * (reward + df * next_max - q n))%Qc.
Proof. reflexivity. Qed.

Lemma gap_below_step n :
  (this fixed_point - this (q (S n))
   == (1 - this lr) * (this fixed_point - this (q n)))%Q.
Proof.
  rewrite bellman_iter_succ. unfold fixed_point.
  generalize (q n); intros v. qc_to_q. ring.
Qed.

Lemma gap_above_step n :
  (this (q (S n)) - this fixed_point
   == (1 - this lr) * (this (q n) - this fixed_point))%Q.
Proof.
  rewrite bellman_iter_succ. unfold fixed_point.
  generalize (q n); intros v. qc_to_q. ring.
Qed.

Lemma lr_bounds : (0 < this lr)%Q ∧ (this lr < 1)%Q.
Proof. split; [apply lr_pos|apply lr_lt_1]. Qed.

Lemma bellman_iter_below :
  (q0 <= fixed_point)%Qc →
  ∀ n, (q n <= q (S n))%Qc ∧ (q (S n) <= fixed_point)%Qc.
Proof.
  intros H0 n. destruct lr_bounds as [Hp H1].
  set (d := λ n, (this fixed_point - this (q n))%Q).
  assert (0 <= d 0%nat)%Q as Hd0
    by (unfold d; cbn beta; change (q 0%nat) with q0;
        unfold Qcle in H0; lra).
  pose proof (gap_decreasing (this lr) d Hp H1 gap_below_step Hd0 n) as Hdec.
  pose proof (gap_nonneg (this lr) d H1 gap_below_step Hd0 (S n)) as Hpos.
  unfold d, Qcle in *. split; lra.
Qed.

Lemma bellman_iter_above :
  (fixed_point <= q0)%Qc →
  ∀ n, (fixed_point <= q (S n))%Qc ∧ (q (S n) <= q n)%Qc.
Proof.
  intros H0 n. destruct lr_bounds as [Hp H1].
  set (d := λ n, (this (q n) - this fixed_point)%Q).
  assert (0 <= d 0%nat)%Q as Hd0
    by (unfold d; cbn beta; change (q 0%nat) with q0;
        unfold Qcle in H0; lra).
  pose proof (gap_decreasing (this lr) d Hp H1 gap_above_step Hd0 n) as Hdec.
  pose proof (gap_nonneg (this lr) d H1 gap_above_step Hd0 (S n)) as Hpos.
  unfold d, Qcle in *. split; lra.
Qed.

Lemma bellman_iter_converges (eps : Qc) :
  (0 < eps)%Qc →
  ∃ N : nat, ∀ n, (N ≤ n)%nat →
    (- eps < q n - fixed_point)%Qc ∧ (q n - fixed_point < eps)%Qc.
Proof.
  intros Heps. destruct lr_bounds as [Hp H1].
  assert (0 < this eps)%Q as He by apply Heps.
  destruct (Qclt_le_dec fixed_point q0) as [Hlt|Hle].
  - set (d := λ n, (this (q n) - this fixed_point)%Q).
    assert (0 <= d 0%nat)%Q as Hd0
      by (unfold d; cbn beta; change (q 0%nat) with q0;
          unfold Qclt in Hlt; lra).
    destruct (gap_vanishes (this lr) d Hp H1 gap_above_step Hd0 (this eps) He)
      as [N HN].
    exists N. intros n Hn. specialize (HN n Hn).
    pose proof (gap_nonneg (this lr) d H1 gap_above_step Hd0 n) as Hpos.
    unfold d in *. generalize dependent (q n); intros v ? ?.
    qc_to_q. split; lra.
  - set (d := λ n, (this fixed_point - this (q n))%Q).
    assert (0 <= d 0%nat)%Q as Hd0
      by (unfold d; cbn beta; change (q 0%nat) with q0;
          unfold Qcle in Hle; lra).
    destruct (gap_vanishes (this lr) d Hp H1 gap_below_step Hd0 (this eps) He)
      as [N HN].
    exists N. intros n Hn. specialize (HN n Hn).
    pose proof (gap_nonneg (this lr) d H1 gap_below_step Hd0 n) as Hpos.
    unfold d in *. generalize dependent (q n); intros v ? ?.
    qc_to_q. split; lra.
Qed.

End Recurrence.

Section DistinctStates.

Variables (ai : SnakeAI) (old_state new_state : State) (action : Z) (reward : Qc).
Hypothesis table_ok : table_wf (q_table ai).
Hypothesis action_ok : 0 ≤ action < 3.
Hypothesis states_differ : old_state ≠ new_state.

Let i : nat := Z.to_nat action.

(** One assignment, seen from a table in which the value of (old
    state, action) is [v] and the row of the new state is [next_row]. *)
Lemma q_update_step (a : SnakeAI) (v next_max : Qc) (next_row : list Qc) :
  table_wf (q_table a) →
  q_value (ensure_state new_state (ensure_state old_state (q_table a))) old_state i
  = Some v →
  ensure_state new_state (ensure_state old_state (q_table a)) !! new_state
  = Some next_row →
  np_max next_row = Ok next_max →
  ∃ a', q_update a old_state action reward new_state = Ok a'
        ∧ table_wf (q_table a')
        ∧ q_value (q_table a') old_state i
          = Some (v + learning_rate a
                      * (reward + discount_factor a * next_max - v))%Qc
        ∧ q_table a' !! new_state = Some next_row
        ∧ learning_rate a' = learning_rate a
        ∧ discount_factor a' = discount_factor a.
Proof.
  intros Hwf Hv Hnext Hmax.
  destruct (q_update_spec a old_state action reward new_state Hwf action_ok)
    as (row & old_q & next_row' & next_max' & Hrow & Hq & Hnext' & Hmax' & _ & Hupd).
  fold i in Hq, Hupd.
  rewrite Hnext in Hnext'. injection Hnext' as <-.
  rewrite Hmax in Hmax'. injection Hmax' as <-.
  unfold q_value in Hv. rewrite Hrow in Hv; simpl in Hv.
  rewrite Hq in Hv. injection Hv as ->.
  assert (length row = 3%nat) as Hlen.
  { eapply (ensure_state_wf new_state), Hrow. by apply ensure_state_wf. }
  eexists. split; [exact Hupd|]. simpl. split_and!; try done.
  - apply table_wf_insert; [by rewrite length_insert|].
    by apply ensure_state_wf, ensure_state_wf.
  - unfold q_value. rewrite lookup_insert_eq; simpl.
    apply list_lookup_insert_eq. unfold i. lia.
  - by rewrite lookup_insert_ne.
Qed.

Lemma ensure_both_present (t : gmap State (list Qc)) (v : Qc) (next_row : list Qc) :
  q_value t old_state i = Some v → t !! new_state = Some next_row →
  ensure_state new_state (ensure_state old_state t) = t.
Proof.
  intros Hv Hnext. unfold q_value in Hv.
  destruct (t !! old_state) as [row|] eqn:E; [|done].
  rewrite (ensure_state_present old_state row) by done.
  by rewrite (ensure_state_present new_state next_row).
Qed.

Lemma repeat_update_values (q0 next_max : Qc) (next_row : list Qc) :
  q_value (ensure_state new_state (ensure_state old_state (q_table ai))) old_state i
  = Some q0 →
  ensure_state new_state (ensure_state old_state (q_table ai)) !! new_state
  = Some next_row →
  np_max next_row = Ok next_max →
  ∀ n, ∃ ai_n,
    repeat_update (S n) ai old_state action reward new_state = Ok ai_n
    ∧ table_wf (q_table ai_n)
    ∧ q_value (q_table ai_n) old_state i
      = Some (bellman_iter (learning_rate ai) (discount_factor ai)
                           reward next_max (S n) q0)
    ∧ q_table ai_n !! new_state = Some next_row
    ∧ learning_rate ai_n = learning_rate ai
    ∧ discount_factor ai_n = discount_factor ai.
Proof.
  intros Hq0 Hnext Hmax. induction n as [|n IH].
  - simpl. by apply q_update_step.
  - destruct IH as (ai_n & Hrun & Hwf & Hv & Hrow & Hlr & Hdf).
    change (repeat_update (S (S n)) ai old_state action reward new_state)
      with (match repeat_update (S n) ai old_state action reward new_state with
            | Ok ai' => q_update ai' old_state action reward new_state
            | Raise e => Raise e
            end).
    rewrite Hrun.
    pose proof (ensure_both_present _ _ _ Hv Hrow) as Hsame.
    destruct (q_update_step ai_n
                (bellman_iter (learning_rate ai) (discount_factor ai)
                              reward next_max (S n) q0)
                next_max next_row Hwf)
      as (a' & Hupd & ? & Hv' & ? & ? & ?); [by rewrite Hsame..|done|].
    exists a'. rewrite Hlr, Hdf in Hv'. split_and!; try done; congruence.
Qed.

(** When the two states differ, the row of the next state, and with
    it its maximum, is the same before every one of the updates. *)
Lemma next_max_constant_distinct (next_row : list Qc) (next_max : Qc) :
  ensure_state new_state (ensure_state old_state (q_table ai)) !! new_state
  = Some next_row →
  max_of next_row next_max →
  ∀ n ai_n,
    repeat_update n ai old_state action reward new_state = Ok ai_n →
    ∃ next_row',
      ensure_state new_state (ensure_state old_state (q_table ai_n)) !! new_state
      = Some next_row'
      ∧ max_of next_row' next_max.
Proof.
  intros Hnext Hmax n ai_n Hrun. destruct n as [|n].
  { injection Hrun as <-. by exists next_row. }
  destruct (q_update_spec ai old_state action reward new_state table_ok action_ok)
    as (row & q0 & next_row0 & next_max0 & Hrow & Hq & Hnext0 & Hnp & _ & _).
  cbv zeta in Hrow, Hnext0. rewrite Hnext in Hnext0. injection Hnext0 as <-.
  assert (q_value (ensure_state new_state (ensure_state old_state (q_table ai)))
                  old_state i = Some q0) as Hq0
    by (unfold q_value; by rewrite Hrow).
  destruct (repeat_update_values q0 next_max0 next_row Hq0 Hnext Hnp n)
    as (ai_n' & Hrun' & _ & _ & Hrow' & _).
  rewrite Hrun in Hrun'. injection Hrun' as <-.
  exists next_row. split; [|done]. by do 2 apply ensure_state_keeps.
Qed.

End DistinctStates.

(** ** Repeated updates on binary64 floats *)

Section FloatUpdates.

(** With the parameters of a fresh agent, reward 10 and a next state
    whose values are all 0, the value that starts at 0 no longer moves
    after 660 assignments. *)
Lemma bellman_iter_float_stalls (n : nat) :
  (660 ≤ n)%nat →
  bellman_iter_float 10 0 n 0 = bellman_iter_float 10 0 660 0.
Proof.
  induction 1 as [|n _ IH]; [done|].
  unfold bellman_iter_float in *. rewrite Nat.iter_succ, IH.
  vm_compute. reflexivity.
Qed.

Lemma bellman_iter_float_early :
  forallb (λ n, PrimFloat.leb (bellman_iter_float 10 0 n 0)
                              (bellman_iter_float 10 0 (S n) 0)
                && PrimFloat.ltb (bellman_iter_float 10 0 n 0) 10)
          (seq 0 661) = true.
Proof. vm_compute. reflexivity. Qed.

Lemma bellman_iter_float_monotone (n : nat) :
  PrimFloat.leb (bellman_iter_float 10 0 n 0) (bellman_iter_float 10 0 (S n) 0)
  = true
  ∧ PrimFloat.ltb (bellman_iter_float 10 0 n 0) 10 = true.
Proof.
  destruct (decide (n ≤ 660)%nat) as [Hle|Hgt].
  - pose proof bellman_iter_float_early as Hall.
    rewrite forallb_forall in Hall.
    specialize (Hall n). apply andb_true_iff. apply Hall.
    apply in_seq. lia.
  - rewrite (bellman_iter_float_stalls n), (bellman_iter_float_stalls (S n))
      by lia.
    split; vm_compute; reflexivity.
Qed.

End FloatUpdates.

Section RepeatedUpdate.

Variables (ai : SnakeAI) (old_state new_state : State) (action : Z)
  (reward next_max : Qc).
Hypothesis table_ok : table_wf (q_table ai).
Hypothesis action_ok : 0 ≤ action < 3.

(** The maximum of the next state's row is [next_max] before every one
    of the updates. *)
Hypothesis next_max_constant :
  ∀ n ai_n,
    repeat_update n ai old_state action reward new_state = Ok ai_n →
    ∃ next_row,
      ensure_state new_state (ensure_state old_state (q_table ai_n)) !! new_state
      = Some next_row
      ∧ max_of next_row next_max.

Let i : nat := Z.to_nat action.

Lemma max_of_unique (row : list Qc) (a b : Qc) :
  max_of row a → max_of row b → a = b.
Proof. intros [Ha Hla] [Hb Hlb]. apply Qcle_antisym; auto. Qed.

Lemma repeat_update_run (q0 : Qc) :
  q_value (ensure_state new_state (ensure_state old_state (q_table ai))) old_state i
  = Some q0 →
  ∀ n, ∃ ai_n,
    repeat_update n ai old_state action reward new_state = Ok ai_n
    ∧ table_wf (q_table ai_n)
    ∧ q_value (ensure_state new_state (ensure_state old_state (q_table ai_n)))
              old_state i
      = Some (bellman_iter (learning_rate ai) (discount_factor ai)
                           reward next_max n q0)
    ∧ (n ≠ 0%nat →
       q_value (q_table ai_n) old_state i
       = Some (bellman_iter (learning_rate ai) (discount_factor ai)
                            reward next_max n q0))
    ∧ learning_rate ai_n = learning_rate ai
    ∧ discount_factor ai_n = discount_factor ai.
Proof.
  intros Hq0. induction n as [|n IH].
  { exists ai. by split_and!. }
  destruct IH as (ai_n & Hrun & Hwf & Hv & _ & Hlr & Hdf).
  destruct (q_update_spec ai_n old_state action reward new_state Hwf action_ok)
    as (row & old_q & next_row & nm & Hrow & Hq & Hnext & _ & Hmax & Hupd).
  cbv zeta in Hrow, Hnext, Hupd. fold i in Hq, Hupd.
  destruct (next_max_constant n ai_n Hrun) as (next_row' & Hnext' & Hmax').
  rewrite Hnext in Hnext'. injection Hnext' as <-.
  pose proof (max_of_unique _ _ _ Hmax Hmax') as ->.
  unfold q_value in Hv. rewrite Hrow in Hv. simpl in Hv.
  rewrite Hq in Hv. injection Hv as ->.
  assert (length row = 3%nat) as Hlen.
  { eapply (ensure_state_wf new_state), Hrow. by apply ensure_state_wf. }
  eexists. split.
  { change (repeat_update (S n) ai old_state action reward new_state)
      with (match repeat_update n ai old_state action reward new_state with
            | Ok ai' => q_update ai' old_state action reward new_state
            | Raise e => Raise e
            end).
    rewrite Hrun. exact Hupd. }
  cbn [q_table set_q_table learning_rate discount_factor].
  split_and!; [| | |done|done].
  - apply table_wf_insert; [by rewrite length_insert|].
    by apply ensure_state_wf, ensure_state_wf.
  - unfold q_value.
    erewrite (ensure_state_keeps new_state old_state);
      [|apply ensure_state_keeps, lookup_insert_eq].
    simpl. rewrite list_lookup_insert_eq by (unfold i; lia).
    by rewrite Hlr, Hdf.
  - intros _. unfold q_value. rewrite lookup_insert_eq. simpl.
    rewrite list_lookup_insert_eq by (unfold i; lia).
    by rewrite Hlr, Hdf.
Qed.

(** C5: repeating the update of one (state, action) with the same
    reward, while the maximum M of the next state's row stays the
    same (the next state may be the state itself), produces in exact
    arithmetic values that climb towards the fixed point
    reward + discount_factor * M when they start below it, descend
    towards it when they start above, and come as close to it as one
    likes, provided the learning rate lies strictly between 0 and 1.
    On the binary64 numbers of the program the values approach the
    fixed point up to rounding only: with the parameters of a fresh
    agent, reward 10 and M = 0, the value that starts at 0 never
    decreases, stays below the fixed point 10, and from the 660th
    update on keeps one and the same value, between 1e-14 and 2e-14
    short of 10. *)
Theorem repeated_update_converges :
  (0 < learning_rate ai)%Qc → (learning_rate ai < 1)%Qc →
  ∃ q0,
    q_value (ensure_state new_state (ensure_state old_state (q_table ai)))
            old_state i = Some q0
    ∧ let q n := bellman_iter (learning_rate ai) (discount_factor ai)
                              reward next_max n q0 in
      let fixed_point := (reward + discount_factor ai * next_max)%Qc in
      (∀ n, ∃ ai_n,
          repeat_update (S n) ai old_state action reward new_state = Ok ai_n
          ∧ q_value (q_table ai_n) old_state i = Some (q (S n)))
      ∧ ((q0 <= fixed_point)%Qc →
         ∀ n, (q n <= q (S n))%Qc ∧ (q (S n) <= fixed_point)%Qc)
      ∧ ((fixed_point <= q0)%Qc →
         ∀ n, (fixed_point <= q (S n))%Qc ∧ (q (S n) <= q n)%Qc)
      ∧ (∀ eps, (0 < eps)%Qc →
         ∃ N : nat, ∀ n, (N ≤ n)%nat →
           (- eps < q n - fixed_point)%Qc ∧ (q n - fixed_point < eps)%Qc)
      ∧ let qf n := bellman_iter_float 10 0 n 0 in
        (∀ n, PrimFloat.leb (qf n) (qf (S n)) = true
              ∧ PrimFloat.ltb (qf n) 10 = true)
        ∧ (∀ n, (660 ≤ n)%nat → qf n = qf 660%nat)
        ∧ PrimFloat.ltb 1e-14 (PrimFloat.sub 10 (qf 660%nat)) = true
        ∧ PrimFloat.ltb (PrimFloat.sub 10 (qf 660%nat)) 2e-14 = true.
Proof.
  intros Hpos Hlt1.
  destruct (q_update_spec ai old_state action reward new_state table_ok action_ok)
    as (row & q0 & next_row & nm & Hrow & Hq & _).
  cbv zeta in Hrow. fold i in Hq.
  assert (q_value (ensure_state new_state (ensure_state old_state (q_table ai)))
                  old_state i = Some q0) as Hq0
    by (unfold q_value; by rewrite Hrow).
  exists q0. split; [done|].
  intros q fixed_point. split_and!.
  - intros n.
    destruct (repeat_update_run q0 Hq0 (S n)) as (ai_n & Hrun & _ & _ & Hv & _).
    exists ai_n. split; [done|]. by apply Hv.
  - by apply bellman_iter_below.
  - by apply bellman_iter_above.
  - by apply bellman_iter_converges.
  - intros qf. split_and!.
    + apply bellman_iter_float_monotone.
    + apply bellman_iter_float_stalls.
    + vm_compute. reflexivity.
    + vm_compute. reflexivity.
Qed.

End RepeatedUpdate.

(** ** A state that is its own next state *)

Section SelfTransition.

Variables (ai : SnakeAI) (state : State) (action : Z) (reward next_max : Qc).
Hypothesis table_ok : table_wf (q_table ai).
Hypothesis action_ok : 0 ≤ action < 3.
Hypothesis lr_pos : (0 < learning_rate ai)%Qc.
Hypothesis lr_lt_1 : (learning_rate ai < 1)%Qc.

Variables (row0 : list Qc) (j : nat).
Hypothesis row0_there : ensure_state state (q_table ai) !! state = Some row0.
Hypothesis other_action : j ≠ Z.to_nat action.
Hypothesis row0_max_at : row0 !! j = Some next_max.
Hypothesis row0_below : ∀ w, w ∈ row0 → (w <= next_max)%Qc.
Hypothesis fixed_point_below :
  (reward + discount_factor ai * next_max <= next_max)%Qc.

Let i : nat := Z.to_nat action.

Lemma ensure_state_idemp (s : State) (t : gmap State (list Qc)) :
  ensure_state s (ensure_state s t) = ensure_state s t.
Proof.
  destruct (ensure_state_lookup s t) as (row & Hrow & _).
  by rewrite (ensure_state_present s row).
Qed.

Lemma max_of_insert (v : Qc) :
  (v <= next_max)%Qc → max_of (<[i := v]> row0) next_max.
Proof.
  intros Hv. split.
  - apply (list_elem_of_lookup_2 _ j). by rewrite list_lookup_insert_ne.
  - intros w [k Hk]%list_elem_of_lookup.
    apply list_lookup_insert_Some in Hk as [(_ & <- & _)|[_ Hk]]; [done|].
    apply row0_below. by eapply list_elem_of_lookup_2.
Qed.

Lemma repeat_update_self (n : nat) :
  ∀ ai_n,
    repeat_update n ai state action reward state = Ok ai_n →
    table_wf (q_table ai_n)
    ∧ learning_rate ai_n = learning_rate ai
    ∧ discount_factor ai_n = discount_factor ai
    ∧ ∃ v, ensure_state state (q_table ai_n) !! state = Some (<[i := v]> row0)
           ∧ (v <= next_max)%Qc.
Proof.
  assert (length row0 = 3%nat) as Hlen0.
  { eapply (ensure_state_wf state), row0_there. exact table_ok. }
  induction n as [|n IH]; intros ai_n Hrun.
  { injection Hrun as <-. split_and!; try done.
    destruct (lookup_lt_is_Some_2 row0 i) as [q0 Hq0]; [unfold i; lia|].
    exists q0. rewrite list_insert_id by done. split; [done|].
    apply row0_below. by eapply list_elem_of_lookup_2. }
  change (repeat_update (S n) ai state action reward state)
    with (match repeat_update n ai state action reward state with
          | Ok ai' => q_update ai' state action reward state
          | Raise e => Raise e
          end) in Hrun.
  destruct (repeat_update n ai state action reward state) as [a|e] eqn:Hn;
    [|done].
  destruct (IH a eq_refl) as (Hwf & Hlr & Hdf & v & Hrow & Hv).
  destruct (q_update_spec a state action reward state Hwf action_ok)
    as (row & old_q & next_row & nm & Hrow' & Hq & Hnext & _ & Hmax & Hupd).
  cbv zeta in Hrow', Hnext, Hupd. fold i in Hq, Hupd.
  rewrite ensure_state_idemp in Hrow', Hnext, Hupd.
  rewrite Hrow in Hrow', Hnext. injection Hrow' as <-. injection Hnext as <-.
  pose proof (max_of_unique _ _ _ Hmax (max_of_insert v Hv)) as ->.
  rewrite list_lookup_insert_eq in Hq by (unfold i; lia). injection Hq as <-.
  rewrite Hupd in Hrun. injection Hrun as <-.
  cbn [q_table set_q_table learning_rate discount_factor].
  split_and!; [|done|done|].
  - apply table_wf_insert; [by rewrite !length_insert|].
    by apply ensure_state_wf.
  - eexists. split.
    + erewrite ensure_state_present; [|apply lookup_insert_eq].
      rewrite lookup_insert_eq, list_insert_insert_eq. reflexivity.
    + rewrite Hlr, Hdf.
      revert lr_pos lr_lt_1 fixed_point_below Hv. clear.
      generalize (learning_rate ai), (discount_factor ai).
      intros lr df. qc_to_q. intros. nra.
Qed.

(** When the row of the state holds its maximum at another action,
    and neither the value being updated nor the fixed point exceeds
    it, that maximum is the same before every one of the updates of
    the state as its own next state. *)
Lemma next_max_constant_self :
  ∀ n ai_n,
    repeat_update n ai state action reward state = Ok ai_n →
    ∃ next_row,
      ensure_state state (ensure_state state (q_table ai_n)) !! state
      = Some next_row
      ∧ max_of next_row next_max.
Proof.
  intros n ai_n Hrun.
  destruct (repeat_update_self n ai_n Hrun) as (_ & _ & _ & v & Hrow & Hv).
  exists (<[i := v]> row0). rewrite ensure_state_idemp.
  split; [done|by apply max_of_insert].
Qed.

End SelfTransition.

Lemma repeated_update_converges_witness :
  (∃ q0,
      (∀ n, ∃ ai_n,
          repeat_update (S n) SnakeAI_init sample_state 1 (Q2Qc 10)
                        sample_next_state = Ok ai_n
          ∧ q_value (q_table ai_n) sample_state 1
            = Some (bellman_iter (learning_rate SnakeAI_init)
                                 (discount_factor SnakeAI_init)
                                 (Q2Qc 10) (Q2Qc 0) (S n) q0))
      ∧ (∀ eps, (0 < eps)%Qc →
         ∃ N : nat, ∀ n, (N ≤ n)%nat →
           (- eps < bellman_iter (learning_rate SnakeAI_init)
                                 (discount_factor SnakeAI_init)
                                 (Q2Qc 10) (Q2Qc 0) n q0
                    - (Q2Qc 10 + discount_factor SnakeAI_init * Q2Qc 0))%Qc
           ∧ (bellman_iter (learning_rate SnakeAI_init)
                           (discount_factor SnakeAI_init)
                           (Q2Qc 10) (Q2Qc 0) n q0
              - (Q2Qc 10 + discount_factor SnakeAI_init * Q2Qc 0) < eps)%Qc))
  ∧ (∃ q0,
        (∀ n, ∃ ai_n,
            repeat_update (S n) one_state_ai sample_state 0 (Q2Qc 0)
                          sample_state = Ok ai_n
            ∧ q_value (q_table ai_n) sample_state 0
              = Some (bellman_iter (learning_rate one_state_ai)
                                   (discount_factor one_state_ai)
                                   (Q2Qc 0) (Q2Qc 5) (S n) q0))
        ∧ (∀ eps, (0 < eps)%Qc →
           ∃ N : nat, ∀ n, (N ≤ n)%nat →
             (- eps < bellman_iter (learning_rate one_state_ai)
                                   (discount_factor one_state_ai)
                                   (Q2Qc 0) (Q2Qc 5) n q0
                      - (Q2Qc 0 + discount_factor one_state_ai * Q2Qc 5))%Qc
             ∧ (bellman_iter (learning_rate one_state_ai)
                             (discount_factor one_state_ai)
                             (Q2Qc 0) (Q2Qc 5) n q0
                - (Q2Qc 0 + discount_factor one_state_ai * Q2Qc 5) < eps)%Qc)).
Proof.
  split.
  - destruct (repeated_update_converges SnakeAI_init sample_state
                sample_next_state 1 (Q2Qc 10) (Q2Qc 0))
      as (q0 & _ & Hrun & _ & _ & Hconv & _).
    + apply table_wf_empty.
    + lia.
    + apply (next_max_constant_distinct SnakeAI_init sample_state
               sample_next_state 1 (Q2Qc 10) table_wf_empty)
        with (next_row := [Q2Qc 0; Q2Qc 0; Q2Qc 0]).
      * lia.
      * discriminate.
      * reflexivity.
      * split; [by left|].
        intros w Hw.
        repeat (apply elem_of_cons in Hw as [->|Hw]; [done|]).
        by apply elem_of_nil in Hw.
    + reflexivity.
    + reflexivity.
    + exists q0. exact (conj Hrun Hconv).
  - assert (table_wf (q_table one_state_ai)) as Hwf
      by (apply table_wf_insert; [reflexivity|apply table_wf_empty]).
    destruct (repeated_update_converges one_state_ai sample_state
                sample_state 0 (Q2Qc 0) (Q2Qc 5))
      as (q0 & _ & Hrun & _ & _ & Hconv & _).
    + exact Hwf.
    + lia.
    + apply (next_max_constant_self one_state_ai sample_state 0 (Q2Qc 0)
               (Q2Qc 5) Hwf)
        with (row0 := [Q2Qc 0; Q2Qc 5; Q2Qc 0]) (j := 1%nat).
      * lia.
      * reflexivity.
      * reflexivity.
      * reflexivity.
      * discriminate.
      * reflexivity.
      * intros w Hw.
        repeat (apply elem_of_cons in Hw as [->|Hw]; [done|]).
        by apply elem_of_nil in Hw.
      * done.
    + reflexivity.
    + reflexivity.
    + exists q0. exact (conj Hrun Hconv).
Defined.

(** C5 as stated fails on the numbers the program computes with: with
    the parameters of a fresh agent, reward 10 and a next state valued
    0 the fixed point is 10, and the value that starts at 0 is more
    than 1e-14 short of it after 660 updates and after every later
    one. *)
Lemma float_updates_stall_short_of_fixed_point :
  PrimFloat.add 10 (PrimFloat.mul float_discount_factor 0) = 10%float
  ∧ PrimFloat.ltb 1e-14
      (PrimFloat.sub 10 (bellman_iter_float 10 0 660 0)) = true
  ∧ ∀ n, (660 ≤ n)%nat →
      bellman_iter_float 10 0 n 0 = bellman_iter_float 10 0 660 0.
Proof.
  split_and!; [vm_compute; reflexivity|vm_compute; reflexivity|].
  apply bellman_iter_float_stalls.
Qed.

(** ** The exploration rate: "Decay epsilon" *)

Section Epsilon.

Implicit Types (ai : SnakeAI) (n k : nat).

Lemma decay_epsilon_keeps ai :
  epsilon_min (decay_epsilon ai) = epsilon_min ai
  ∧ epsilon_decay (decay_epsilon ai) = epsilon_decay ai
  ∧ q_table (decay_epsilon ai) = q_table ai.
Proof. unfold decay_epsilon. by case_bool_decide. Qed.

Lemma decay_iter_keeps n ai :
  epsilon_min (Nat.iter n decay_epsilon ai) = epsilon_min ai
  ∧ epsilon_decay (Nat.iter n decay_epsilon ai) = epsilon_decay ai.
Proof.
  induction n as [|n [IH1 IH2]]; [done|]. simpl.
  destruct (decay_epsilon_keeps (Nat.iter n decay_epsilon ai)) as (-> & -> & _).
  done.
Qed.

Lemma epsilon_after_succ n ai :
  epsilon_after (S n) ai
  = if bool_decide (epsilon_min ai < epsilon_after n ai)%Qc
    then (epsilon_after n ai * epsilon_decay ai)%Qc
    else epsilon_after n ai.
Proof.
  unfold epsilon_after; simpl. unfold decay_epsilon at 1.
  destruct (decay_iter_keeps n ai) as [-> ->].
  by case_bool_decide.
Qed.

(** While the schedule stays above the floor, the code follows it. *)
Lemma epsilon_after_decaying ai n :
  (∀ j, (j < n)%nat → (epsilon_min ai < epsilon ai * epsilon_decay ai ^ j)%Qc) →
  epsilon_after n ai = (epsilon ai * epsilon_decay ai ^ n)%Qc.
Proof.
  induction n as [|n IH]; intros Habove.
  - unfold epsilon_after; simpl. ring.
  - rewrite epsilon_after_succ, IH by (intros; apply Habove; lia).
    rewrite bool_decide_eq_true_2 by (apply Habove; lia).
    simpl. ring.
Qed.

(** Once at or below the floor, epsilon no longer moves. *)
Lemma epsilon_after_stationary ai k n :
  (epsilon_after k ai <= epsilon_min ai)%Qc →
  epsilon_after (k + n) ai = epsilon_after k ai.
Proof.
  intros Hlow. induction n as [|n IH]; [by rewrite Nat.add_0_r|].
  rewrite Nat.add_succ_r, epsilon_after_succ, IH.
  by rewrite bool_decide_eq_false_2 by (by apply Qcle_not_lt).
Qed.

Lemma Qcpower_this (d : Qc) n : (this (d ^ n) == Qpow (this d) n)%Q.
Proof.
  induction n as [|n IH]; [done|].
  simpl. rewrite Qred_correct. by rewrite IH.
Qed.

Lemma Qcpower_antitone (d : Qc) n k :
  (0 <= d)%Qc → (d <= 1)%Qc → (n ≤ k)%nat → (d ^ k <= d ^ n)%Qc.
Proof.
  intros H0 H1. induction 1 as [|k _ IH]; [apply Qcle_refl|].
  eapply Qcle_trans; [|exact IH].
  pose proof (Qcpower_pos d k H0) as Hp. simpl.
  generalize dependent (d ^ k)%Qc; intros p _ Hp.
  qc_to_q. nra.
Qed.

Lemma Qcmult_this (a b : Qc) : (this (a * b) == this a * this b)%Q.
Proof. apply Qred_correct. Qed.

(** An agent whose schedule crosses the floor between the [k]-th and
    the [k+1]-st decay. *)
Section Crossing.

Variables (ai : SnakeAI) (k : nat).
Hypothesis start_nonneg : (0 <= epsilon ai)%Qc.
Hypothesis decay_nonneg : (0 <= epsilon_decay ai)%Qc.
Hypothesis decay_le_1 : (epsilon_decay ai <= 1)%Qc.
Hypothesis above :
  (epsilon_min ai < epsilon ai * epsilon_decay ai ^ k)%Qc.
Hypothesis below :
  (epsilon ai * epsilon_decay ai ^ S k < epsilon_min ai)%Qc.

Lemma schedule_above_floor n :
  (n ≤ k)%nat → (epsilon_min ai < epsilon ai * epsilon_decay ai ^ n)%Qc.
Proof.
  intros Hn. eapply Qclt_le_trans; [exact above|].
  rewrite !(Qcmult_comm (epsilon ai)).
  apply Qcmult_le_compat_r; [|exact start_nonneg].
  by apply Qcpower_antitone.
Qed.

Lemma epsilon_after_early n :
  (n ≤ S k)%nat →
  epsilon_after n ai = (epsilon ai * epsilon_decay ai ^ n)%Qc.
Proof.
  intros Hn. apply epsilon_after_decaying.
  intros j Hj. apply schedule_above_floor. lia.
Qed.

Lemma epsilon_after_late n :
  (S k ≤ n)%nat →
  epsilon_after n ai = (epsilon ai * epsilon_decay ai ^ S k)%Qc.
Proof.
  intros Hn. replace n with (S k + (n - S k))%nat by lia.
  rewrite epsilon_after_stationary; rewrite epsilon_after_early by lia.
  - reflexivity.
  - apply Qclt_le_weak, below.
Qed.

(** Up to the [k]-th episode the code and the stated schedule agree. *)
Lemma epsilon_follows_schedule n :
  (n ≤ k)%nat → epsilon_after n ai = epsilon_schedule ai n.
Proof.
  intros Hn. rewrite epsilon_after_early by lia.
  unfold epsilon_schedule, Qc_max.
  rewrite bool_decide_eq_true_2; [reflexivity|].
  by apply schedule_above_floor.
Qed.

(** From the [k+1]-st episode on epsilon stays below the floor,
    where the stated schedule is the floor itself. *)
Lemma epsilon_leaves_schedule :
  epsilon_after (S k) ai = (epsilon ai * epsilon_decay ai ^ S k)%Qc
  ∧ (epsilon_after (S k) ai < epsilon_min ai)%Qc
  ∧ epsilon_schedule ai (S k) = epsilon_min ai
  ∧ epsilon_after (S k) ai ≠ epsilon_schedule ai (S k)
  ∧ ∀ n, (S k ≤ n)%nat → epsilon_after n ai = epsilon_after (S k) ai.
Proof.
  assert (epsilon_schedule ai (S k) = epsilon_min ai) as Hsched.
  { unfold epsilon_schedule, Qc_max.
    rewrite bool_decide_eq_false_2; [reflexivity|].
    apply Qcle_not_lt, Qclt_le_weak, below. }
  rewrite Hsched, (epsilon_after_early (S k)) by lia.
  split_and!; [reflexivity|exact below|reflexivity| |].
  - apply Qclt_not_eq, below.
  - intros n Hn. by apply epsilon_after_late.
Qed.

End Crossing.

End Epsilon.


(** Powers of a fraction, bounded without computing them. *)
Section FixedPoint.

Lemma Qpow_add (x : Q) (n m : nat) : (Qpow x (n + m) == Qpow x n * Qpow x m)%Q.
Proof. induction n as [|n IH]; simpl; [ring|]. rewrite IH. ring. Qed.

Lemma Qpow_nonneg (x : Q) (n : nat) : (0 <= x)%Q → (0 <= Qpow x n)%Q.
Proof. intros Hx. induction n as [|n IH]; simpl; [done|]. by apply Qmult_le_0_compat. Qed.

Lemma Qpow_proper (x y : Q) (n : nat) : (x == y)%Q → (Qpow x n == Qpow y n)%Q.
Proof. intros E. induction n as [|n IH]; simpl; [done|]. by rewrite IH, E. Qed.

Lemma fx_mul_down_sound (a b : Z) (x y : Q) :
  0 ≤ a → 0 ≤ b → (a # fx_scale <= x)%Q → (b # fx_scale <= y)%Q →
  0 ≤ fx_mul_down a b ∧ (fx_mul_down a b # fx_scale <= x * y)%Q.
Proof.
  intros Ha Hb Hx Hy. unfold fx_mul_down.
  pose proof (Z.mul_div_le (a * b) (Z.pos fx_scale) ltac:(done)) as Hd.
  split; [apply Z.div_pos; [nia|done]|].
  apply Qle_trans with ((a # fx_scale) * (b # fx_scale))%Q.
  - unfold Qle, Qmult; simpl Qnum; simpl Qden.
    rewrite Pos2Z.inj_mul. nia.
  - assert (0 <= a # fx_scale)%Q by (unfold Qle; simpl; lia).
    assert (0 <= b # fx_scale)%Q by (unfold Qle; simpl; lia).
    nra.
Qed.

Lemma fx_mul_up_sound (a b : Z) (x y : Q) :
  (0 <= x)%Q → (0 <= y)%Q → (x <= a # fx_scale)%Q → (y <= b # fx_scale)%Q →
  (x * y <= fx_mul_up a b # fx_scale)%Q.
Proof.
  intros H0x H0y Hx Hy. unfold fx_mul_up.
  apply Qle_trans with ((a # fx_scale) * (b # fx_scale))%Q; [nra|].
  unfold Qle, Qmult; simpl Qnum; simpl Qden. rewrite Pos2Z.inj_mul.
  pose proof (Z.div_mod (a * b + Z.pos fx_scale - 1) (Z.pos fx_scale)
                ltac:(done)) as Hd.
  pose proof (Z.mod_pos_bound (a * b + Z.pos fx_scale - 1) (Z.pos fx_scale)
                ltac:(done)) as Hm.
  nia.
Qed.

Lemma fx_pow_down_sound (a : Z) (p : positive) :
  0 ≤ a →
  0 ≤ fx_pow_down a p
  ∧ (fx_pow_down a p # fx_scale <= Qpow (a # fx_scale) (Pos.to_nat p))%Q.
Proof.
  intros Ha. induction p as [p [IH0 IH]|p [IH0 IH]|].
  - rewrite Pos2Nat.inj_xI. cbn [fx_pow_down Qpow].
    replace (2 * Pos.to_nat p)%nat with (Pos.to_nat p + Pos.to_nat p)%nat by lia.
    rewrite Qpow_add.
    destruct (fx_mul_down_sound _ _ _ _ IH0 IH0 IH IH) as [H0 H1].
    apply fx_mul_down_sound; [done..|apply Qle_refl|done].
  - rewrite Pos2Nat.inj_xO. cbn [fx_pow_down].
    replace (2 * Pos.to_nat p)%nat with (Pos.to_nat p + Pos.to_nat p)%nat by lia.
    rewrite Qpow_add. by apply fx_mul_down_sound.
  - split; [done|]. simpl. rewrite Qmult_1_r. apply Qle_refl.
Qed.

Lemma fx_pow_up_sound (a : Z) (p : positive) :
  0 ≤ a →
  (Qpow (a # fx_scale) (Pos.to_nat p) <= fx_pow_up a p # fx_scale)%Q.
Proof.
  intros Ha.
  assert (0 <= a # fx_scale)%Q as Hx by (unfold Qle; simpl; lia).
  induction p as [p IH|p IH|].
  - rewrite Pos2Nat.inj_xI. cbn [fx_pow_up Qpow].
    replace (2 * Pos.to_nat p)%nat with (Pos.to_nat p + Pos.to_nat p)%nat by lia.
    rewrite Qpow_add.
    pose proof (Qpow_nonneg _ (Pos.to_nat p) Hx) as Hp.
    apply fx_mul_up_sound; [done|by apply Qmult_le_0_compat|apply Qle_refl|].
    by apply fx_mul_up_sound.
  - rewrite Pos2Nat.inj_xO. cbn [fx_pow_up].
    replace (2 * Pos.to_nat p)%nat with (Pos.to_nat p + Pos.to_nat p)%nat by lia.
    rewrite Qpow_add.
    pose proof (Qpow_nonneg _ (Pos.to_nat p) Hx) as Hp.
    by apply fx_mul_up_sound.
  - simpl. rewrite Qmult_1_r. apply Qle_refl.
Qed.

End FixedPoint.

(** A fresh agent has epsilon 1, decay 499/500 and floor 1/100: the
    2300th power of the decay is the last one above the floor. *)
Lemma fresh_schedule_above_at_2300 :
  (epsilon_min SnakeAI_init
   < epsilon SnakeAI_init * epsilon_decay SnakeAI_init ^ 2300)%Qc.
Proof.
  unfold Qclt. rewrite Qcmult_this, Qcpower_this.
  change (this (epsilon SnakeAI_init)) with 1%Q. rewrite Qmult_1_l.
  rewrite (Qpow_proper _ (998000000000 # fx_scale)) by done.
  eapply Qlt_le_trans; [|by apply (fx_pow_down_sound 998000000000 2300)].
  vm_compute. reflexivity.
Qed.

Lemma fresh_schedule_below_at_2301 :
  (epsilon SnakeAI_init * epsilon_decay SnakeAI_init ^ 2301
   < epsilon_min SnakeAI_init)%Qc.
Proof.
  unfold Qclt. rewrite Qcmult_this, Qcpower_this.
  change (this (epsilon SnakeAI_init)) with 1%Q. rewrite Qmult_1_l.
  rewrite (Qpow_proper _ (998000000000 # fx_scale)) by done.
  eapply Qle_lt_trans; [by apply (fx_pow_up_sound 998000000000 2301)|].
  vm_compute. reflexivity.
Qed.

(** C1, at the input where the code leaves the stated schedule: after
    2301 decays the epsilon of a fresh agent is 0.998^2301, which lies
    below epsilon_min, whereas max(epsilon_min, 1.0 * 0.998^2301) is
    epsilon_min. *)
Theorem epsilon_undershoots_floor :
  epsilon_after 2301 SnakeAI_init
  = (epsilon SnakeAI_init * epsilon_decay SnakeAI_init ^ 2301)%Qc
  ∧ (epsilon_after 2301 SnakeAI_init < epsilon_min SnakeAI_init)%Qc
  ∧ epsilon_schedule SnakeAI_init 2301 = epsilon_min SnakeAI_init
  ∧ epsilon_after 2301 SnakeAI_init ≠ epsilon_schedule SnakeAI_init 2301.
Proof.
  destruct (epsilon_leaves_schedule SnakeAI_init 2300)
    as (H1 & H2 & H3 & H4 & _).
  - discriminate.
  - discriminate.
  - discriminate.
  - exact fresh_schedule_above_at_2300.
  - exact fresh_schedule_below_at_2301.
  - exact (conj H1 (conj H2 (conj H3 H4))).
Qed.

(** The same holds for the binary64 numbers the program computes
    with: above the floor after 2300 decays, below it after 2301, and
    unchanged from then on (here: up to the default 5000 episodes). *)
Lemma float_epsilon_undershoots_floor :
  PrimFloat.ltb float_epsilon_min (epsilon_after_float 2300) = true
  ∧ PrimFloat.ltb (epsilon_after_float 2301) float_epsilon_min = true
  ∧ PrimFloat.eqb (epsilon_after_float 5000) (epsilon_after_float 2301) = true.
Proof. vm_compute. done. Qed.

(** From then on epsilon keeps that value. *)
Lemma fresh_epsilon_stays_low (n : nat) :
  (2301 ≤ n)%nat →
  epsilon_after n SnakeAI_init = epsilon_after 2301 SnakeAI_init.
Proof.
  destruct (epsilon_leaves_schedule SnakeAI_init 2300)
    as (_ & _ & _ & _ & H).
  - discriminate.
  - discriminate.
  - discriminate.
  - exact fresh_schedule_above_at_2300.
  - exact fresh_schedule_below_at_2301.
  - apply H.
Qed.

(** Before that, for the first 2300 episodes, the code follows the
    stated schedule. *)
Lemma fresh_epsilon_follows_schedule (n : nat) :
  (n ≤ 2300)%nat →
  epsilon_after n SnakeAI_init = epsilon_schedule SnakeAI_init n.
Proof.
  apply (epsilon_follows_schedule SnakeAI_init 2300).
  - discriminate.
  - discriminate.
  - discriminate.
  - exact fresh_schedule_above_at_2300.
Qed.

(** ** Runs of effectful code *)

Section Effects.

Context {A B : Type}.

Lemma bind_Ok (m : M A) (k : A → M B) (r r' : Random) (b : B) :
  (m ≫= k) r = Ok (b, r') → ∃ a r1, m r = Ok (a, r1) ∧ k a r1 = Ok (b, r').
Proof.
  unfold mbind, M_bind. destruct (m r) as [[a r1]|e]; [eauto|done].
Qed.

Lemma bind_run (m : M A) (k : A → M B) (r r1 : Random) (a : A) :
  m r = Ok (a, r1) → (m ≫= k) r = k a r1.
Proof. intros E. unfold mbind, M_bind. by rewrite E. Qed.

Lemma ret_Ok (a a' : A) (r r' : Random) :
  (mret a : M A) r = Ok (a', r') → a' = a ∧ r' = r.
Proof. by intros [= -> ->]. Qed.

Lemma lift_Ok (x : res A) (a : A) (r r' : Random) :
  lift x r = Ok (a, r') → x = Ok a ∧ r' = r.
Proof. unfold lift. destruct x; [by intros [= -> ->]|done]. Qed.

End Effects.

(** ** The training loop *)

Section Training.

Implicit Types (ai : SnakeAI) (ep : Episode) (tr : Transition)
  (trs : list Transition) (r : Random) (g : Game).

(** What one round of the loop is made of. *)
Lemma train_iteration_inv fuel ai ep r ai' ep' tr r' :
  train_iteration fuel ai ep r = Ok (ai', ep', tr, r') →
  ∃ ai1 g,
    play_tick fuel ai ep r
    = Ok (ai1, g, tr_old_state tr, tr_action tr, tr_new_state tr, r')
    ∧ tr_old_score tr = score (game ep)
    ∧ tr_new_score tr = score g
    ∧ tr_terminal tr = game_over g
    ∧ calculate_reward g (score (game ep)) (score g) (steps_without_fruit ep)
      = (tr_reward tr, steps_without_fruit ep', game ep')
    ∧ moves_made ep' = moves_made ep + 1
    ∧ q_update ai1 (tr_old_state tr) (tr_action tr) (tr_reward tr)
               (tr_new_state tr) = Ok ai'.
Proof.
  unfold train_iteration. intros H.
  apply bind_Ok in H as ([[[[ai1 g] old_state] action] new_state] & r1 & Hplay & H).
  destruct (calculate_reward g _ _ _) as [[reward steps] g'] eqn:Hrew.
  apply bind_Ok in H as (ai2 & r2 & Hupd & H).
  apply lift_Ok in Hupd as [Hupd ->].
  apply ret_Ok in H as [[= -> -> ->] ->].
  exists ai1, g. simpl. by rewrite Hrew.
Qed.

Lemma stall_snoc trs tr :
  stall (trs ++ [tr]) = if scored tr then O else S (stall trs).
Proof. unfold stall. by rewrite fold_left_app. Qed.

(** [stall] counts the transitions after the last one that scored. *)
Lemma stall_suffix trs :
  ∃ pre suf,
    trs = pre ++ suf
    ∧ length suf = stall trs
    ∧ Forall (λ tr, scored tr = false) suf
    ∧ (pre = [] ∨ ∃ pre' tr, pre = pre' ++ [tr] ∧ scored tr = true).
Proof.
  induction trs as [|tr trs (pre & suf & -> & Hlen & Hall & Hpre)] using rev_ind.
  - exists [], []. split_and!; [done|done|constructor|by left].
  - rewrite stall_snoc. destruct (scored tr) eqn:Hsc.
    + exists ((pre ++ suf) ++ [tr]), []. rewrite app_nil_r.
      split_and!; [done|done|constructor|]. right. by eexists _, _.
    + exists pre, (suf ++ [tr]). rewrite app_assoc, length_app, Hlen.
      split_and!; [done|simpl; lia| |done].
      apply Forall_app. split; [done|]. by constructor.
Qed.

Lemma episode_steps_nil fuel n ai ep r ai' ep' r' :
  episode_steps fuel n ai ep r = Ok (ai', ep', [], r') →
  ai' = ai ∧ ep' = ep ∧ r' = r.
Proof.
  destruct n as [|n]; simpl.
  - by intros [[= -> ->] ->]%ret_Ok.
  - destruct (game_over (game ep)).
    + by intros [[= -> ->] ->]%ret_Ok.
    + intros H.
      apply bind_Ok in H as ([[ai1 ep1] tr1] & r1 & _ & H).
      apply bind_Ok in H as ([[ai2 ep2] trs2] & r2 & _ & H).
      by apply ret_Ok in H as [[=] _].
Qed.

Lemma episode_steps_succ fuel n ai ep r ai1 ep1 tr1 r1 :
  game_over (game ep) = false →
  train_iteration fuel ai ep r = Ok (ai1, ep1, tr1, r1) →
  episode_steps fuel (S n) ai ep r
  = match episode_steps fuel n ai1 ep1 r1 with
    | Ok (ai2, ep2, trs, r2) => Ok (ai2, ep2, tr1 :: trs, r2)
    | Raise e => Raise e
    end.
Proof.
  intros Hgo Hit. simpl. rewrite Hgo.
  rewrite (bind_run _ _ _ _ _ Hit). unfold mbind, M_bind.
  by destruct (episode_steps fuel n ai1 ep1 r1) as [[[[ai2 ep2] trs] r2]|e].
Qed.

(** A run that ends with the transition [tr] is a run up to the
    round before, followed by the round that produced [tr]. *)
Lemma episode_steps_snoc fuel n ai ep r ai' ep' trs tr r' :
  episode_steps fuel n ai ep r = Ok (ai', ep', trs ++ [tr], r') →
  ∃ m ai0 ep0 r0,
    episode_steps fuel m ai ep r = Ok (ai0, ep0, trs, r0)
    ∧ game_over (game ep0) = false
    ∧ train_iteration fuel ai0 ep0 r0 = Ok (ai', ep', tr, r').
Proof.
  revert ai ep r trs. induction n as [|n IH]; intros ai ep r trs; simpl.
  - intros [[= _ _ Hnil] _]%ret_Ok. by destruct trs.
  - destruct (game_over (game ep)) eqn:Hgo.
    + intros [[= _ _ Hnil] _]%ret_Ok. by destruct trs.
    + intros H.
      apply bind_Ok in H as ([[ai1 ep1] tr1] & r1 & Hit & H).
      apply bind_Ok in H as ([[ai2 ep2] trs2] & r2 & Hrest & H).
      apply ret_Ok in H as [[= -> -> Htrs] ->].
      destruct trs as [|t trs]; simpl in Htrs.
      * injection Htrs as <- <-.
        apply episode_steps_nil in Hrest as (-> & -> & ->).
        by exists O, ai, ep, r.
      * injection Htrs as <- <-.
        destruct (IH _ _ _ _ Hrest) as (m & ai0 & ep0 & r0 & Hm & Hgo0 & Hlast).
        exists (S m), ai0, ep0, r0. split_and!; [|done..].
        by rewrite (episode_steps_succ _ _ _ _ _ _ _ _ _ Hgo Hit), Hm.
Qed.

(** A tick that ends the game leaves the score as it was. *)
Lemma Game_update_terminal_score fuel g r g' r' :
  Game_update fuel g r = Ok (g', r') → game_over g' = true → score g' = score g.
Proof.
  unfold Game_update. destruct (game_over g) eqn:Hgo.
  - by intros [-> _]%ret_Ok.
  - intros H Hover.
    apply bind_Ok in H as (sn & r1 & _ & H).
    apply bind_Ok in H as (hit & r2 & _ & H).
    destruct hit; [by apply ret_Ok in H as [-> _]|].
    simpl in H. destruct (body sn) as [|head rest]; [done|].
    case_bool_decide.
    + apply bind_Ok in H as (f1 & r3 & _ & H).
      apply bind_Ok in H as (f2 & r4 & _ & H).
      apply ret_Ok in H as [-> _]. simpl in Hover. congruence.
    + apply ret_Ok in H as [-> _]. simpl in Hover. congruence.
Qed.

Lemma apply_action_score g action : score (apply_action g action) = score g.
Proof. by rewrite (apply_action_only_heading g action). Qed.

Lemma play_tick_terminal_score fuel ai ep r ai1 g old_state action new_state r' :
  play_tick fuel ai ep r = Ok (ai1, g, old_state, action, new_state, r') →
  game_over g = true → score g = score (game ep).
Proof.
  unfold play_tick. intros H Hover.
  apply bind_Ok in H as (s0 & r1 & _ & H).
  apply bind_Ok in H as ([a ai2] & r2 & _ & H).
  apply bind_Ok in H as (g1 & r3 & Hupd & H).
  apply bind_Ok in H as (s1 & r4 & _ & H).
  apply ret_Ok in H as [[= -> -> -> -> ->] ->].
  rewrite (Game_update_terminal_score _ _ _ _ _ Hupd Hover).
  apply apply_action_score.
Qed.

(** While the game goes on, the counter is the number of ticks since
    the score last went up, and it is at most 100. *)
Lemma stall_counter fuel trs :
  ∀ n ai ep r ai' ep' r',
    episode_steps fuel n ai ep r = Ok (ai', ep', trs, r') →
    steps_without_fruit ep = 0 →
    game_over (game ep') = false →
    steps_without_fruit ep' = Z.of_nat (stall trs) ∧ (stall trs ≤ 100)%nat.
Proof.
  induction trs as [|tr trs IH] using rev_ind; intros n ai ep r ai' ep' r' H Hc Hgo.
  - apply episode_steps_nil in H as (_ & -> & _). split; [done|unfold stall; simpl; lia].
  - apply episode_steps_snoc in H as (m & ai0 & ep0 & r0 & Hm & Hgo0 & Hit).
    destruct (IH _ _ _ _ _ _ _ Hm Hc Hgo0) as [Hc0 Hle].
    apply train_iteration_inv in Hit
      as (ai1 & g & _ & Hold & Hnew & _ & Hrew & _ & _).
    rewrite stall_snoc. unfold scored. rewrite Hold, Hnew.
    unfold calculate_reward in Hrew.
    destruct (game_over g) eqn:Hover; [injection Hrew as _ _ Hg; congruence|].
    destruct (score (game ep0) <? score g).
    { injection Hrew as _ <- _. split; [done|lia]. }
    destruct (Z.ltb_spec 100 (steps_without_fruit ep0 + 1)).
    + injection Hrew as _ _ Hg. by rewrite <- Hg in Hgo.
    + injection Hrew as _ <- _. lia.
Qed.

(** C2, as the code has it: the counter of consecutive ticks without
    a score increase cuts the episode short exactly when it exceeds
    100, that is at the 101st such tick, collision or not, and the
    reward of that last transition is -10. Up to the 100th such tick
    the game goes on, with reward 0, unless the tick itself ended the
    game by a collision, which is rewarded with -10. A tick that
    raises the score puts the counter back to 0 and is rewarded with
    10. *)
Theorem stalled_episode_is_cut_short fuel n ai ep r ai' ep' trs r' :
  episode_steps fuel n ai ep r = Ok (ai', ep', trs, r') →
  steps_without_fruit ep = 0 →
  (game_over (game ep') = false →
   steps_without_fruit ep' = Z.of_nat (stall trs) ∧ (stall trs ≤ 100)%nat)
  ∧ (stall trs = 101%nat →
     game_over (game ep') = true
     ∧ tr_reward <$> last trs = Some (Q2Qc (-10)))
  ∧ (stall trs ≤ 101)%nat
  ∧ (∀ tr, last trs = Some tr → scored tr = true →
           steps_without_fruit ep' = 0
           ∧ tr_reward tr = Q2Qc 10
           ∧ game_over (game ep') = false)
  ∧ (∀ tr, last trs = Some tr → scored tr = false →
           tr_terminal tr = false → (stall trs ≤ 100)%nat →
           game_over (game ep') = false
           ∧ tr_reward tr = Q2Qc 0
           ∧ steps_without_fruit ep' = Z.of_nat (stall trs))
  ∧ (∀ tr, last trs = Some tr → tr_terminal tr = true →
           game_over (game ep') = true
           ∧ tr_reward tr = Q2Qc (-10)).
Proof.
  intros H Hc. split; [by eapply stall_counter|].
  destruct trs as [|tr trs _] using rev_ind.
  { split_and!; [done|unfold stall; simpl; lia|done|done|done]. }
  rewrite stall_snoc, last_snoc.
  apply episode_steps_snoc in H as (m & ai0 & ep0 & r0 & Hm & Hgo0 & Hit).
  destruct (stall_counter _ _ _ _ _ _ _ _ _ Hm Hc Hgo0) as [Hc0 Hle].
  apply train_iteration_inv in Hit
    as (ai1 & g & Hplay & Hold & Hnew & Hterm & Hrew & _ & _).
  unfold scored. rewrite Hold, Hnew.
  unfold calculate_reward in Hrew.
  split_and!; [| | | |].
  5: { intros tr' [= <-] Hover. rewrite Hterm in Hover. rewrite Hover in Hrew.
       by injection Hrew as <- _ <-. }
  4: { intros tr' [= <-] Hsc Hnot Hst. rewrite Hold, Hnew in Hsc.
       rewrite Hterm in Hnot. rewrite Hnot, Hsc in Hrew.
       rewrite Hsc in Hst |- *.
       destruct (Z.ltb_spec 100 (steps_without_fruit ep0 + 1)) as [Hgt|Hle'];
         [lia|].
       injection Hrew as <- <- <-. split_and!; [done|done|lia]. }
  - destruct (score (game ep0) <? score g); [done|]. intros [= Hst].
    rewrite Hc0, Hst in Hrew. simpl.
    destruct (game_over g) eqn:Hover; [by injection Hrew as <- _ <-|].
    simpl in Hrew. by injection Hrew as <- _ <-.
  - destruct (score (game ep0) <? score g); lia.
  - intros tr' [= <-] Hsc. rewrite Hold, Hnew in Hsc. rewrite Hsc in Hrew.
    destruct (game_over g) eqn:Hover.
    + pose proof (play_tick_terminal_score _ _ _ _ _ _ _ _ _ _ Hplay Hover).
      apply Z.ltb_lt in Hsc. lia.
    + by injection Hrew as <- <- <-.
Qed.

(** C2 as stated fails: a fresh agent on a fresh game, with a
    generator that makes it turn left at every tick, circles for 100
    ticks without a score increase and without a collision; the
    game is then not over and the reward of the 100th transition
    is 0. *)
Lemma hundred_stalled_ticks_not_terminal :
  episode_summary <$> value_of (episode_prefix 10 100 SnakeAI_init ones)
  = Some (100%nat, 100%nat, false, 100, Some (Q2Qc 0), Some false).
Proof. vm_compute. reflexivity. Qed.

(** One tick later the counter exceeds 100 and the episode is cut. *)
Example hundred_and_one_stalled_ticks_terminal :
  episode_summary <$> value_of (episode_prefix 10 101 SnakeAI_init ones)
  = Some (101%nat, 101%nat, true, 101, Some (Q2Qc (-10)), Some false).
Proof. vm_compute. reflexivity. Qed.

Lemma stalled_episode_is_cut_short_witness :
  ∃ ai' ep' trs r',
    episode_steps 10 101 SnakeAI_init
                  (mkEpisode (centred_game 800 600 20 (60, 60)) 0 0) ones
    = Ok (ai', ep', trs, r')
    ∧ (stall trs = 101%nat →
       game_over (game ep') = true
       ∧ tr_reward <$> last trs = Some (Q2Qc (-10)))
    ∧ (stall trs ≤ 101)%nat.
Proof.
  assert (succeeds (episode_steps 10 101 SnakeAI_init
                      (mkEpisode (centred_game 800 600 20 (60, 60)) 0 0) ones)
          = true) as Hok by (vm_compute; reflexivity).
  destruct (episode_steps 10 101 SnakeAI_init
              (mkEpisode (centred_game 800 600 20 (60, 60)) 0 0) ones)
    as [[[[ai' ep'] trs] r']|e] eqn:E; [|discriminate Hok].
  exists ai', ep', trs, r'. split; [reflexivity|].
  destruct (stalled_episode_is_cut_short _ _ _ _ _ _ _ _ _ E)
    as (_ & H1 & H2 & _); [reflexivity|].
  exact (conj H1 H2).
Defined.

Lemma episode_loop_inv fuel ai ep r ai' ep' trs r' :
  episode_loop fuel ai ep r = Ok (ai', ep', trs, r') →
  episode_steps fuel fuel ai ep r = Ok (ai', ep', trs, r')
  ∧ game_over (game ep') = true.
Proof.
  unfold episode_loop. intros H.
  apply bind_Ok in H as ([[ai2 ep2] trs2] & r2 & Hsteps & H).
  destruct (game_over (game ep2)) eqn:Hgo; [|done].
  by apply ret_Ok in H as [[= -> -> ->] ->].
Qed.

Lemma end_of_episode_q_table ai ep game_num :
  q_table (end_of_episode ai ep game_num) = q_table ai.
Proof.
  unfold end_of_episode.
  by destruct (decay_epsilon_keeps
                 (set_logger
                    (log_game_result (logger ai) (game_num + 1) (score (game ep))
                                     (size (q_table ai)) (epsilon ai)) ai))
    as (_ & _ & ->).
Qed.

(** An agent that no longer explores and knows nothing steers
    straight on: from the centre it reaches the right wall at the
    20th tick. *)
Example wall_collision_episode :
  episode_summary
  <$> value_of (episode_loop 30 (set_epsilon (Q2Qc 0) SnakeAI_init)
                  (mkEpisode (centred_game 800 600 20 (60, 60)) 0 0) ones)
  = Some (20%nat, 20%nat, true, 19, Some (Q2Qc (-10)), Some true).
Proof. vm_compute. reflexivity. Qed.

(** *** The shape of the table *)

(** Every action the policy returns is 0, 1 or 2, and the table keeps
    rows of three values. *)
Lemma get_action_wf ai (state : State) r action ai' r' :
  table_wf (q_table ai) →
  get_action ai state r = Ok (action, ai', r') →
  table_wf (q_table ai') ∧ 0 ≤ action < 3.
Proof.
  intros Hwf. unfold get_action. intros H.
  apply bind_Ok in H as (u & r1 & _ & H).
  case_bool_decide.
  - apply bind_Ok in H as (a & r2 & Hint & H).
    apply ret_Ok in H as [[= -> ->] _]. split; [done|].
    unfold random.randint, random.randrange in Hint. simpl in Hint.
    apply bind_Ok in Hint as (w & r3 & _ & Hint).
    apply ret_Ok in Hint as [-> _].
    change ((2 + 1 - 0 + 1 - 1) `div` 1) with 3.
    pose proof (Z.mod_pos_bound (Z.of_N w) 3 ltac:(lia)). lia.
  - apply bind_Ok in H as (row & r2 & [Hrow ->]%lift_Ok & H).
    apply bind_Ok in H as (a & r3 & [Harg ->]%lift_Ok & H).
    apply ret_Ok in H as [[= -> ->] _]. simpl in *.
    pose proof (ensure_state_wf state _ Hwf) as Hwf'. split; [done|].
    unfold dict_get in Hrow.
    destruct (ensure_state state (q_table ai) !! state) as [row'|] eqn:E; [|done].
    injection Hrow as ->. pose proof (Hwf' _ _ E) as Hlen.
    destruct (np_argmax_first_max row) as (i & Hi & v & Hv & _); [by destruct row|].
    rewrite Hi in Harg. injection Harg as <-.
    apply lookup_lt_Some in Hv. lia.
Qed.

Lemma q_update_wf ai (old_state new_state : State) action reward ai' :
  table_wf (q_table ai) →
  q_update ai old_state action reward new_state = Ok ai' →
  table_wf (q_table ai').
Proof.
  intros Hwf. unfold q_update.
  set (t := ensure_state new_state (ensure_state old_state (q_table ai))).
  assert (table_wf t) as Hwft by (by apply ensure_state_wf, ensure_state_wf).
  unfold dict_get. destruct (t !! old_state) as [row|] eqn:Hrow; [|done].
  intros H.
  repeat match type of H with
         | match ?x with _ => _ end = _ => destruct x; try discriminate H
         end.
  injection H as <-. simpl.
  apply table_wf_insert; [|done]. rewrite length_insert. by eapply Hwft.
Qed.

Lemma train_iteration_wf fuel ai ep r ai' ep' tr r' :
  table_wf (q_table ai) →
  train_iteration fuel ai ep r = Ok (ai', ep', tr, r') →
  table_wf (q_table ai') ∧ 0 ≤ tr_action tr < 3.
Proof.
  intros Hwf (ai1 & g & Hplay & _ & _ & _ & _ & _ & Hupd)%train_iteration_inv.
  unfold play_tick in Hplay.
  apply bind_Ok in Hplay as (s0 & r1 & _ & H).
  apply bind_Ok in H as ([a ai2] & r2 & Hact & H).
  apply bind_Ok in H as (g1 & r3 & _ & H).
  apply bind_Ok in H as (s1 & r4 & _ & H).
  apply ret_Ok in H as [[= -> _ _ <- _] _].
  destruct (get_action_wf _ _ _ _ _ _ Hwf Hact) as [Hwf1 Ha].
  split; [by eapply q_update_wf|done].
Qed.

Lemma episode_steps_wf fuel n ai ep r ai' ep' trs r' :
  table_wf (q_table ai) →
  episode_steps fuel n ai ep r = Ok (ai', ep', trs, r') →
  table_wf (q_table ai').
Proof.
  revert ai ep r trs ai' ep' r'.
  induction n as [|n IH]; intros ai ep r trs ai' ep' r' Hwf; simpl.
  - by intros [[= -> _ _] _]%ret_Ok.
  - destruct (game_over (game ep)).
    + by intros [[= -> _ _] _]%ret_Ok.
    + intros H.
      apply bind_Ok in H as ([[ai1 ep1] tr1] & r1 & Hit & H).
      apply bind_Ok in H as ([[ai2 ep2] trs2] & r2 & Hrest & H).
      apply ret_Ok in H as [[= -> _ _] _].
      apply (train_iteration_wf _ _ _ _ _ _ _ _ Hwf) in Hit as [Hwf1 _].
      by eapply IH.
Qed.

(** *** What training leaves alone *)

(** Choosing an action and learning from a transition change the
    table, never the learning parameters or the logger. *)
Lemma get_action_frame ai (state : State) r action ai' r' :
  get_action ai state r = Ok (action, ai', r') →
  ai' = set_q_table (q_table ai') ai.
Proof.
  unfold get_action. intros H.
  apply bind_Ok in H as (u & r1 & _ & H).
  case_bool_decide.
  - apply bind_Ok in H as (a & r2 & _ & H).
    apply ret_Ok in H as [[= -> ->] _]. by destruct ai.
  - apply bind_Ok in H as (row & r2 & _ & H).
    apply bind_Ok in H as (a & r3 & _ & H).
    by apply ret_Ok in H as [[= -> ->] _].
Qed.

Lemma q_update_frame ai (old_state new_state : State) action reward ai' :
  q_update ai old_state action reward new_state = Ok ai' →
  ai' = set_q_table (q_table ai') ai.
Proof.
  unfold q_update. intros H.
  repeat match type of H with
         | match ?x with _ => _ end = _ => destruct x; try discriminate H
         end.
  by injection H as <-.
Qed.

Lemma play_tick_frame fuel ai ep r ai1 g (old_state new_state : State) action r' :
  play_tick fuel ai ep r = Ok (ai1, g, old_state, action, new_state, r') →
  ai1 = set_q_table (q_table ai1) ai.
Proof.
  unfold play_tick. intros H.
  apply bind_Ok in H as (s0 & r1 & _ & H).
  apply bind_Ok in H as ([a ai2] & r2 & Hact & H).
  apply bind_Ok in H as (g1 & r3 & _ & H).
  apply bind_Ok in H as (s1 & r4 & _ & H).
  apply ret_Ok in H as [[= -> -> -> -> ->] ->].
  by eapply get_action_frame.
Qed.

Lemma train_iteration_frame fuel ai ep r ai' ep' tr r' :
  train_iteration fuel ai ep r = Ok (ai', ep', tr, r') →
  ai' = set_q_table (q_table ai') ai.
Proof.
  intros (ai1 & g & Hplay & _ & _ & _ & _ & _ & Hupd)%train_iteration_inv.
  apply play_tick_frame in Hplay. apply q_update_frame in Hupd.
  rewrite Hupd, Hplay. by destruct ai.
Qed.

Lemma episode_steps_frame fuel n ai ep r ai' ep' trs r' :
  episode_steps fuel n ai ep r = Ok (ai', ep', trs, r') →
  ai' = set_q_table (q_table ai') ai.
Proof.
  revert ai ep r trs ai' ep' r'.
  induction n as [|n IH]; intros ai ep r trs ai' ep' r'; simpl.
  - intros [[= -> _ _] _]%ret_Ok. by destruct ai.
  - destruct (game_over (game ep)).
    + intros [[= -> _ _] _]%ret_Ok. by destruct ai.
    + intros H.
      apply bind_Ok in H as ([[ai1 ep1] tr1] & r1 & Hit & H).
      apply bind_Ok in H as ([[ai2 ep2] trs2] & r2 & Hrest & H).
      apply ret_Ok in H as [[= -> _ _] _].
      apply train_iteration_frame in Hit. apply IH in Hrest.
      rewrite Hrest, Hit. by destruct ai.
Qed.

(** The table one round of the [for] loop returns is the table its
    [while] loop returned. *)
Lemma train_game_q_table fuel ai game_num r ai' r' :
  train_game fuel ai game_num r = Ok (ai', r') →
  ∃ g r1 ai1 ep1 trs,
    Game_init 800 600 false r = Ok (g, r1)
    ∧ episode_loop fuel ai (mkEpisode g 0 0) r1 = Ok (ai1, ep1, trs, r')
    ∧ q_table ai' = q_table ai1.
Proof.
  unfold train_game. intros H.
  apply bind_Ok in H as (g & r1 & Hinit & H).
  apply bind_Ok in H as ([[ai1 ep1] trs] & r2 & Hloop & H).
  apply ret_Ok in H as [-> ->].
  exists g, r1, ai1, ep1, trs. split_and!; [done..|].
  apply end_of_episode_q_table.
Qed.

(** One round of the [for] loop decays epsilon once. *)
Lemma train_game_schedule fuel ai game_num r ai' r' :
  train_game fuel ai game_num r = Ok (ai', r') →
  epsilon ai' = epsilon (decay_epsilon ai)
  ∧ epsilon_min ai' = epsilon_min ai
  ∧ epsilon_decay ai' = epsilon_decay ai.
Proof.
  unfold train_game. intros H.
  apply bind_Ok in H as (g & r1 & _ & H).
  apply bind_Ok in H as ([[ai1 ep1] trs] & r2 & Hloop & H).
  apply ret_Ok in H as [-> _].
  apply episode_loop_inv in Hloop as [Hsteps _].
  apply episode_steps_frame in Hsteps. rewrite Hsteps.
  unfold end_of_episode, decay_epsilon; simpl.
  by case_bool_decide.
Qed.

(** Epsilon after [n] decays depends on the schedule fields only. *)
Lemma epsilon_after_proper n ai1 ai2 :
  epsilon ai1 = epsilon ai2 → epsilon_min ai1 = epsilon_min ai2 →
  epsilon_decay ai1 = epsilon_decay ai2 →
  epsilon_after n ai1 = epsilon_after n ai2.
Proof.
  intros He Hm Hd. induction n as [|n IH]; [done|].
  by rewrite !epsilon_after_succ, IH, Hm, Hd.
Qed.

Lemma epsilon_after_decayed n ai :
  epsilon_after n (decay_epsilon ai) = epsilon_after (S n) ai.
Proof. unfold epsilon_after. by rewrite Nat.iter_succ_r. Qed.

Lemma train_games_schedule fuel game_nums :
  ∀ ai r ai' r',
    train_games fuel ai game_nums r = Ok (ai', r') →
    epsilon ai' = epsilon_after (length game_nums) ai
    ∧ epsilon_min ai' = epsilon_min ai
    ∧ epsilon_decay ai' = epsilon_decay ai.
Proof.
  induction game_nums as [|game_num rest IH]; intros ai r ai' r'; simpl.
  - by intros [-> _]%ret_Ok.
  - intros H. apply bind_Ok in H as (ai1 & r1 & Hgame & H).
    apply train_game_schedule in Hgame as (He & Hm & Hd).
    apply IH in H as (He' & Hm' & Hd').
    rewrite Hm', Hd', Hm, Hd. split; [|done].
    rewrite He', <- epsilon_after_decayed.
    destruct (decay_epsilon_keeps ai) as (Hm0 & Hd0 & _).
    apply epsilon_after_proper; congruence.
Qed.

(** Training for [num_games] episodes leaves epsilon where that many
    decays put it. *)
Lemma train_epsilon fuel ai num_games r ai' r' :
  train fuel ai num_games r = Ok (ai', r') →
  epsilon ai' = epsilon_after (Z.to_nat num_games) ai.
Proof.
  unfold train. intros H.
  apply train_games_schedule in H as (He & _ & _).
  rewrite length_seqZ in He. rewrite He.
  by apply epsilon_after_proper.
Qed.

(** Three episodes of a fresh agent: training returns, and epsilon is
    0.998^3. *)
Example train_three_games :
  epsilon <$> value_of (train 200 SnakeAI_init 3 ones)
  = Some (Q2Qc (998 # 1000) ^ 3)%Qc.
Proof. vm_compute. reflexivity. Qed.

End Training.

(** ** Where the fruit is put *)

Section FruitPlacement.

Implicit Types (g : Game) (f : Fruit) (sn : Snake) (r : Random).

(** The loop of [Game.update] only ends off the snake. *)
Lemma respawn_off_snake_spec fuel sn f r f' r' :
  respawn_off_snake fuel sn f r = Ok (f', r') → position f' ∉ body sn.
Proof.
  revert f r. induction fuel as [|fuel IH]; intros f r; simpl.
  - case_bool_decide; [done|]. by intros [-> _]%ret_Ok.
  - case_bool_decide; [|by intros [-> _]%ret_Ok].
    intros Hrun. apply bind_Ok in Hrun as (f1 & r1 & _ & Hrun). by eapply IH.
Qed.

Lemma removelast_subseteq {A} (l : list A) : removelast l ⊆ l.
Proof.
  induction l as [|x l IH]; [done|]. simpl.
  destruct l as [|y l]; [by intros z Hz; apply elem_of_nil in Hz|].
  intros z [->|Hz]%elem_of_cons; [by left|]. right. by apply IH.
Qed.

(** After a move the cells behind the head were cells of the snake
    before. *)
Lemma Snake_move_body sn sn' :
  Snake_move sn = Ok sn' →
  ∃ new_head rest, body sn' = new_head :: rest ∧ rest ⊆ body sn.
Proof.
  unfold Snake_move. destruct (body sn) as [|current_head l] eqn:Hb; [done|].
  destruct (Direction_value (direction sn)) as [dx dy].
  destruct (growth_pending sn); simpl.
  - intros [= <-]. simpl. by eexists _, _.
  - intros [= <-]. simpl. eexists _, _. split; [done|].
    apply (removelast_subseteq (current_head :: l)).
Qed.

(** A tick that eats the fruit puts the next one off the snake. *)
Lemma Game_update_eaten_off_snake fuel g r g' r' :
  Game_update fuel g r = Ok (g', r') →
  score g' ≠ score g → fruit_off_snake g'.
Proof.
  unfold Game_update, fruit_off_snake. destruct (game_over g).
  { by intros [-> _]%ret_Ok. }
  intros H Hsc.
  apply bind_Ok in H as (sn & r1 & _ & H).
  apply bind_Ok in H as (hit & r2 & _ & H).
  destruct hit; [by apply ret_Ok in H as [-> _]|].
  simpl in H. destruct (body sn) as [|head rest] eqn:Hb; [done|].
  case_bool_decide; [|by apply ret_Ok in H as [-> _]].
  apply bind_Ok in H as (f1 & r3 & _ & H).
  apply bind_Ok in H as (f2 & r4 & Hloop & H).
  apply ret_Ok in H as [-> _]. simpl.
  by apply respawn_off_snake_spec in Hloop.
Qed.

(** A tick keeps the fruit off the snake as long as the game goes on. *)
Lemma Game_update_keeps_off_snake fuel g r g' r' :
  Game_update fuel g r = Ok (g', r') →
  fruit_off_snake g → game_over g' = false → fruit_off_snake g'.
Proof.
  intros H Hoff Hgo'.
  destruct (decide (score g' = score g)) as [Hsc|Hsc];
    [|by eapply Game_update_eaten_off_snake].
  revert H. unfold Game_update, fruit_off_snake in *. destruct (game_over g).
  { by intros [-> _]%ret_Ok. }
  intros H.
  apply bind_Ok in H as (sn & r1 & [Hmove ->]%lift_Ok & H).
  apply bind_Ok in H as (hit & r2 & _ & H).
  destruct hit; [apply ret_Ok in H as [-> _]; done|].
  simpl in H.
  destruct (Snake_move_body _ _ Hmove) as (new_head & rest & Hb & Hsub).
  rewrite Hb in H.
  case_bool_decide as Hhead.
  - apply bind_Ok in H as (f1 & r3 & _ & H).
    apply bind_Ok in H as (f2 & r4 & Hloop & H).
    apply ret_Ok in H as [-> _]. simpl.
    by apply respawn_off_snake_spec in Hloop.
  - apply ret_Ok in H as [-> _]. simpl. rewrite Hb.
    intros [Heq|Hin]%elem_of_cons; [by apply Hhead|]. by apply Hoff, Hsub.
Qed.

(** C3, at the input where the code breaks it: [Game.__init__] and
    [Game.reset] place the fruit with a single [respawn()] and never
    look at the snake. With draws that select column 18 and row 13
    of the fruit area, the fruit of a new 800 by 600 game lies on
    (400, 300), the cell of the snake's head, and a reset puts it
    there again. *)
Theorem fruit_spawns_on_snake :
  ∃ g r1 g' r2,
    Game_init 800 600 false centre_draws = Ok (g, r1)
    ∧ position (fruit g) = (400, 300)
    ∧ body (snake g) = [(400, 300)]
    ∧ ¬ fruit_off_snake g
    ∧ Game_reset g r1 = Ok (g', r2)
    ∧ position (fruit g') = (400, 300)
    ∧ body (snake g') = [(400, 300)]
    ∧ ¬ fruit_off_snake g'.
Proof.
  eexists _, _, _, _.
  split; [vm_compute; reflexivity|]. do 2 (split; [reflexivity|]).
  split; [intros H; apply H; vm_compute; constructor|].
  split; [vm_compute; reflexivity|]. do 2 (split; [reflexivity|]).
  intros H; apply H; vm_compute; constructor.
Qed.

End FruitPlacement.

(** ** Ticks that return *)

(** With a snake of at least one segment and rows of three values, a
    round of the training loop returns whenever it does not eat the
    fruit; only the redrawing of an eaten fruit can go on for ever. *)
Section Progress.

Implicit Types (g : Game) (ai : SnakeAI) (ep : Episode) (r : Random).

Lemma get_state_returns g :
  body (snake g) ≠ [] → ∃ s : State, get_state g = Ok s.
Proof.
  intros Hb. unfold get_state. destruct (body (snake g)) as [|h rest]; [done|].
  destruct (fold_left _ rest _) as [[ds dl] dr]. by eexists.
Qed.

Lemma get_action_returns ai (state : State) r :
  table_wf (q_table ai) →
  ∃ action ai' r', get_action ai state r = Ok (action, ai', r').
Proof.
  intros Hwf. unfold get_action.
  destruct (random_random_nonneg r) as (u & Hu & _).
  rewrite (bind_run _ _ _ _ _ Hu).
  case_bool_decide; [by eexists _, _, _|].
  destruct (ensure_state_lookup state (q_table ai)) as (row & Hrow & _).
  pose proof (ensure_state_wf state _ Hwf _ _ Hrow) as Hlen.
  destruct (np_argmax_first_max row) as (i & Hi & _); [by destruct row|].
  unfold mbind, M_bind, lift, dict_get; simpl. rewrite Hrow, Hi.
  by eexists _, _, _.
Qed.

Lemma Snake_move_returns (sn : Snake) :
  body sn ≠ [] → ∃ sn', Snake_move sn = Ok sn'.
Proof.
  intros Hb. unfold Snake_move. destruct (body sn) as [|h rest]; [done|].
  destruct (Direction_value (direction sn)) as [dx dy].
  destruct (growth_pending sn); simpl; by eexists.
Qed.

Lemma Game_update_returns fuel g r :
  body (snake g) ≠ [] → ¬ lands_on_fruit g →
  ∃ g', Game_update fuel g r = Ok (g', r) ∧ body (snake g') ≠ [].
Proof.
  intros Hb Hno. unfold Game_update. destruct (game_over g); [by exists g|].
  destruct (Snake_move_returns _ Hb) as [sn Hmove].
  destruct (Snake_move_body _ _ Hmove) as (new_head & rest & Hbody & _).
  unfold lands_on_fruit in Hno. rewrite Hmove, Hbody in Hno.
  unfold mbind, M_bind, lift. rewrite Hmove. simpl.
  destruct (Snake_check_collision sn (width g) (height g)) as [hit|e] eqn:Hhit.
  - destruct hit.
    + eexists. split; [done|]. simpl. by rewrite Hbody.
    + rewrite Hbody. case_bool_decide as Hhead; [by destruct Hno|].
      eexists. split; [done|]. simpl. by rewrite Hbody.
  - unfold Snake_check_collision in Hhit. rewrite Hbody in Hhit.
    by repeat case_match.
Qed.

Lemma train_iteration_returns fuel ai ep r :
  table_wf (q_table ai) →
  body (snake (game ep)) ≠ [] →
  (∀ action, ¬ lands_on_fruit (apply_action (game ep) action)) →
  ∃ ai' ep' tr r',
    train_iteration fuel ai ep r = Ok (ai', ep', tr, r')
    ∧ table_wf (q_table ai')
    ∧ body (snake (game ep')) ≠ [].
Proof.
  intros Hwf Hb Hno.
  destruct (get_state_returns _ Hb) as [old_state Hold].
  destruct (get_action_returns ai old_state r Hwf) as (action & ai1 & r1 & Hact).
  destruct (get_action_wf _ _ _ _ _ _ Hwf Hact) as [Hwf1 Ha].
  assert (body (snake (apply_action (game ep) action)) ≠ []) as Hb1.
  { by rewrite (apply_action_only_heading (game ep) action). }
  destruct (Game_update_returns fuel _ r1 Hb1 (Hno action)) as (g & Hupd & Hb2).
  destruct (get_state_returns _ Hb2) as [new_state Hnew].
  assert (play_tick fuel ai ep r
          = Ok (ai1, g, old_state, action, new_state, r1)) as Hplay.
  { unfold play_tick, mbind, M_bind, lift. rewrite Hold, Hact, Hupd, Hnew. done. }
  destruct (calculate_reward g (score (game ep)) (score g)
              (steps_without_fruit ep)) as [[reward steps] g'] eqn:Hrew.
  destruct (q_update_spec ai1 old_state action reward new_state Hwf1 Ha)
    as (row & old_q & next_row & next_max & _ & _ & _ & _ & _ & Hq).
  eexists _, _, _, _. split_and!.
  - unfold train_iteration. rewrite (bind_run _ _ _ _ _ Hplay). simpl.
    rewrite Hrew. unfold mbind, M_bind, lift. rewrite Hq. done.
  - eapply q_update_wf; [exact Hwf1|exact Hq].
  - simpl. unfold calculate_reward in Hrew.
    repeat case_match; by simplify_eq.
Qed.

End Progress.

(** * More properties of the code *)

(** ** Drawing numbers and placing the fruit *)

Section Draws.

Implicit Types (r : Random) (f : Fruit).

Lemma randrange_inv (start stop step v : Z) r r' :
  0 < step →
  random.randrange start stop step r = Ok (v, r') →
  start ≤ v < stop
  ∧ (v - start) `mod` step = 0
  ∧ r' = mkRandom (entropy r) (S (cursor r)).
Proof.
  intros Hstep. unfold random.randrange.
  destruct (Z.eqb_spec step 0) as [E0|_]; [lia|].
  destruct (Z.ltb_spec 0 step) as [_|E1]; [|lia].
  set (cnt := (stop - start + step - 1) `div` step).
  destruct (Z.leb_spec cnt 0) as [E2|Hcnt]; [done|].
  intros H. apply bind_Ok in H as (w & r1 & [= <- <-] & H).
  apply ret_Ok in H as [-> ->].
  pose proof (Z.mod_pos_bound (Z.of_N (entropy r (cursor r))) cnt ltac:(lia))
    as Hk.
  set (k := Z.of_N (entropy r (cursor r)) `mod` cnt) in *.
  pose proof (Z.mul_div_le (stop - start + step - 1) step Hstep) as Hn.
  fold cnt in Hn. split_and!; [nia|nia| |done].
  replace (start + step * k - start) with (k * step) by lia.
  apply Z_mod_mult.
Qed.

Lemma randrange_returns (start stop step : Z) r :
  0 < step → start < stop →
  ∃ v, random.randrange start stop step r
       = Ok (v, mkRandom (entropy r) (S (cursor r))).
Proof.
  intros Hstep Hlt. unfold random.randrange.
  destruct (Z.eqb_spec step 0) as [E0|_]; [lia|].
  destruct (Z.ltb_spec 0 step) as [_|E1]; [|lia].
  destruct (Z.leb_spec ((stop - start + step - 1) `div` step) 0) as [Hn|Hn].
  - exfalso. assert (step ≤ stop - start + step - 1) as Hle by lia.
    apply (Z.div_le_mono _ _ step) in Hle; [|lia].
    rewrite Z_div_same_full in Hle by lia. lia.
  - by eexists.
Qed.

Lemma randrange_raises (start stop step : Z) r :
  0 < step → stop ≤ start →
  random.randrange start stop step r = Raise ValueError.
Proof.
  intros Hstep Hle. unfold random.randrange.
  destruct (Z.eqb_spec step 0) as [E0|_]; [lia|].
  destruct (Z.ltb_spec 0 step) as [_|E1]; [|lia].
  destruct (Z.leb_spec ((stop - start + step - 1) `div` step) 0) as [Hn|Hn];
    [done|].
  exfalso. assert ((stop - start + step - 1) `div` step < 1); [|lia].
  apply Z.div_lt_upper_bound; lia.
Qed.

Lemma choice_inv {A} (seq : list A) r (x : A) r' :
  random.choice seq r = Ok (x, r') →
  x ∈ seq ∧ r' = mkRandom (entropy r) (S (cursor r)).
Proof.
  unfold random.choice. destruct seq as [|a seq]; [done|].
  intros H. apply bind_Ok in H as (w & r1 & [= <- <-] & H).
  destruct (_ !! _) as [y|] eqn:E; [|done].
  apply ret_Ok in H as [-> ->]. split; [|done].
  by eapply list_elem_of_lookup_2.
Qed.

Lemma choice_returns {A} (seq : list A) r :
  seq ≠ [] →
  ∃ x, random.choice seq r = Ok (x, mkRandom (entropy r) (S (cursor r))).
Proof.
  intros Hne. unfold random.choice. destruct seq as [|a seq]; [done|].
  unfold mbind, M_bind, random.next_word.
  destruct (lookup_lt_is_Some_2 (a :: seq)
              (N.to_nat (entropy r (cursor r)) `mod` length (a :: seq))%nat)
    as [y Hy].
  { apply Nat.mod_upper_bound. simpl. lia. }
  rewrite Hy. by eexists.
Qed.

(** What one [respawn()] leaves: a fruit inside its area, with
    everything but position and colour as before, three words later. *)
Lemma Fruit_respawn_inv f r f' r' :
  0 < fruit_block_size f →
  Fruit_respawn f r = Ok (f', r') →
  fruit_in_area f'
  ∧ fruit_block_size f' = fruit_block_size f
  ∧ fruit_width f' = fruit_width f
  ∧ fruit_height f' = fruit_height f
  ∧ colors f' = colors f
  ∧ points f' = points f
  ∧ r' = mkRandom (entropy r) (cursor r + 3).
Proof.
  intros Hbs. unfold Fruit_respawn. intros H.
  apply bind_Ok in H as (x & r1 & Hx & H).
  apply bind_Ok in H as (y & r2 & Hy & H).
  apply bind_Ok in H as (c & r3 & Hc & H).
  apply ret_Ok in H as [-> ->].
  apply randrange_inv in Hx as (Hx1 & Hx2 & ->); [|done].
  apply randrange_inv in Hy as (Hy1 & Hy2 & ->); [|done].
  apply choice_inv in Hc as (_ & ->).
  unfold fruit_in_area; simpl.
  replace (fruit_block_size f * 2) with (2 * fruit_block_size f) in * by lia.
  split_and!; try done; try lia. f_equal. lia.
Qed.

End Draws.

(** ** One tick of the game, case by case *)

Section Ticks.

Implicit Types (g : Game) (sn : Snake) (f : Fruit) (r : Random).

Lemma Fruit_respawn_frame f r f' r' :
  Fruit_respawn f r = Ok (f', r') →
  ∃ p c, f' = set_color c (set_position p f).
Proof.
  unfold Fruit_respawn. intros H.
  apply bind_Ok in H as (x & r1 & _ & H).
  apply bind_Ok in H as (y & r2 & _ & H).
  apply bind_Ok in H as (c & r3 & _ & H).
  apply ret_Ok in H as [-> _]. by eexists _, _.
Qed.

(** Whatever every [respawn()] keeps, the loop that redraws the fruit
    keeps. *)
Lemma respawn_off_snake_keeps (P : Fruit → Prop) fuel sn :
  (∀ f r f' r', P f → Fruit_respawn f r = Ok (f', r') → P f') →
  ∀ f r f' r', P f → respawn_off_snake fuel sn f r = Ok (f', r') → P f'.
Proof.
  intros Hstep. induction fuel as [|fuel IH]; intros f r f' r' HP; simpl.
  - case_bool_decide; [done|]. by intros [-> _]%ret_Ok.
  - case_bool_decide; [|by intros [-> _]%ret_Ok].
    intros Hrun. apply bind_Ok in Hrun as (f1 & r1 & Hf1 & Hrun).
    eapply IH; [|exact Hrun]. by eapply Hstep.
Qed.

Lemma removelast_length {A} (x : A) (l : list A) :
  length (removelast (x :: l)) = length l.
Proof.
  revert x. induction l as [|y l IH]; intros x; [done|].
  change (removelast (x :: y :: l)) with (x :: removelast (y :: l)).
  change (length (x :: removelast (y :: l)))
    with (S (length (removelast (y :: l)))).
  by rewrite IH.
Qed.

(** [Snake.move], spelled out. *)
Lemma Snake_move_inv sn sn' :
  Snake_move sn = Ok sn' →
  ∃ head rest,
    body sn = head :: rest
    ∧ body sn'
      = (head.1 + (Direction_value (direction sn)).1 * snake_block_size sn,
         head.2 + (Direction_value (direction sn)).2 * snake_block_size sn)
        :: (if growth_pending sn then head :: rest
            else removelast (head :: rest))
    ∧ growth_pending sn' = false
    ∧ direction sn' = direction sn
    ∧ snake_block_size sn' = snake_block_size sn.
Proof.
  unfold Snake_move. destruct (body sn) as [|head rest] eqn:Hb; [done|].
  destruct (Direction_value (direction sn)) as [dx dy].
  destruct (growth_pending sn) eqn:Hgp; simpl.
  - intros [= <-]. by exists head, rest.
  - intros [= <-]. by exists head, rest.
Qed.

(** [Snake.check_collision], spelled out. *)
Lemma Snake_check_collision_inv sn (w h : Z) (hit : bool) head rest :
  body sn = head :: rest →
  Snake_check_collision sn w h = Ok hit →
  (hit = true ↔ ¬ (0 ≤ head.1 < w ∧ 0 ≤ head.2 < h) ∨ head ∈ rest).
Proof.
  intros Hb. unfold Snake_check_collision. rewrite Hb.
  destruct (Z.ltb_spec head.1 0), (Z.leb_spec w head.1),
    (Z.ltb_spec head.2 0), (Z.leb_spec h head.2); simpl;
    try (intros [= <-]; split; [intros _; left; lia|done]).
  case_bool_decide as Hin; intros [= <-].
  - split; [by right|done].
  - split; [done|]. intros [Hout|?]; [|done]. exfalso. apply Hout. lia.
Qed.

(** [Game.update], case by case: the game was over; or the snake moved
    and collided; or it moved to a free cell; or it moved onto the
    fruit, grew, scored and got a new fruit. *)
Lemma Game_update_cases fuel g r g' r' :
  Game_update fuel g r = Ok (g', r') →
  (game_over g = true ∧ g' = g ∧ r' = r)
  ∨ (game_over g = false
     ∧ ∃ sn new_head rest,
         Snake_move (snake g) = Ok sn
         ∧ body sn = new_head :: rest
         ∧ ((Snake_check_collision sn (width g) (height g) = Ok true
             ∧ g' = set_game_over true (set_snake sn g) ∧ r' = r)
            ∨ (Snake_check_collision sn (width g) (height g) = Ok false
               ∧ new_head ≠ position (fruit g)
               ∧ g' = set_snake sn g ∧ r' = r)
            ∨ (Snake_check_collision sn (width g) (height g) = Ok false
               ∧ new_head = position (fruit g)
               ∧ ∃ f1 r1 f2,
                   Fruit_respawn (fruit g) r = Ok (f1, r1)
                   ∧ respawn_off_snake fuel (Snake_grow sn) f1 r1 = Ok (f2, r')
                   ∧ g' = set_fruit f2
                            (set_speed
                               (Z.min 20 (10 + (score g + points (fruit g)) / 10))
                               (set_score (score g + points (fruit g))
                                  (set_snake (Snake_grow sn) g)))))).
Proof.
  unfold Game_update. destruct (game_over g) eqn:Hgo.
  { intros [-> ->]%ret_Ok. by left. }
  intros H. right. split; [done|].
  apply bind_Ok in H as (sn & r1 & [Hmove ->]%lift_Ok & H).
  apply bind_Ok in H as (hit & r2 & [Hhit ->]%lift_Ok & H).
  simpl in Hhit.
  destruct (Snake_move_inv _ _ Hmove) as (head & rest & _ & Hb & _).
  eexists sn, _, _. split; [done|]. split; [exact Hb|].
  destruct hit.
  - apply ret_Ok in H as [-> ->]. by left.
  - simpl in H. rewrite Hb in H. case_bool_decide as Hhead.
    + right; right. split; [done|]. split; [done|].
      apply bind_Ok in H as (f1 & r3 & Hf1 & H).
      apply bind_Ok in H as (f2 & r4 & Hf2 & H).
      apply ret_Ok in H as [-> ->]. by exists f1, r3, f2.
    + apply ret_Ok in H as [-> ->]. right; left. done.
Qed.

End Ticks.

(** ** What every tick of the game keeps *)

Section GameInvariants.

Implicit Types (g : Game) (sn : Snake) (f : Fruit) (r : Random).

Lemma NoDup_removelast {A} (l : list A) : NoDup l → NoDup (removelast l).
Proof.
  induction l as [|x l IH]; [done|]. intros [Hx Hl]%NoDup_cons.
  destruct l as [|y l]; [constructor|].
  change (removelast (x :: y :: l)) with (x :: removelast (y :: l)).
  apply NoDup_cons. split; [|by apply IH].
  intros Hin. apply Hx. by apply (removelast_subseteq (y :: l)).
Qed.

Lemma Fruit_respawn_dims f r f' r' :
  Fruit_respawn f r = Ok (f', r') →
  fruit_block_size f' = fruit_block_size f
  ∧ fruit_width f' = fruit_width f
  ∧ fruit_height f' = fruit_height f
  ∧ points f' = points f.
Proof. by intros (p & c & ->)%Fruit_respawn_frame. Qed.

Lemma respawn_off_snake_dims fuel sn f r f' r' :
  respawn_off_snake fuel sn f r = Ok (f', r') →
  fruit_block_size f' = fruit_block_size f
  ∧ fruit_width f' = fruit_width f
  ∧ fruit_height f' = fruit_height f
  ∧ points f' = points f.
Proof.
  apply (respawn_off_snake_keeps
           (λ f', fruit_block_size f' = fruit_block_size f
                  ∧ fruit_width f' = fruit_width f
                  ∧ fruit_height f' = fruit_height f
                  ∧ points f' = points f)); [|done].
  intros f1 r1 f2 r2 (?&?&?&?) (?&?&?&?)%Fruit_respawn_dims.
  split_and!; congruence.
Qed.

Lemma respawn_off_snake_in_area fuel sn f r f' r' :
  0 < fruit_block_size f → fruit_in_area f →
  respawn_off_snake fuel sn f r = Ok (f', r') →
  fruit_in_area f'.
Proof.
  intros Hbs Harea H.
  enough (0 < fruit_block_size f' ∧ fruit_in_area f') as [_ ?]; [done|].
  revert H.
  apply (respawn_off_snake_keeps
           (λ f', 0 < fruit_block_size f' ∧ fruit_in_area f')); [|done].
  intros f1 r1 f2 r2 [Hbs1 _] Hf2.
  destruct (Fruit_respawn_inv _ _ _ _ Hbs1 Hf2) as (? & Heq & _).
  split; [lia|done].
Qed.

(** The grid, the cell size and the flag for drawing never change. *)
Lemma Game_update_grid fuel g r g' r' :
  Game_update fuel g r = Ok (g', r') →
  width g' = width g ∧ height g' = height g ∧ block_size g' = block_size g
  ∧ visible g' = visible g.
Proof.
  intros [(_ & -> & _)|(_ & sn & new_head & rest & _ & _ & Hcases)]
    %Game_update_cases; [done|].
  destruct Hcases as [(_ & -> & _)|[(_ & _ & -> & _)|(_ & _ & Hfruit)]];
    [done|done|].
  by destruct Hfruit as (f1 & r1 & f2 & _ & _ & ->).
Qed.

Lemma Game_update_wf fuel g r g' r' :
  Game_update fuel g r = Ok (g', r') → game_wf g → game_wf g'.
Proof.
  intros H (Hbs & Hsbs & Hfbs & Hfw & Hfh & Hpts).
  apply Game_update_cases in H
    as [(_ & -> & _)|(_ & sn & new_head & rest & Hmove & _ & Hcases)]; [done|].
  destruct (Snake_move_inv _ _ Hmove) as (_ & _ & _ & _ & _ & _ & Hsbs').
  destruct Hcases as [(_ & -> & _)|[(_ & _ & -> & _)|(_ & _ & Hfruit)]].
  - unfold game_wf; simpl. split_and!; try done. congruence.
  - unfold game_wf; simpl. split_and!; try done. congruence.
  - destruct Hfruit as (f1 & r1 & f2 & Hf1 & Hf2 & ->).
    apply Fruit_respawn_dims in Hf1 as (?&?&?&?).
    apply respawn_off_snake_dims in Hf2 as (?&?&?&?).
    unfold game_wf; simpl. split_and!; try done; congruence.
Qed.

Lemma Game_update_length fuel g r g' r' :
  Game_update fuel g r = Ok (g', r') →
  points (fruit g) = 1 → length_matches_score g → length_matches_score g'.
Proof.
  intros H Hpts Hlen.
  apply Game_update_cases in H
    as [(_ & -> & _)|(_ & sn & new_head & rest & Hmove & _ & Hcases)]; [done|].
  destruct (Snake_move_inv _ _ Hmove) as (head & tl & Hb & Hb' & Hgp & _).
  assert (Z.of_nat (length (body sn)) = 1 + score g) as Hsn.
  { unfold length_matches_score in Hlen. rewrite Hb in Hlen. rewrite Hb'.
    destruct (growth_pending (snake g)).
    - simpl length in *. lia.
    - change (length (_ :: removelast (head :: tl)))
        with (S (length (removelast (head :: tl)))).
      rewrite removelast_length. simpl length in *. lia. }
  destruct Hcases as [(_ & -> & _)|[(_ & _ & -> & _)|(_ & _ & Hfruit)]].
  - unfold length_matches_score; simpl. rewrite Hgp. lia.
  - unfold length_matches_score; simpl. rewrite Hgp. lia.
  - destruct Hfruit as (f1 & r1 & f2 & _ & _ & ->).
    unfold length_matches_score; simpl. lia.
Qed.

Lemma Game_update_speed fuel g r g' r' :
  Game_update fuel g r = Ok (g', r') →
  speed_matches_score g → speed_matches_score g'.
Proof.
  intros H Hsp.
  apply Game_update_cases in H
    as [(_ & -> & _)|(_ & sn & new_head & rest & _ & _ & Hcases)]; [done|].
  destruct Hcases as [(_ & -> & _)|[(_ & _ & -> & _)|(_ & _ & Hfruit)]];
    [done|done|].
  by destruct Hfruit as (f1 & r1 & f2 & _ & _ & ->).
Qed.

Lemma Game_update_fruit_in_area fuel g r g' r' :
  Game_update fuel g r = Ok (g', r') →
  0 < fruit_block_size (fruit g) → fruit_in_area (fruit g) →
  fruit_in_area (fruit g').
Proof.
  intros H Hbs Harea.
  apply Game_update_cases in H
    as [(_ & -> & _)|(_ & sn & new_head & rest & _ & _ & Hcases)]; [done|].
  destruct Hcases as [(_ & -> & _)|[(_ & _ & -> & _)|(_ & _ & Hfruit)]];
    [done|done|].
  destruct Hfruit as (f1 & r1 & f2 & Hf1 & Hf2 & ->). simpl.
  destruct (Fruit_respawn_inv _ _ _ _ Hbs Hf1) as (Harea1 & Hbs1 & _).
  eapply respawn_off_snake_in_area; [|exact Harea1|exact Hf2]. lia.
Qed.

Lemma Game_update_snake_ok fuel g r g' r' :
  Game_update fuel g r = Ok (g', r') →
  snake_ok g → game_over g' = false → snake_ok g'.
Proof.
  intros H (Hne & Hnd & Hgrid) Hgo'.
  apply Game_update_cases in H
    as [(_ & -> & _)|(_ & sn & new_head & rest & Hmove & Hbsn & Hcases)];
    [done|].
  destruct (Snake_move_inv _ _ Hmove) as (head & tl & Hb & Hb' & _).
  assert (NoDup rest ∧ ∀ c, c ∈ rest → in_grid g c) as [Hnd' Hgrid'].
  { assert (rest = if growth_pending (snake g) then head :: tl
                     else removelast (head :: tl)) as -> by congruence.
    rewrite Hb in Hnd, Hgrid.
    destruct (growth_pending (snake g)); [done|]. split.
    - by apply NoDup_removelast.
    - intros c Hc. apply Hgrid. by apply (removelast_subseteq (head :: tl)). }
  assert (Snake_check_collision sn (width g) (height g) = Ok false →
          body sn ≠ [] ∧ NoDup (body sn) ∧ ∀ c, c ∈ body sn → in_grid g c)
    as Hfree.
  { intros Hhit. rewrite Hbsn. split; [done|].
    pose proof (Snake_check_collision_inv _ _ _ _ _ _ Hbsn Hhit) as [_ Hiff].
    split.
    - apply NoDup_cons. split; [|done]. intros Hin.
      by discriminate Hiff; right.
    - intros c [->|Hc]%elem_of_cons; [|by apply Hgrid'].
      destruct (decide (0 ≤ new_head.1 < width g ∧ 0 ≤ new_head.2 < height g))
        as [?|Hout]; [done|].
      by discriminate Hiff; left. }
  destruct Hcases as [(_ & -> & _)|[(Hhit & _ & -> & _)|(Hhit & _ & Hfruit)]].
  - done.
  - exact (Hfree Hhit).
  - destruct Hfruit as (f1 & r1 & f2 & _ & _ & ->). exact (Hfree Hhit).
Qed.

(** Once the fruit lies inside its area and off the snake, it is off
    the snake after every tick, the last one of the game too. *)
Lemma Game_update_off_snake fuel g r g' r' :
  Game_update fuel g r = Ok (g', r') →
  game_wf g → fruit_in_area (fruit g) → fruit_off_snake g →
  fruit_off_snake g'.
Proof.
  intros H (Hbs & Hsbs & Hfbs & Hfw & Hfh & Hpts) Harea Hoff.
  apply Game_update_cases in H
    as [(_ & -> & _)|(_ & sn & new_head & rest & Hmove & Hbsn & Hcases)];
    [done|].
  destruct (Snake_move_body _ _ Hmove) as (h' & rest' & Hb' & Hsub).
  rewrite Hbsn in Hb'. injection Hb' as <- <-.
  assert (position (fruit g) ∉ rest) as Hrest.
  { intros Hin. apply Hoff. by apply Hsub. }
  destruct Hcases as [(Hhit & -> & _)|[(_ & Hne & -> & _)|(_ & _ & Hfruit)]].
  - unfold fruit_off_snake; simpl. rewrite Hbsn.
    intros [Heq|Hin]%elem_of_cons; [|done].
    pose proof (Snake_check_collision_inv _ _ _ _ _ _ Hbsn Hhit) as [Hiff _].
    destruct (Hiff eq_refl) as [Hout|Hin].
    + apply Hout. rewrite <- Heq.
      destruct Harea as [[Hx _] [Hy _]]. rewrite Hfbs, ?Hfw, ?Hfh in *. lia.
    + apply Hrest. by rewrite Heq.
  - unfold fruit_off_snake; simpl. rewrite Hbsn.
    by intros [Heq|Hin]%elem_of_cons.
  - destruct Hfruit as (f1 & r1 & f2 & _ & Hf2 & ->).
    exact (respawn_off_snake_spec _ _ _ _ _ _ Hf2).
Qed.

End GameInvariants.

(** ** Building and resetting a game *)

Section Construction.

Implicit Types (g : Game) (f : Fruit) (r : Random).

(** [respawn()] returns on every area that is wider and higher than
    four cells. *)
Lemma Fruit_respawn_returns f r :
  0 < fruit_block_size f →
  4 * fruit_block_size f < fruit_width f →
  4 * fruit_block_size f < fruit_height f →
  colors f ≠ [] →
  ∃ f', Fruit_respawn f r = Ok (f', mkRandom (entropy r) (cursor r + 3)).
Proof.
  intros Hbs Hw Hh Hcols. unfold Fruit_respawn.
  destruct (randrange_returns (fruit_block_size f * 2)
              (fruit_width f - fruit_block_size f * 2) (fruit_block_size f) r)
    as [x Hx]; [done|lia|].
  rewrite (bind_run _ _ _ _ _ Hx).
  destruct (randrange_returns (fruit_block_size f * 2)
              (fruit_height f - fruit_block_size f * 2) (fruit_block_size f)
              (mkRandom (entropy r) (S (cursor r)))) as [y Hy]; [done|lia|].
  rewrite (bind_run _ _ _ _ _ Hy).
  destruct (choice_returns (colors f)
              (mkRandom (entropy r) (S (S (cursor r)))) Hcols) as [c Hc].
  simpl in Hc. rewrite (bind_run _ _ _ _ _ Hc).
  eexists. unfold mret, M_ret. do 2 f_equal. f_equal. simpl. lia.
Qed.

Lemma Fruit_respawn_raises f r :
  0 < fruit_block_size f →
  fruit_width f ≤ 4 * fruit_block_size f
  ∨ fruit_height f ≤ 4 * fruit_block_size f →
  Fruit_respawn f r = Raise ValueError.
Proof.
  intros Hbs Hsmall. unfold Fruit_respawn.
  destruct (decide (fruit_width f ≤ 4 * fruit_block_size f)) as [Hw|Hw].
  { unfold mbind, M_bind. by rewrite randrange_raises by lia. }
  destruct (randrange_returns (fruit_block_size f * 2)
              (fruit_width f - fruit_block_size f * 2) (fruit_block_size f) r)
    as [x Hx]; [done|lia|].
  rewrite (bind_run _ _ _ _ _ Hx).
  unfold mbind, M_bind. rewrite randrange_raises; [done|done|].
  destruct Hsmall; lia.
Qed.

Lemma Game_init_inv w h vis r g r' :
  Game_init w h vis r = Ok (g, r') →
  ∃ f, g = mkGame w h 20 vis (Snake_init (w / 2, h / 2) 20) f 0 false 10
       ∧ fruit_in_area f
       ∧ fruit_block_size f = 20 ∧ fruit_width f = w ∧ fruit_height f = h
       ∧ points f = 1
       ∧ r' = mkRandom (entropy r) (cursor r + 4).
Proof.
  unfold Game_init, Fruit_init. intros H.
  apply bind_Ok in H as (f & r1 & H & Hret).
  apply ret_Ok in Hret as [-> ->].
  apply bind_Ok in H as (c & r0 & Hc & Hf).
  apply choice_inv in Hc as [_ ->].
  apply Fruit_respawn_inv in Hf as (Harea & Hbs & Hw & Hh & _ & Hpts & ->);
    [|done].
  exists f. split_and!; try done. simpl. f_equal. lia.
Qed.

Lemma Game_init_returns (w h : Z) (vis : bool) r :
  80 < w ∧ 80 < h →
  ∃ g, Game_init w h vis r = Ok (g, mkRandom (entropy r) (cursor r + 4)).
Proof.
  intros Hwin. unfold Game_init, Fruit_init.
  set (cols := [(255, 0, 0); (255, 165, 0); (255, 215, 0); (148, 0, 211)]).
  destruct (choice_returns cols r ltac:(done)) as [c Hc].
  unfold mbind, M_bind. rewrite Hc.
  destruct (Fruit_respawn_returns (mkFruit 20 w h (0, 0) cols c 1)
              (mkRandom (entropy r) (S (cursor r)))) as [f Hf];
    simpl; [lia|lia|lia|done|].
  rewrite Hf. eexists. unfold mret, M_ret. simpl. do 3 f_equal. lia.
Qed.

End Construction.

(** ** Sound games *)

Section Sound.

Implicit Types (g : Game) (f : Fruit) (r : Random).

(** Turning the snake leaves a sound game sound. *)
Lemma game_sound_heading g d :
  game_sound g → game_sound (set_snake (set_snake_direction d (snake g)) g).
Proof. done. Qed.

Lemma apply_action_sound g action :
  game_sound g → game_sound (apply_action g action).
Proof.
  intros H. rewrite apply_action_only_heading. by apply game_sound_heading.
Qed.

Lemma handle_key_heading key g :
  handle_key key g
  = set_snake (set_snake_direction (heading (handle_key key g)) (snake g)) g.
Proof.
  unfold handle_key, heading.
  destruct g as [w h bs vis [b d sbs gp] f sc go sp]; simpl.
  by repeat (case_bool_decide; simpl).
Qed.

Lemma handle_input_heading events :
  ∀ g, (handle_input events g).2
       = set_snake (set_snake_direction (heading (handle_input events g).2)
                      (snake g)) g.
Proof.
  induction events as [|[|key|] events IH]; intros g; simpl.
  - by destruct g as [w h bs vis [b d sbs gp] f sc go sp].
  - by destruct g as [w h bs vis [b d sbs gp] f sc go sp].
  - pose proof (IH (handle_key key g)) as E.
    set (g' := (handle_input events (handle_key key g)).2) in *.
    etrans; [exact E|]. rewrite (handle_key_heading key g).
    generalize (heading g'), (heading (handle_key key g)).
    by destruct g as [w h bs vis [b d sbs gp] f sc go sp].
  - apply IH.
Qed.

Lemma handle_input_sound events g :
  game_sound g → game_sound (handle_input events g).2.
Proof.
  intros H. rewrite handle_input_heading. by apply game_sound_heading.
Qed.

Lemma set_game_over_sound g : game_sound g → game_sound (set_game_over true g).
Proof. intros (?&?&?&?&?). by split_and!. Qed.

Lemma Game_update_sound fuel g r g' r' :
  Game_update fuel g r = Ok (g', r') → game_sound g → game_sound g'.
Proof.
  intros H (Hwf & Hlen & Hsp & Harea & Hsn).
  pose proof Hwf as (Hbs & _ & Hfbs & _ & _ & Hpts).
  split_and!.
  - by eapply Game_update_wf.
  - by eapply Game_update_length.
  - by eapply Game_update_speed.
  - eapply Game_update_fruit_in_area; [done| |done]. lia.
  - intros Hgo'. eapply Game_update_snake_ok; [done| |done].
    apply Hsn. destruct (game_over g) eqn:Hgo; [|done].
    apply Game_update_cases in H as [(_ & -> & _)|[? _]]; congruence.
Qed.

Lemma Game_init_sound w h vis r g r' :
  Game_init w h vis r = Ok (g, r') → game_sound g.
Proof.
  intros (f & -> & Harea & Hbs & Hw & Hh & Hpts & _)%Game_init_inv.
  split_and!; try done.
  intros _. split_and!; [done|apply NoDup_singleton|].
  intros c ->%list_elem_of_singleton. unfold in_grid; simpl.
  destruct Harea as [[Hx _] [Hy _]]. rewrite Hbs, ?Hw, ?Hh in *.
  pose proof (Z.div_mod w 2 ltac:(lia)).
  pose proof (Z.mod_pos_bound w 2 ltac:(lia)).
  pose proof (Z.div_mod h 2 ltac:(lia)).
  pose proof (Z.mod_pos_bound h 2 ltac:(lia)).
  lia.
Qed.

Lemma Game_reset_inv g r g' r' :
  Game_reset g r = Ok (g', r') →
  ∃ f, Fruit_respawn (fruit g) r = Ok (f, r')
       ∧ g' = mkGame (width g) (height g) (block_size g) (visible g)
                     (Snake_init (width g / 2, height g / 2) (block_size g))
                     f 0 false 10.
Proof.
  unfold Game_reset. intros H.
  apply bind_Ok in H as (f & r1 & Hf & H). apply ret_Ok in H as [-> ->].
  by exists f.
Qed.

Lemma Game_reset_sound g r g' r' :
  Game_reset g r = Ok (g', r') → game_wf g → game_sound g'.
Proof.
  intros (f & Hf & ->)%Game_reset_inv (Hbs & Hsbs & Hfbs & Hfw & Hfh & Hpts).
  assert (0 < fruit_block_size (fruit g)) as Hfpos by lia.
  destruct (Fruit_respawn_inv _ _ _ _ Hfpos Hf)
    as (Harea & Hbs' & Hw' & Hh' & _ & Hpts' & _).
  split_and!; try done.
  - unfold game_wf; simpl. split_and!; congruence.
  - intros _. split_and!; [done|apply NoDup_singleton|].
    intros c ->%list_elem_of_singleton. unfold in_grid; simpl.
    destruct Harea as [[Hx _] [Hy _]].
    rewrite Hbs', ?Hw', ?Hh', Hfbs, ?Hfw, ?Hfh in *.
    pose proof (Z.div_mod (width g) 2 ltac:(lia)).
    pose proof (Z.mod_pos_bound (width g) 2 ltac:(lia)).
    pose proof (Z.div_mod (height g) 2 ltac:(lia)).
    pose proof (Z.mod_pos_bound (height g) 2 ltac:(lia)).
    lia.
Qed.

End Sound.

(** ** What the loops keep *)

Section Loops.

Implicit Types (g : Game) (r : Random) (ai : SnakeAI) (ep : Episode).

Variable P : Game → Prop.
Variable fuel : nat.
Hypothesis P_apply_action : ∀ g action, P g → P (apply_action g action).
Hypothesis P_update : ∀ g r g' r', Game_update fuel g r = Ok (g', r') → P g → P g'.

Lemma play_tick_game ai ep r ai1 g (old_state new_state : State) action r' :
  play_tick fuel ai ep r = Ok (ai1, g, old_state, action, new_state, r') →
  P (game ep) → P g.
Proof.
  unfold play_tick. intros H HP.
  apply bind_Ok in H as (s0 & r0 & _ & H).
  apply bind_Ok in H as ([a ai0] & r1 & _ & H).
  apply bind_Ok in H as (g1 & r2 & Hupd & H).
  apply bind_Ok in H as (s1 & r3 & _ & H).
  apply ret_Ok in H as [[= -> -> -> -> ->] ->].
  eapply P_update; [exact Hupd|]. by apply P_apply_action.
Qed.

Hypothesis P_game_over : ∀ g, P g → P (set_game_over true g).

Lemma train_iteration_game ai ep r ai' ep' tr r' :
  train_iteration fuel ai ep r = Ok (ai', ep', tr, r') →
  P (game ep) → P (game ep').
Proof.
  intros (ai1 & g & Htick & _ & _ & _ & Hrew & _)%train_iteration_inv HP.
  pose proof (play_tick_game _ _ _ _ _ _ _ _ _ Htick HP) as Hg.
  unfold calculate_reward in Hrew.
  repeat case_match; injection Hrew as _ _ <-; auto.
Qed.

Lemma episode_steps_game n :
  ∀ ai ep r ai' ep' trs r',
    episode_steps fuel n ai ep r = Ok (ai', ep', trs, r') →
    P (game ep) → P (game ep').
Proof.
  induction n as [|n IH]; intros ai ep r ai' ep' trs r'; simpl.
  { by intros [[= -> -> ->] _]%ret_Ok. }
  destruct (game_over (game ep)); [by intros [[= -> -> ->] _]%ret_Ok|].
  intros H HP.
  apply bind_Ok in H as ([[ai1 ep1] tr1] & r1 & Hit & H).
  apply bind_Ok in H as ([[ai2 ep2] trs2] & r2 & Hrest & H).
  apply ret_Ok in H as [[= -> -> ->] ->].
  eapply IH; [exact Hrest|]. by eapply train_iteration_game.
Qed.

Lemma play_loop_game n :
  ∀ frames ai g moves r ai' g' moves' running r',
    play_loop fuel n frames ai g moves r = Ok (ai', g', moves', running, r') →
    P g → P g'.
Proof.
  induction n as [|n IH]; intros frames ai g moves r ai' g' moves' running r';
    simpl.
  { destruct (game_over g); [|done]. by intros [[= -> -> -> ->] _]%ret_Ok. }
  destruct (game_over g); [by intros [[= -> -> -> ->] _]%ret_Ok|].
  destruct (play_events (hd [] frames));
    [|by intros [[= -> -> -> ->] _]%ret_Ok].
  intros H HP.
  apply bind_Ok in H as (s0 & r0 & _ & H).
  apply bind_Ok in H as ([a ai0] & r1 & _ & H).
  apply bind_Ok in H as (g1 & r2 & Hupd & H).
  eapply IH; [exact H|].
  eapply P_update; [exact Hupd|]. by apply P_apply_action.
Qed.

End Loops.

Section SoundLoops.

Implicit Types (g : Game) (r : Random) (ai : SnakeAI) (ep : Episode).

Lemma run_frame_sound fuel events r_held g r running g' r' :
  run_frame fuel events r_held g r = Ok (running, g', r') →
  game_sound g → game_sound g'.
Proof.
  unfold run_frame. intros H Hs.
  pose proof (handle_input_sound events g Hs) as Hs1.
  destruct (handle_input events g) as [run1 g1]. simpl in Hs1.
  apply bind_Ok in H as (g2 & r2 & Hreset & H).
  apply bind_Ok in H as (g3 & r3 & Hupd & H).
  apply ret_Ok in H as [[= -> ->] ->].
  eapply Game_update_sound; [exact Hupd|].
  destruct (game_over g1 && r_held).
  - eapply Game_reset_sound; [exact Hreset|]. by destruct Hs1.
  - by apply ret_Ok in Hreset as [-> _].
Qed.

Lemma run_sound fuel n :
  ∀ frames g r g' r',
    run fuel n frames g r = Ok (g', r') → game_sound g → game_sound g'.
Proof.
  induction n as [|n IH]; intros frames g r g' r'; simpl; [done|].
  destruct (hd ([], false) frames) as [events r_held].
  intros H Hs. apply bind_Ok in H as ([running g1] & r1 & Hframe & H).
  pose proof (run_frame_sound _ _ _ _ _ _ _ _ Hframe Hs) as Hs1.
  destruct running.
  - by eapply IH.
  - by apply ret_Ok in H as [-> _].
Qed.

End SoundLoops.

(** ** The game, from its construction to its last tick *)

Section GameTheorems.

Implicit Types (g : Game) (r : Random) (ai : SnakeAI) (ep : Episode).

Example fresh_game_run : succeeds (Game_init 800 600 false ones) = true.
Proof. vm_compute. reflexivity. Qed.

Example quiet_game_sound : game_sound quiet_game.
Proof.
  unfold game_sound, game_wf, length_matches_score, speed_matches_score,
    fruit_in_area, snake_ok, quiet_game, centred_game, Snake_init; simpl.
  split_and!; try done; try lia.
  intros _. split_and!; [done|apply NoDup_singleton|].
  intros c ->%list_elem_of_singleton. by vm_compute.
Qed.

Example feeding_game_sound : game_sound feeding_game.
Proof.
  unfold game_sound, game_wf, length_matches_score, speed_matches_score,
    fruit_in_area, snake_ok, feeding_game, centred_game, Snake_init; simpl.
  split_and!; try done; try lia.
  intros _. split_and!; [done|apply NoDup_singleton|].
  intros c ->%list_elem_of_singleton. by vm_compute.
Qed.

(** X1: [Game(width, height, visible)] returns, four random words
    later, exactly when the window is wider and higher than 80 pixels;
    on every other window the range [randrange] draws the fruit from is
    empty and the constructor raises [ValueError]. *)
Theorem Game_init_window (w h : Z) (vis : bool) r :
  if bool_decide (80 < w ∧ 80 < h)
  then ∃ g, Game_init w h vis r = Ok (g, mkRandom (entropy r) (cursor r + 4))
  else Game_init w h vis r = Raise ValueError.
Proof.
  case_bool_decide as Hwin.
  - by apply Game_init_returns.
  - unfold Game_init, Fruit_init.
    set (cols := [(255, 0, 0); (255, 165, 0); (255, 215, 0); (148, 0, 211)]).
    destruct (choice_returns cols r ltac:(done)) as [c Hc].
    unfold mbind, M_bind. rewrite Hc.
    rewrite Fruit_respawn_raises; [done|simpl; lia|simpl; lia].
Qed.

(** X2: the game [Game(width, height, visible)] returns is sound: a
    snake of one cell at the centre of the window, heading right, no
    growth pending, score 0, speed 10, not over, and a fruit worth one
    point on a cell at least two cells away from every wall. *)
Theorem Game_init_fresh_game (w h : Z) (vis : bool) r g r' :
  Game_init w h vis r = Ok (g, r') →
  game_sound g
  ∧ body (snake g) = [(w / 2, h / 2)]
  ∧ heading g = RIGHT
  ∧ growth_pending (snake g) = false
  ∧ score g = 0 ∧ speed g = 10 ∧ game_over g = false
  ∧ width g = w ∧ height g = h ∧ block_size g = 20 ∧ visible g = vis.
Proof.
  intros H. split; [by eapply Game_init_sound|].
  by apply Game_init_inv in H as (f & -> & _).
Qed.

Lemma Game_init_fresh_game_witness :
  ∃ g r', Game_init 800 600 false ones = Ok (g, r')
          ∧ game_sound g ∧ body (snake g) = [(400, 300)].
Proof.
  pose proof fresh_game_run as Hok.
  destruct (Game_init 800 600 false ones) as [[g r']|e] eqn:E;
    [|discriminate Hok].
  exists g, r'. split; [reflexivity|].
  destruct (Game_init_fresh_game _ _ _ _ _ _ E) as (H1 & H2 & _).
  exact (conj H1 H2).
Defined.

(** X3: whatever state a game with agreeing parts is in, [reset()]
    leaves a sound game: the snake is back to one cell at the centre,
    heading right, score 0, speed 10, not over, and the fruit has been
    drawn again inside its area. Grid and cell size stay. *)
Theorem Game_reset_fresh_game g r g' r' :
  Game_reset g r = Ok (g', r') →
  game_wf g →
  game_sound g'
  ∧ body (snake g') = [(width g / 2, height g / 2)]
  ∧ heading g' = RIGHT
  ∧ growth_pending (snake g') = false
  ∧ score g' = 0 ∧ speed g' = 10 ∧ game_over g' = false
  ∧ width g' = width g ∧ height g' = height g
  ∧ block_size g' = block_size g.
Proof.
  intros H Hwf. split; [by eapply Game_reset_sound|].
  by apply Game_reset_inv in H as (f & _ & ->).
Qed.

Lemma Game_reset_fresh_game_witness :
  ∃ g' r',
    Game_reset (set_game_over true (set_score 7 quiet_game)) ones = Ok (g', r')
    ∧ game_sound g' ∧ score g' = 0 ∧ game_over g' = false.
Proof.
  assert (succeeds (Game_reset (set_game_over true (set_score 7 quiet_game))
                      ones) = true) as Hok by (vm_compute; reflexivity).
  destruct (Game_reset (set_game_over true (set_score 7 quiet_game)) ones)
    as [[g' r']|e] eqn:E; [|discriminate Hok].
  exists g', r'. split; [reflexivity|].
  destruct (Game_reset_fresh_game _ _ _ _ E) as (H1 & _ & _ & _ & H2 & _ & H3 & _).
  - by destruct quiet_game_sound.
  - exact (conj H1 (conj H2 H3)).
Defined.

(** X4: every game the training loop reaches is sound: after any
    number of rounds of [while not game.game_over] on a new game the
    parts of the game agree, the snake is one cell longer than the
    score (a pending growth counted), the speed is
    [min(20, 10 + score // 10)], the fruit lies inside its area, and
    unless the game is over the snake lies in the grid on pairwise
    different cells. *)
Theorem training_game_stays_sound fuel n ai r ai' ep' trs r' :
  episode_prefix fuel n ai r = Ok (ai', ep', trs, r') →
  game_sound (game ep').
Proof.
  unfold episode_prefix. intros H.
  apply bind_Ok in H as (g & r1 & Hinit & H).
  apply (episode_steps_game game_sound fuel) in H; [done| | | |].
  - intros. by apply apply_action_sound.
  - intros. by eapply Game_update_sound.
  - intros. by apply set_game_over_sound.
  - by eapply Game_init_sound.
Qed.

Example three_training_ticks :
  succeeds (episode_prefix 10 3 SnakeAI_init ones) = true.
Proof. vm_compute. reflexivity. Qed.

Lemma training_game_stays_sound_witness :
  ∃ ai' ep' trs r',
    episode_prefix 10 3 SnakeAI_init ones = Ok (ai', ep', trs, r')
    ∧ game_sound (game ep').
Proof.
  pose proof three_training_ticks as Hok.
  destruct (episode_prefix 10 3 SnakeAI_init ones)
    as [[[[ai' ep'] trs] r']|e] eqn:E; [|discriminate Hok].
  exists ai', ep', trs, r'. split; [reflexivity|].
  exact (training_game_stays_sound _ _ _ _ _ _ _ _ E).
Defined.

(** X5: the game [play] shows is sound when its loop ends, however it
    ends: by a collision, by QUIT or by the escape key. *)
Theorem play_game_stays_sound fuel frames ai r ai' g moves running r' :
  play fuel frames ai r = Ok (ai', g, moves, running, r') →
  game_sound g.
Proof.
  unfold play. intros H.
  apply bind_Ok in H as (g0 & r1 & Hinit & H).
  apply (play_loop_game game_sound fuel) in H; [done| | |].
  - intros. by apply apply_action_sound.
  - intros. by eapply Game_update_sound.
  - by eapply Game_init_sound.
Qed.

Example short_demonstration :
  succeeds (play 10 [[]; [OtherEvent; KEYDOWN K_ESCAPE]] SnakeAI_init ones)
  = true.
Proof. vm_compute. reflexivity. Qed.

Lemma play_game_stays_sound_witness :
  ∃ ai' g moves running r',
    play 10 [[]; [OtherEvent; KEYDOWN K_ESCAPE]] SnakeAI_init ones
    = Ok (ai', g, moves, running, r')
    ∧ game_sound g.
Proof.
  pose proof short_demonstration as Hok.
  destruct (play 10 [[]; [OtherEvent; KEYDOWN K_ESCAPE]] SnakeAI_init ones)
    as [[[[[ai' g] moves] running] r']|e] eqn:E; [|discriminate Hok].
  exists ai', g, moves, running, r'. split; [reflexivity|].
  exact (play_game_stays_sound _ _ _ _ _ _ _ _ _ E).
Defined.

(** X6: [Game.run] keeps a sound game sound through key presses,
    restarts with R and ticks, up to the round that sees QUIT. *)
Theorem run_keeps_game_sound fuel n frames g r g' r' :
  run fuel n frames g r = Ok (g', r') →
  game_sound g → game_sound g'.
Proof. apply run_sound. Qed.

Example short_session :
  succeeds (run 10 5 [([KEYDOWN K_UP], false); ([], true); ([QUIT], false)]
                quiet_game ones) = true.
Proof. vm_compute. reflexivity. Qed.

Lemma run_keeps_game_sound_witness :
  ∃ g' r',
    run 10 5 [([KEYDOWN K_UP], false); ([], true); ([QUIT], false)]
        quiet_game ones = Ok (g', r')
    ∧ game_sound g'.
Proof.
  pose proof short_session as Hok.
  destruct (run 10 5 [([KEYDOWN K_UP], false); ([], true); ([QUIT], false)]
                quiet_game ones) as [[g' r']|e] eqn:E; [|discriminate Hok].
  exists g', r'. split; [reflexivity|].
  exact (run_keeps_game_sound _ _ _ _ _ _ _ E quiet_game_sound).
Defined.

End GameTheorems.

(** ** Eating, and where the fruit lies *)

Section Eating.

Implicit Types (g : Game) (r : Random) (ai : SnakeAI) (ep : Episode).

Example feeding_tick : succeeds (Game_update 10 feeding_game ones) = true.
Proof. vm_compute. reflexivity. Qed.

(** X7: a tick of a running game either eats or changes nothing but
    the snake. When the move brings the head onto the fruit without a
    collision, the score goes up by the points of the fruit, the speed
    is set from the new score, a growth is pending, the game goes on and
    the new fruit lies off the snake. On every other tick score, speed
    and fruit stay, no growth is pending and no random number is
    drawn. *)
Theorem Game_update_eats_or_not fuel g r g' r' :
  Game_update fuel g r = Ok (g', r') →
  game_over g = false →
  (lands_on_fruit g →
   score g' = score g + points (fruit g)
   ∧ speed g' = Z.min 20 (10 + score g' / 10)
   ∧ growth_pending (snake g') = true
   ∧ game_over g' = false
   ∧ fruit_off_snake g')
  ∧ (¬ lands_on_fruit g →
     score g' = score g ∧ speed g' = speed g ∧ fruit g' = fruit g
     ∧ growth_pending (snake g') = false
     ∧ r' = r).
Proof.
  intros H Hgo.
  apply Game_update_cases in H
    as [(? & _)|(_ & sn & new_head & rest & Hmove & Hbsn & Hcases)];
    [congruence|].
  destruct (Snake_move_inv _ _ Hmove) as (_ & _ & _ & _ & Hgp & _).
  unfold lands_on_fruit. rewrite Hmove, Hbsn.
  destruct Hcases as [(Hhit & -> & ->)|[(Hhit & Hne & -> & ->)|(Hhit & Heq & Hfruit)]].
  - split; [intros [_ ?]; congruence|done].
  - split; [by intros [? _]|done].
  - destruct Hfruit as (f1 & r1 & f2 & _ & Hf2 & ->).
    split; [intros _|by intros []].
    split_and!; try done.
    exact (respawn_off_snake_spec _ _ _ _ _ _ Hf2).
Qed.

Lemma Game_update_eats_or_not_witness :
  ∃ g' r',
    Game_update 10 feeding_game ones = Ok (g', r')
    ∧ (lands_on_fruit feeding_game → score g' = 1)
    ∧ (¬ lands_on_fruit feeding_game → score g' = 0).
Proof.
  pose proof feeding_tick as Hok.
  destruct (Game_update 10 feeding_game ones) as [[g' r']|e] eqn:E;
    [|discriminate Hok].
  exists g', r'. split; [reflexivity|].
  destruct (Game_update_eats_or_not _ _ _ _ _ E eq_refl) as [Heat Hnot].
  split.
  - intros Hl. by destruct (Heat Hl) as (-> & _).
  - intros Hl. by destruct (Hnot Hl) as (-> & _).
Defined.

(** X8: once the fruit of a sound game lies off the snake, it lies off
    the snake after every round of the training loop, the one that ends
    the game included. *)
Theorem training_keeps_fruit_off_snake fuel n ai ep r ai' ep' trs r' :
  episode_steps fuel n ai ep r = Ok (ai', ep', trs, r') →
  game_sound (game ep) → fruit_off_snake (game ep) →
  fruit_off_snake (game ep').
Proof.
  intros H Hs Hoff.
  apply (episode_steps_game (λ g, game_sound g ∧ fruit_off_snake g) fuel)
    in H; [by destruct H| | | |done].
  - intros g a [Hsg Hog]. split; [by apply apply_action_sound|].
    unfold fruit_off_snake in *. by rewrite apply_action_only_heading.
  - intros g r0 g' r0' Hupd [Hsg Hog]. split; [by eapply Game_update_sound|].
    destruct Hsg as (Hwf & _ & _ & Harea & _).
    by eapply Game_update_off_snake.
  - intros g [Hsg Hog]. split; [by apply set_game_over_sound|done].
Qed.

Example three_quiet_ticks :
  succeeds (episode_steps 10 3 SnakeAI_init (mkEpisode quiet_game 0 0) ones)
  = true.
Proof. vm_compute. reflexivity. Qed.

Lemma training_keeps_fruit_off_snake_witness :
  ∃ ai' ep' trs r',
    episode_steps 10 3 SnakeAI_init (mkEpisode quiet_game 0 0) ones
    = Ok (ai', ep', trs, r')
    ∧ fruit_off_snake (game ep').
Proof.
  pose proof three_quiet_ticks as Hok.
  destruct (episode_steps 10 3 SnakeAI_init (mkEpisode quiet_game 0 0) ones)
    as [[[[ai' ep'] trs] r']|e] eqn:E; [|discriminate Hok].
  exists ai', ep', trs, r'. split; [reflexivity|].
  apply (training_keeps_fruit_off_snake _ _ _ _ _ _ _ _ _ E).
  - exact quiet_game_sound.
  - unfold fruit_off_snake. vm_compute.
    intros [Heq|Hin]%elem_of_cons; [discriminate Heq|].
    by apply elem_of_nil in Hin.
Defined.

End Eating.

(** ** The encoded state *)

Section Encoding.

Implicit Types (g : Game) (r : Random) (s : State).

(** The loop over the body segments, in closed form. *)
Lemma danger_fold d (snake_head : Z * Z) bs rest :
  ∀ w1 w2 w3 : bool,
    fold_left (danger_segment d snake_head bs) rest (w1, w2, w3)
    = (w1 || bool_decide ((danger_cells d snake_head bs).1.1 ∈ rest),
       w2 || bool_decide ((danger_cells d snake_head bs).1.2 ∈ rest),
       w3 || bool_decide ((danger_cells d snake_head bs).2 ∈ rest)).
Proof.
  induction rest as [|segment rest IH]; intros w1 w2 w3.
  - cbn [fold_left].
    rewrite !bool_decide_eq_false_2 by apply not_elem_of_nil.
    by rewrite !orb_false_r.
  - cbn [fold_left].
    replace (danger_segment d snake_head bs (w1, w2, w3) segment)
      with (if bool_decide ((danger_cells d snake_head bs).1.1 = segment)
            then true else w1,
            if bool_decide ((danger_cells d snake_head bs).1.2 = segment)
            then true else w2,
            if bool_decide ((danger_cells d snake_head bs).2 = segment)
            then true else w3)
      by (unfold danger_segment;
          by destruct (danger_cells d snake_head bs) as [[??]?]).
    rewrite IH.
    assert (∀ (c : Z * Z) (w : bool),
              (if bool_decide (c = segment) then true else w)
              || bool_decide (c ∈ rest)
              = w || bool_decide (c ∈ segment :: rest)) as Hstep.
    { intros c w. rewrite (bool_decide_ext (c ∈ segment :: rest)
                             (c = segment ∨ c ∈ rest))
        by apply elem_of_cons.
      rewrite bool_decide_or.
      by destruct (bool_decide (c = segment)), w, (bool_decide (c ∈ rest)). }
    by rewrite !Hstep.
Qed.

(** The flag of an action looks at the wall and at the cell the snake
    enters when it takes the action. *)
Lemma get_state_danger_flag g snake_head rest action :
  body (snake g) = snake_head :: rest →
  ∃ s, get_state g = Ok s
       ∧ danger_flag action s
         = let d := heading (apply_action g action) in
           wall_towards g snake_head d
           || bool_decide
                ((snake_head.1 + (Direction_value d).1 * block_size g,
                  snake_head.2 + (Direction_value d).2 * block_size g)
                 ∈ rest).
Proof.
  intros Hb. unfold get_state. rewrite Hb.
  unfold danger_flag, apply_action, heading, wall_towards.
  destruct (Z.eqb_spec action 1) as [->|H1];
    [|destruct (Z.eqb_spec action 2) as [->|H2]];
    destruct (direction (snake g)) eqn:Hd; rewrite danger_fold;
    simpl; rewrite ?Hd; simpl;
    eexists; (split; [reflexivity|]); simpl;
    rewrite ?Z.mul_0_l, ?Z.mul_1_l, ?Z.add_0_r,
      <- ?Z.opp_eq_mul_m1, ?Z.add_opp_r;
    try reflexivity;
    by replace (-1 * block_size g) with (- block_size g) by lia;
       rewrite ?Z.add_opp_r.
Qed.

(** X9: the eleven booleans of [get_state] are consistent: exactly
    one of the four heading flags is set, and it is the one of the
    heading; the fruit is never both to the right and to the left, nor
    both below and above; and the four fruit flags are all unset
    exactly when the head lies on the fruit. *)
Theorem get_state_flags g ds dl dr fr fl fb fa hu hd hl hr :
  get_state g = Ok (ds, dl, dr, fr, fl, fb, fa, hu, hd, hl, hr) →
  Z.b2z hu + Z.b2z hd + Z.b2z hl + Z.b2z hr = 1
  ∧ (hu = true ↔ heading g = UP) ∧ (hd = true ↔ heading g = DOWN)
  ∧ (hl = true ↔ heading g = LEFT) ∧ (hr = true ↔ heading g = RIGHT)
  ∧ ¬ (fr = true ∧ fl = true) ∧ ¬ (fb = true ∧ fa = true)
  ∧ (fr = false ∧ fl = false ∧ fb = false ∧ fa = false
     ↔ head (body (snake g)) = Some (position (fruit g))).
Proof.
  unfold get_state, heading.
  destruct (body (snake g)) as [|[hx hy] rest]; [done|].
  destruct (fold_left _ _ _) as [[ds' dl'] dr'].
  destruct (position (fruit g)) as [fx fy]. simpl.
  intros [= _ _ _ <- <- <- <- <- <- <- <-].
  split_and!.
  - by destruct (direction (snake g)).
  - by destruct (direction (snake g)).
  - by destruct (direction (snake g)).
  - by destruct (direction (snake g)).
  - by destruct (direction (snake g)).
  - intros [?%Z.ltb_lt ?%Z.ltb_lt]. lia.
  - intros [?%Z.ltb_lt ?%Z.ltb_lt]. lia.
  - split.
    + intros (?%Z.ltb_ge & ?%Z.ltb_ge & ?%Z.ltb_ge & ?%Z.ltb_ge).
      do 2 f_equal; lia.
    + intros [= -> ->]. by rewrite !Z.sub_diag.
Qed.

Lemma get_state_flags_witness :
  Z.b2z false + Z.b2z false + Z.b2z false + Z.b2z true = 1
  ∧ heading quiet_game = RIGHT.
Proof.
  destruct (get_state_flags quiet_game false false false false true false true
              false false false true eq_refl) as (H1 & _ & _ & _ & H2 & _).
  split; [exact H1|]. by apply H2.
Defined.

(** X10: the danger flags agree with the way [apply_action] turns the
    snake: the flag of an action (left for 1, right for 2, straight for
    every other action) is the flag for straight on that [get_state]
    returns once the action has been applied. *)
Theorem danger_flags_follow_turns g s action :
  get_state g = Ok s →
  ∃ s', get_state (apply_action g action) = Ok s'
        ∧ danger_straight_of s' = danger_flag action s.
Proof.
  intros Hs.
  destruct (body (snake g)) as [|snake_head rest] eqn:Hb.
  { unfold get_state in Hs. by rewrite Hb in Hs. }
  destruct (get_state_danger_flag g snake_head rest action Hb)
    as (s0 & Hs0 & Hflag).
  assert (s0 = s) as -> by congruence.
  assert (body (snake (apply_action g action)) = snake_head :: rest) as Hb1.
  { by rewrite apply_action_only_heading. }
  destruct (get_state_danger_flag (apply_action g action) snake_head rest 0 Hb1)
    as (s' & Hs' & Hflag').
  exists s'. split; [done|]. rewrite Hflag.
  change (danger_flag 0 s') with (danger_straight_of s') in Hflag'.
  rewrite Hflag'. cbv zeta.
  change (apply_action (apply_action g action) 0) with (apply_action g action).
  assert (block_size (apply_action g action) = block_size g
          ∧ width (apply_action g action) = width g
          ∧ height (apply_action g action) = height g) as (Ebs & Ew & Eh).
  { by rewrite apply_action_only_heading. }
  unfold wall_towards. by rewrite Ebs, Ew, Eh.
Qed.

Lemma danger_flags_follow_turns_witness :
  ∃ s', get_state (apply_action quiet_game 1) = Ok s'
        ∧ danger_straight_of s'
          = danger_flag 1 (false, false, false, false, true, false, true,
                           false, false, false, true).
Proof. exact (danger_flags_follow_turns quiet_game _ 1 eq_refl). Defined.

(** X11: no deadly move goes unflagged. In a sound game that is not
    over, when the tick that follows an action ends the game, the
    danger flag of that action was set in the state [get_state]
    returned before the action. *)
Theorem deadly_move_is_flagged fuel g s action r g' r' :
  get_state g = Ok s →
  Game_update fuel (apply_action g action) r = Ok (g', r') →
  game_sound g → game_over g = false → game_over g' = true →
  danger_flag action s = true.
Proof.
  intros Hs Hupd ((Hbs & Hsbs & _) & _ & _ & _ & Hok) Hgo Hgo'.
  destruct (Hok Hgo) as (_ & _ & Hgrid).
  destruct (body (snake g)) as [|snake_head rest] eqn:Hb.
  { unfold get_state in Hs. by rewrite Hb in Hs. }
  destruct (get_state_danger_flag g snake_head rest action Hb)
    as (s0 & Hs0 & Hflag).
  assert (s0 = s) as -> by congruence.
  rewrite Hflag. cbv zeta. clear Hflag Hs Hs0.
  rewrite apply_action_only_heading in Hupd.
  set (d := heading (apply_action g action)) in *.
  apply Game_update_cases in Hupd
    as [(? & _)|(_ & sn & new_head & rest' & Hmove & Hbsn & Hcases)];
    [simpl in *; congruence|].
  destruct Hcases as [(Hhit & _)|[(_ & _ & -> & _)|(_ & _ & Hfruit)]];
    [|simpl in *; congruence
     |destruct Hfruit as (? & ? & ? & _ & _ & ->); simpl in *; congruence].
  apply Snake_move_inv in Hmove as (h0 & tl0 & Hb0 & Hb' & _).
  simpl in Hb0, Hhit.
  cbn [snake set_snake body set_snake_direction direction snake_block_size
       growth_pending] in Hb'.
  rewrite Hb in Hb0. injection Hb0 as <- <-.
  rewrite Hsbs in Hb'.
  assert (in_grid g snake_head) as [Hx Hy] by (apply Hgrid; by left).
  assert (new_head = (snake_head.1 + (Direction_value d).1 * block_size g,
                      snake_head.2 + (Direction_value d).2 * block_size g)
          ∧ rest' ⊆ snake_head :: rest) as [Hnew Hsub].
  { split; [congruence|].
    assert (rest' = if growth_pending (snake g) then snake_head :: rest
                    else removelast (snake_head :: rest)) as -> by congruence.
    destruct (growth_pending (snake g)); [done|].
    apply (removelast_subseteq (snake_head :: rest)). }
  pose proof (Snake_check_collision_inv _ _ _ _ _ _ Hbsn Hhit) as [Hiff _].
  apply orb_true_iff.
  destruct (Hiff eq_refl) as [Hout|Hin].
  - left. rewrite Hnew in Hout. unfold wall_towards.
    destruct d; simpl in Hout;
      [apply Z.ltb_lt|apply Z.leb_le|apply Z.ltb_lt|apply Z.leb_le]; lia.
  - right. apply bool_decide_eq_true. rewrite <- Hnew.
    apply Hsub in Hin. apply elem_of_cons in Hin as [Heq|Hin]; [|done].
    exfalso. rewrite Hnew in Heq. destruct snake_head as [hx hy].
    destruct d; simpl in Heq; injection Heq as ? ?; lia.
Qed.

Example wall_ahead_state :
  get_state (set_snake (set_body [(780, 300)] (snake quiet_game)) quiet_game)
  = Ok (true, false, false, false, true, false, true,
        false, false, false, true).
Proof. reflexivity. Qed.

Example wall_ahead_tick :
  (λ g', game_over g') <$>
    value_of (Game_update 10
                (apply_action
                   (set_snake (set_body [(780, 300)] (snake quiet_game))
                      quiet_game) 0) ones)
  = Some true.
Proof. reflexivity. Qed.

Lemma deadly_move_is_flagged_witness :
  danger_flag 0 (true, false, false, false, true, false, true,
                 false, false, false, true) = true.
Proof.
  pose proof wall_ahead_tick as Hrun.
  destruct (Game_update 10
              (apply_action
                 (set_snake (set_body [(780, 300)] (snake quiet_game))
                    quiet_game) 0) ones) as [[g' r']|e] eqn:E;
    [|discriminate Hrun].
  simpl in Hrun. injection Hrun as Hover.
  apply (deadly_move_is_flagged _ _ _ _ _ _ _ wall_ahead_state E);
    [|reflexivity|exact Hover].
  destruct quiet_game_sound as (Hwf & Hlen & Hsp & Harea & Hsn).
  split_and!; try done.
  intros _. split_and!; [done|apply NoDup_singleton|].
  intros c ->%list_elem_of_singleton. by vm_compute.
Defined.

End Encoding.

(** ** The keyboard *)

Section Keyboard.

Implicit Types (g : Game) (key : Key) (events : list Event).

(** X12: neither one key press nor one action of the agent turns the
    snake around: the heading after [handle_input] has seen a single
    key, and after [apply_action], is never the opposite of the heading
    before; and both change nothing but the heading: the game they
    leave is the game they found with its heading set. A key press
    does not stop the game. *)
Theorem single_turn_never_reverses g key action :
  heading (handle_input [KEYDOWN key] g).2 ≠ opposite (heading g)
  ∧ heading (apply_action g action) ≠ opposite (heading g)
  ∧ (handle_input [KEYDOWN key] g).2
    = set_snake (set_snake_direction
                   (heading (handle_input [KEYDOWN key] g).2) (snake g)) g
  ∧ apply_action g action
    = set_snake (set_snake_direction
                   (heading (apply_action g action)) (snake g)) g
  ∧ (handle_input [KEYDOWN key] g).1 = true.
Proof.
  split_and!; [| | |apply apply_action_only_heading|].
  - simpl. unfold handle_key, heading.
    destruct g as [w h bs vis [b d sbs gp] f sc go sp]; simpl.
    destruct key, d; simpl; done.
  - unfold apply_action, heading.
    destruct g as [w h bs vis [b d sbs gp] f sc go sp]; simpl.
    destruct (action =? 1); [by destruct d|].
    destruct (action =? 2); by destruct d.
  - apply handle_input_heading.
  - done.
Qed.

(** X13: two key presses that [handle_input] finds in the same round
    turn the snake around, whatever its heading: the second key is
    checked against the heading the first one has just set, not against
    the direction the snake last moved in. *)
Theorem two_keys_reverse g :
  ∃ key1 key2,
    heading (handle_input [KEYDOWN key1; KEYDOWN key2] g).2
    = opposite (heading g).
Proof.
  unfold heading. destruct g as [w h bs vis [b d sbs gp] f sc go sp].
  destruct d.
  - by exists K_LEFT, K_DOWN.
  - by exists K_LEFT, K_UP.
  - by exists K_UP, K_RIGHT.
  - by exists K_UP, K_LEFT.
Qed.

(** X14: [handle_input] returns [False] exactly when QUIT is among the
    events, and then everything queued behind the first QUIT is
    dropped: the game is the one the events before it leave. *)
Theorem handle_input_quit events g :
  ((handle_input events g).1 = false ↔ QUIT ∈ events)
  ∧ ∀ before behind,
      events = before ++ QUIT :: behind → QUIT ∉ before →
      handle_input events g = (false, (handle_input before g).2).
Proof.
  split.
  - revert g. induction events as [|[|key|] events IH]; intros g; simpl.
    + split; [done|]. by intros ?%elem_of_nil.
    + split; [|done]. intros _. by left.
    + rewrite IH. split; [by right|].
      by intros [?|?]%elem_of_cons.
    + rewrite IH. split; [by right|].
      by intros [?|?]%elem_of_cons.
  - intros before behind -> Hno. revert g.
    induction before as [|[|key|] before IH]; intros g; simpl.
    + done.
    + exfalso. apply Hno. by left.
    + apply IH. intros ?. apply Hno. by right.
    + apply IH. intros ?. apply Hno. by right.
Qed.

End Keyboard.

(** ** What the agent keeps *)

Section AgentLoops.

Implicit Types (g : Game) (r : Random) (ai : SnakeAI) (ep : Episode).

Variable Q : SnakeAI → Prop.
Variable fuel : nat.
Hypothesis Q_get_action :
  ∀ g ai (state : State) r action ai' r',
    get_state g = Ok state →
    get_action ai state r = Ok (action, ai', r') → Q ai → Q ai'.

Lemma play_loop_agent n :
  ∀ frames ai g moves r ai' g' moves' running r',
    play_loop fuel n frames ai g moves r = Ok (ai', g', moves', running, r') →
    Q ai → Q ai'.
Proof.
  induction n as [|n IH]; intros frames ai g moves r ai' g' moves' running r';
    simpl.
  { destruct (game_over g); [|done]. by intros [[= -> -> -> ->] _]%ret_Ok. }
  destruct (game_over g); [by intros [[= -> -> -> ->] _]%ret_Ok|].
  destruct (play_events (hd [] frames));
    [|by intros [[= -> -> -> ->] _]%ret_Ok].
  intros H HQ.
  apply bind_Ok in H as (s0 & r0 & [Hs0 _]%lift_Ok & H).
  apply bind_Ok in H as ([a ai0] & r1 & Hact & H).
  apply bind_Ok in H as (g1 & r2 & _ & H).
  eapply IH; [exact H|]. exact (Q_get_action _ _ _ _ _ _ _ Hs0 Hact HQ).
Qed.

Hypothesis Q_q_update :
  ∀ g g' ai (old_state new_state : State) action reward ai',
    get_state g = Ok old_state → get_state g' = Ok new_state →
    reward = Q2Qc (-10) ∨ reward = Q2Qc 0 ∨ reward = Q2Qc 10 →
    q_update ai old_state action reward new_state = Ok ai' → Q ai → Q ai'.

Lemma calculate_reward_values g old_score new_score steps reward steps' g' :
  calculate_reward g old_score new_score steps = (reward, steps', g') →
  reward = Q2Qc (-10) ∨ reward = Q2Qc 0 ∨ reward = Q2Qc 10.
Proof.
  unfold calculate_reward. repeat case_match; intros [= <- _ _]; auto.
Qed.

Lemma train_iteration_agent ai ep r ai' ep' tr r' :
  train_iteration fuel ai ep r = Ok (ai', ep', tr, r') → Q ai → Q ai'.
Proof.
  intros (ai1 & g & Htick & _ & _ & _ & Hrew & _ & Hupd)%train_iteration_inv HQ.
  unfold play_tick in Htick.
  apply bind_Ok in Htick as (s0 & r0 & [Hs0 _]%lift_Ok & H).
  apply bind_Ok in H as ([a ai0] & r1 & Hact & H).
  apply bind_Ok in H as (g1 & r2 & _ & H).
  apply bind_Ok in H as (s1 & r3 & [Hs1 _]%lift_Ok & H).
  apply ret_Ok in H as [[= E1 E2 Hold _ Hnew] _].
  assert (get_state (game ep) = Ok (tr_old_state tr)) as Hs0' by congruence.
  assert (get_state g1 = Ok (tr_new_state tr)) as Hs1' by congruence.
  eapply Q_q_update;
    [exact Hs0'|exact Hs1'|by eapply calculate_reward_values|exact Hupd|].
  rewrite E1. exact (Q_get_action _ _ _ _ _ _ _ Hs0 Hact HQ).
Qed.

Lemma episode_steps_agent n :
  ∀ ai ep r ai' ep' trs r',
    episode_steps fuel n ai ep r = Ok (ai', ep', trs, r') → Q ai → Q ai'.
Proof.
  induction n as [|n IH]; intros ai ep r ai' ep' trs r'; simpl.
  { by intros [[= -> -> ->] _]%ret_Ok. }
  destruct (game_over (game ep)); [by intros [[= -> -> ->] _]%ret_Ok|].
  intros H HQ.
  apply bind_Ok in H as ([[ai1 ep1] tr1] & r1 & Hit & H).
  apply bind_Ok in H as ([[ai2 ep2] trs2] & r2 & Hrest & H).
  apply ret_Ok in H as [[= -> -> ->] ->].
  eapply IH; [exact Hrest|]. by eapply train_iteration_agent.
Qed.

Hypothesis Q_end_of_episode :
  ∀ ai ep game_num, Q ai → Q (end_of_episode ai ep game_num).

Lemma train_game_agent ai game_num r ai' r' :
  train_game fuel ai game_num r = Ok (ai', r') → Q ai → Q ai'.
Proof.
  unfold train_game. intros H HQ.
  apply bind_Ok in H as (g & r1 & _ & H).
  apply bind_Ok in H as ([[ai1 ep1] trs] & r2 & Hloop & H).
  apply ret_Ok in H as [-> _].
  apply episode_loop_inv in Hloop as [Hsteps _].
  apply Q_end_of_episode. by eapply episode_steps_agent.
Qed.

Lemma train_games_agent game_nums :
  ∀ ai r ai' r',
    train_games fuel ai game_nums r = Ok (ai', r') → Q ai → Q ai'.
Proof.
  induction game_nums as [|game_num rest IH]; intros ai r ai' r'; simpl.
  { by intros [-> _]%ret_Ok. }
  intros H HQ. apply bind_Ok in H as (ai1 & r1 & Hgame & H).
  eapply IH; [exact H|]. by eapply train_game_agent.
Qed.

Hypothesis Q_log_training_start :
  ∀ ai num_games,
    Q ai → Q (set_logger (log_training_start (logger ai) num_games) ai).

Lemma train_agent ai num_games r ai' r' :
  train fuel ai num_games r = Ok (ai', r') → Q ai → Q ai'.
Proof.
  unfold train. intros H HQ.
  eapply train_games_agent; [exact H|]. by apply Q_log_training_start.
Qed.

End AgentLoops.

(** ** The table of action values *)

Section Table.

Implicit Types (g : Game) (r : Random) (ai : SnakeAI) (ep : Episode)
  (t : gmap State (list Qc)).

Lemma random_random_below_1 r :
  ∃ u, random.random r = Ok (u, mkRandom (entropy r) (S (cursor r)))
       ∧ (u < 1)%Qc.
Proof.
  eexists. split; [reflexivity|].
  unfold Qclt; simpl. rewrite !Qred_correct.
  unfold Qlt; simpl.
  pose proof (N.mod_lt (entropy r (cursor r)) (2 ^ 53)%N ltac:(done)) as Hlt.
  apply N2Z.inj_lt in Hlt.
  change (Z.of_N (2 ^ 53)%N) with 9007199254740992 in Hlt. lia.
Qed.

Lemma ensure_state_dom (state : State) t : dom t ⊆ dom (ensure_state state t).
Proof.
  intros k [row Hk]%elem_of_dom. apply elem_of_dom. exists row.
  by apply ensure_state_keeps.
Qed.

(** [get_action] leaves the table alone or gives the state its row of
    zeros. *)
Lemma get_action_table ai (state : State) r action ai' r' :
  get_action ai state r = Ok (action, ai', r') →
  q_table ai' = q_table ai ∨ q_table ai' = ensure_state state (q_table ai).
Proof.
  unfold get_action. intros H.
  apply bind_Ok in H as (u & r1 & _ & H).
  case_bool_decide.
  - apply bind_Ok in H as (a & r2 & _ & H).
    apply ret_Ok in H as [[= _ ->] _]. by left.
  - apply bind_Ok in H as (row & r2 & _ & H).
    apply bind_Ok in H as (a & r3 & _ & H).
    apply ret_Ok in H as [[= _ ->] _]. by right.
Qed.

(** The Bellman assignment, spelled out. *)
Lemma q_update_inv ai (old_state new_state : State) action reward ai' :
  q_update ai old_state action reward new_state = Ok ai' →
  let t := ensure_state new_state (ensure_state old_state (q_table ai)) in
  ∃ row i old_q next_row next_max,
    t !! old_state = Some row
    ∧ row !! i = Some old_q
    ∧ t !! new_state = Some next_row
    ∧ next_max ∈ next_row
    ∧ ai' = set_q_table
              (<[old_state :=
                   <[i := (old_q + learning_rate ai
                                   * (reward + discount_factor ai * next_max
                                      - old_q))%Qc]> row]> t) ai.
Proof.
  intros H. cbv zeta. unfold q_update, dict_get in H.
  set (t := ensure_state new_state (ensure_state old_state (q_table ai))) in *.
  destruct (t !! old_state) as [row|] eqn:Hrow; [|done].
  destruct (py_index row action) as [i|] eqn:Hi; [|done].
  destruct (row !! i) as [old_q|] eqn:Hq; [|done].
  destruct (t !! new_state) as [next_row|] eqn:Hnext; [|done].
  destruct (np_max next_row) as [next_max|] eqn:Hmax; [|done].
  injection H as <-.
  exists row, i, old_q, next_row, next_max. split_and!; try done.
  destruct (np_max_spec next_row) as (m & Hm & Hin & _).
  { intros ->. done. }
  congruence.
Qed.

Lemma q_update_dom ai (old_state new_state : State) action reward ai' :
  q_update ai old_state action reward new_state = Ok ai' →
  dom (q_table ai) ⊆ dom (q_table ai').
Proof.
  intros (row & i & old_q & next_row & next_max & _ & _ & _ & _ & ->)
    %q_update_inv.
  simpl. rewrite dom_insert.
  pose proof (ensure_state_dom old_state (q_table ai)).
  pose proof (ensure_state_dom new_state (ensure_state old_state (q_table ai))).
  set_solver.
Qed.

(** X15: while epsilon is 1 or more, as it is when training starts,
    [get_action] never consults the table: it draws two random words,
    returns the second one modulo 3 and leaves the agent as it was. *)
Theorem get_action_explores ai (state : State) r :
  (1 <= epsilon ai)%Qc →
  get_action ai state r
  = Ok (Z.of_N (entropy r (S (cursor r))) `mod` 3, ai,
        mkRandom (entropy r) (S (S (cursor r)))).
Proof.
  intros Heps.
  destruct (random_random_below_1 r) as (u & Hu & Hlt).
  unfold get_action. rewrite (bind_run _ _ _ _ _ Hu).
  rewrite bool_decide_eq_true_2 by (by eapply Qclt_le_trans).
  unfold random.randint, random.randrange, mbind, M_bind, random.next_word.
  change (2 + 1 - 0 + 1 - 1) with 3. change (3 `div` 1) with 3. simpl.
  unfold mret, M_ret. do 3 f_equal.
  generalize (Z.of_N (entropy r (S (cursor r))) `mod` 3). lia.
Qed.

Lemma get_action_explores_witness :
  get_action SnakeAI_init sample_state ones
  = Ok (1, SnakeAI_init, mkRandom (entropy ones) 2).
Proof. apply (get_action_explores SnakeAI_init sample_state ones). done. Defined.

(** X16: training never forgets a state and never touches the
    parameters: after [train] every state that had a row still has one,
    every row still holds three action values, and learning rate,
    discount factor, decay and floor of epsilon are the ones it was
    called with. *)
Theorem training_never_forgets_states fuel ai num_games r ai' r' :
  train fuel ai num_games r = Ok (ai', r') →
  table_wf (q_table ai) →
  table_wf (q_table ai')
  ∧ dom (q_table ai) ⊆ dom (q_table ai')
  ∧ learning_rate ai' = learning_rate ai
  ∧ discount_factor ai' = discount_factor ai
  ∧ epsilon_decay ai' = epsilon_decay ai
  ∧ epsilon_min ai' = epsilon_min ai.
Proof.
  intros H Hwf.
  apply (train_agent
           (λ a, table_wf (q_table a)
                 ∧ dom (q_table ai) ⊆ dom (q_table a)
                 ∧ learning_rate a = learning_rate ai
                 ∧ discount_factor a = discount_factor ai
                 ∧ epsilon_decay a = epsilon_decay ai
                 ∧ epsilon_min a = epsilon_min ai) fuel) in H; [done| | | | |done].
  - intros _ a state r0 action a' r0' _ Hact (Hw & Hd & Hp).
    split; [by eapply get_action_wf|].
    rewrite (get_action_frame _ _ _ _ _ _ Hact). simpl. split; [|done].
    destruct (get_action_table _ _ _ _ _ _ Hact) as [->| ->]; [done|].
    etrans; [exact Hd|apply ensure_state_dom].
  - intros _ _ a old_state new_state action reward a' _ _ _ Hupd (Hw & Hd & Hp).
    split; [by eapply q_update_wf|].
    split; [etrans; [exact Hd|by eapply q_update_dom]|].
    by rewrite (q_update_frame _ _ _ _ _ _ Hupd).
  - intros a ep game_num (Hw & Hd & Hp).
    rewrite end_of_episode_q_table. split_and!; try done;
      unfold end_of_episode;
      destruct (decay_epsilon_keeps
                  (set_logger
                     (log_game_result (logger a) (game_num + 1)
                        (score (game ep)) (size (q_table a)) (epsilon a)) a))
        as (E1 & E2 & _);
      unfold decay_epsilon in *; case_bool_decide; simpl in *; tauto.
  - by intros a n.
Qed.

Lemma training_never_forgets_states_witness :
  ∃ ai' r',
    train 200 SnakeAI_init 3 ones = Ok (ai', r')
    ∧ table_wf (q_table ai')
    ∧ learning_rate ai' = learning_rate SnakeAI_init.
Proof.
  pose proof train_three_games as Hrun.
  destruct (train 200 SnakeAI_init 3 ones) as [[ai' r']|e] eqn:E;
    [|discriminate Hrun].
  exists ai', r'. split; [reflexivity|].
  destruct (training_never_forgets_states _ _ _ _ _ _ E table_wf_empty)
    as (H1 & _ & H2 & _).
  exact (conj H1 H2).
Defined.

End Table.

(** ** Bounded action values *)

Section Bounded.

Implicit Types (r : Random) (ai : SnakeAI) (t : gmap State (list Qc)).

Lemma bellman_bound (lr df B reward next_max old_q : Q) :
  (0 <= lr)%Q → (lr <= 1)%Q → (0 <= df)%Q → (10 + df * B <= B)%Q →
  (-10 <= reward)%Q → (reward <= 10)%Q →
  (- B <= old_q)%Q → (old_q <= B)%Q →
  (- B <= next_max)%Q → (next_max <= B)%Q →
  (- B <= old_q + lr * (reward + df * next_max - old_q))%Q
  ∧ (old_q + lr * (reward + df * next_max - old_q) <= B)%Q.
Proof.
  intros Hlr0 Hlr1 Hdf HB Hr0 Hr1 Ho0 Ho1 Hn0 Hn1.
  assert (0 <= df * (B - next_max))%Q by (apply Qmult_le_0_compat; lra).
  assert (0 <= df * (B + next_max))%Q by (apply Qmult_le_0_compat; lra).
  assert (0 <= lr * (B - (reward + df * next_max)))%Q
    by (apply Qmult_le_0_compat; lra).
  assert (0 <= lr * (B + (reward + df * next_max)))%Q
    by (apply Qmult_le_0_compat; lra).
  assert (0 <= (1 - lr) * (B - old_q))%Q by (apply Qmult_le_0_compat; lra).
  assert (0 <= (1 - lr) * (B + old_q))%Q by (apply Qmult_le_0_compat; lra).
  split; lra.
Qed.

Variables (lr df B : Qc).
Hypothesis lr_nonneg : (0 <= lr)%Qc.
Hypothesis lr_le_1 : (lr <= 1)%Qc.
Hypothesis df_nonneg : (0 <= df)%Qc.
Hypothesis B_nonneg : (0 <= B)%Qc.
Hypothesis B_closed : (Q2Qc 10 + df * B <= B)%Qc.

Lemma table_bounded_ensure_state (state : State) t :
  table_bounded B t → table_bounded B (ensure_state state t).
Proof.
  intros Hb s row v. unfold ensure_state.
  destruct (t !! state) eqn:E; [apply Hb|].
  destruct (decide (state = s)) as [->|Hne].
  - rewrite lookup_insert_eq. intros [= <-] Hv.
    assert (v = Q2Qc 0) as ->.
    { repeat (apply elem_of_cons in Hv as [->|Hv]; [done|]).
      by apply elem_of_nil in Hv. }
    revert B_nonneg. clear. qc_to_q. intros. split; lra.
  - rewrite lookup_insert_ne by done. apply Hb.
Qed.

Lemma q_update_bounded ai (old_state new_state : State) action reward ai' :
  reward = Q2Qc (-10) ∨ reward = Q2Qc 0 ∨ reward = Q2Qc 10 →
  q_update ai old_state action reward new_state = Ok ai' →
  learning_rate ai = lr → discount_factor ai = df →
  table_bounded B (q_table ai) → table_bounded B (q_table ai').
Proof.
  intros Hrew Hupd Hlr Hdf Hb.
  apply q_update_inv in Hupd
    as (row & i & old_q & next_row & next_max & Hrow & Hq & Hnext & Hmax & ->).
  simpl. rewrite Hlr, Hdf.
  assert (table_bounded B
            (ensure_state new_state (ensure_state old_state (q_table ai))))
    as Hb' by (by do 2 apply table_bounded_ensure_state).
  intros s row' v. destruct (decide (old_state = s)) as [->|Hne].
  2: { rewrite lookup_insert_ne by done. apply Hb'. }
  rewrite lookup_insert_eq. intros [= <-] Hv.
  apply list_elem_of_lookup in Hv as [j Hj].
  apply list_lookup_insert_Some in Hj as [(-> & <- & _)|[_ Hj]].
  2: { eapply Hb'; [exact Hrow|]. by eapply list_elem_of_lookup_2. }
  destruct (Hb' _ _ old_q Hrow) as [Ho0 Ho1];
    [by eapply list_elem_of_lookup_2|].
  destruct (Hb' _ _ next_max Hnext Hmax) as [Hn0 Hn1].
  assert ((Q2Qc (-10) <= reward)%Qc ∧ (reward <= Q2Qc 10)%Qc) as [Hr0 Hr1].
  { destruct Hrew as [->|[->| ->]]; by split. }
  revert lr_nonneg lr_le_1 df_nonneg B_closed Ho0 Ho1 Hn0 Hn1 Hr0 Hr1.
  clear. qc_to_q. intros. apply bellman_bound; lra.
Qed.

Lemma train_bounded fuel ai num_games r ai' r' :
  train fuel ai num_games r = Ok (ai', r') →
  learning_rate ai = lr → discount_factor ai = df →
  table_bounded B (q_table ai) → table_bounded B (q_table ai').
Proof.
  intros H Hlr Hdf Hb.
  apply (train_agent
           (λ a, learning_rate a = lr ∧ discount_factor a = df
                 ∧ table_bounded B (q_table a)) fuel) in H;
    [by destruct H as (_ & _ & ?)| | | | |done].
  - intros _ a state r0 action a' r0' _ Hact (E1 & E2 & Hba).
    rewrite (get_action_frame _ _ _ _ _ _ Hact). simpl.
    split_and!; try done.
    destruct (get_action_table _ _ _ _ _ _ Hact) as [->| ->]; [done|].
    by apply table_bounded_ensure_state.
  - intros _ _ a old_state new_state action reward a' _ _ Hrew Hupd
      (E1 & E2 & Hba).
    split_and!; [by rewrite (q_update_frame _ _ _ _ _ _ Hupd)
                |by rewrite (q_update_frame _ _ _ _ _ _ Hupd)|].
    by eapply q_update_bounded.
  - intros a ep game_num (E1 & E2 & Hba).
    rewrite end_of_episode_q_table. split_and!; try done;
      unfold end_of_episode, decay_epsilon; by case_bool_decide.
  - by intros a n.
Qed.

End Bounded.

Section BoundedValues.

(** X17: the action values stay bounded. For a learning rate between 0
    and 1, a discount factor of 0 or more and a bound [B]
    of 0 or more with [10 + discount_factor * B <= B], a table whose
    values lie between [- B] and [B] still has all its values there
    after [train]; with the parameters of [SnakeAI()] that is every [B]
    from 200 on. *)
Theorem training_keeps_values_bounded (B : Qc) fuel ai num_games r ai' r' :
  train fuel ai num_games r = Ok (ai', r') →
  (0 <= learning_rate ai)%Qc → (learning_rate ai <= 1)%Qc →
  (0 <= discount_factor ai)%Qc →
  (0 <= B)%Qc →
  (Q2Qc 10 + discount_factor ai * B <= B)%Qc →
  table_bounded B (q_table ai) →
  table_bounded B (q_table ai').
Proof.
  intros H H1 H2 H3 H4 H5 Hb.
  by eapply (train_bounded (learning_rate ai) (discount_factor ai) B).
Qed.

Lemma training_keeps_values_bounded_witness :
  ∃ ai' r',
    train 200 SnakeAI_init 3 ones = Ok (ai', r')
    ∧ table_bounded (Q2Qc 200) (q_table ai').
Proof.
  pose proof train_three_games as Hrun.
  destruct (train 200 SnakeAI_init 3 ones) as [[ai' r']|e] eqn:E;
    [|discriminate Hrun].
  exists ai', r'. split; [reflexivity|].
  by apply (training_keeps_values_bounded (Q2Qc 200) _ _ _ _ _ _ E).
Defined.

End BoundedValues.

(** ** Rewards and the length of an episode *)

Section Episodes.

Implicit Types (g : Game) (r : Random) (ai : SnakeAI) (ep : Episode)
  (tr : Transition).

(** The game is over after a round exactly when the round was given
    the penalty. *)
Lemma train_iteration_penalty fuel ai ep r ai' ep' tr r' :
  train_iteration fuel ai ep r = Ok (ai', ep', tr, r') →
  (game_over (game ep') = true ↔ tr_reward tr = Q2Qc (-10))
  ∧ (tr_terminal tr = true → game_over (game ep') = true).
Proof.
  intros (ai1 & g & _ & _ & _ & Hterm & Hrew & _)%train_iteration_inv.
  rewrite Hterm. unfold calculate_reward in Hrew.
  destruct (game_over g) eqn:Hgo.
  { injection Hrew as <- _ <-. by rewrite Hgo. }
  destruct (_ <? _).
  { injection Hrew as <- _ <-. by rewrite Hgo. }
  destruct (100 <? _).
  - by injection Hrew as <- _ <-.
  - injection Hrew as <- _ <-. by rewrite Hgo.
Qed.

Lemma episode_steps_over fuel n ai ep r :
  game_over (game ep) = true →
  episode_steps fuel n ai ep r = Ok (ai, ep, [], r).
Proof. intros Hgo. destruct n; simpl; [done|]. by rewrite Hgo. Qed.

Lemma episode_steps_penalty fuel n :
  ∀ ai ep r ai' ep' trs r',
    episode_steps fuel n ai ep r = Ok (ai', ep', trs, r') →
    game_over (game ep) = false → game_over (game ep') = true →
    ∃ pre final,
      trs = pre ++ [final]
      ∧ tr_reward final = Q2Qc (-10)
      ∧ Forall (λ tr, tr_reward tr ≠ Q2Qc (-10) ∧ tr_terminal tr = false) pre.
Proof.
  induction n as [|n IH]; intros ai ep r ai' ep' trs r'; simpl.
  { intros [[= -> -> ->] _]%ret_Ok. congruence. }
  intros H Hgo Hgo'. rewrite Hgo in H.
  apply bind_Ok in H as ([[ai1 ep1] tr1] & r1 & Hit & H).
  apply bind_Ok in H as ([[ai2 ep2] trs2] & r2 & Hrest & H).
  apply ret_Ok in H as [[= -> -> ->] ->].
  destruct (train_iteration_penalty _ _ _ _ _ _ _ _ Hit) as [Hpen Hterm].
  destruct (game_over (game ep1)) eqn:Hgo1.
  - rewrite episode_steps_over in Hrest by done.
    injection Hrest as _ _ <- _.
    exists [], tr1. split_and!; [done|by apply Hpen|constructor].
  - destruct (IH _ _ _ _ _ _ _ Hrest Hgo1 Hgo') as (pre & final & -> & Hf & Hpre).
    exists (tr1 :: pre), final. split_and!; [done|done|].
    constructor; [|done]. split.
    + intros Hr. apply Hpen in Hr. congruence.
    + destruct (tr_terminal tr1); [|done].
      specialize (Hterm eq_refl). congruence.
Qed.

(** X18: the penalty ends the episode and every episode ends with the
    penalty. The transitions of a run of [while not game.game_over] to
    its end are some transitions whose reward is not -10 and whose tick
    did not end the game, followed by one last transition whose reward
    is -10. *)
Theorem penalty_exactly_at_the_end fuel ai ep r ai' ep' trs r' :
  episode_loop fuel ai ep r = Ok (ai', ep', trs, r') →
  game_over (game ep) = false →
  ∃ pre final,
    trs = pre ++ [final]
    ∧ tr_reward final = Q2Qc (-10)
    ∧ Forall (λ tr, tr_reward tr ≠ Q2Qc (-10) ∧ tr_terminal tr = false) pre.
Proof.
  intros [Hsteps Hgo']%episode_loop_inv Hgo.
  by eapply episode_steps_penalty.
Qed.

Lemma penalty_exactly_at_the_end_witness :
  ∃ ai' ep' trs r' pre final,
    episode_loop 30 (set_epsilon (Q2Qc 0) SnakeAI_init)
                 (mkEpisode (centred_game 800 600 20 (60, 60)) 0 0) ones
    = Ok (ai', ep', trs, r')
    ∧ trs = pre ++ [final]
    ∧ tr_reward final = Q2Qc (-10).
Proof.
  pose proof wall_collision_episode as Hrun.
  destruct (episode_loop 30 (set_epsilon (Q2Qc 0) SnakeAI_init)
              (mkEpisode (centred_game 800 600 20 (60, 60)) 0 0) ones)
    as [[[[ai' ep'] trs] r']|e] eqn:E; [|discriminate Hrun].
  destruct (penalty_exactly_at_the_end _ _ _ _ _ _ _ _ E eq_refl)
    as (pre & final & H1 & H2 & _).
  exists ai', ep', trs, r', pre, final. split; [reflexivity|].
  exact (conj H1 H2).
Defined.

Lemma Game_update_score_step fuel g r g' r' :
  Game_update fuel g r = Ok (g', r') →
  score g' = score g ∨ score g' = score g + points (fruit g).
Proof.
  intros [(_ & -> & _)|(_ & sn & new_head & rest & _ & _ & Hcases)]
    %Game_update_cases; [by left|].
  destruct Hcases as [(_ & -> & _)|[(_ & _ & -> & _)|(_ & _ & Hfruit)]];
    [by left|by left|].
  destruct Hfruit as (f1 & r1 & f2 & _ & _ & ->). by right.
Qed.

Lemma score_ups_snoc trs tr :
  score_ups (trs ++ [tr])
  = (score_ups trs + if scored tr then 1 else 0)%nat.
Proof.
  unfold score_ups. rewrite List.filter_app, length_app. simpl.
  by destruct (scored tr).
Qed.

Lemma episode_steps_count fuel trs :
  ∀ n ai ep r ai' ep' r',
    episode_steps fuel n ai ep r = Ok (ai', ep', trs, r') →
    steps_without_fruit ep = 0 → game_sound (game ep) →
    moves_made ep' = moves_made ep + Z.of_nat (length trs)
    ∧ score (game ep') = score (game ep) + Z.of_nat (score_ups trs)
    ∧ (length trs ≤ 101 * score_ups trs + stall trs)%nat
    ∧ (stall trs ≤ 101)%nat.
Proof.
  induction trs as [|tr trs IH] using rev_ind;
    intros n ai ep r ai' ep' r' Hrun Hsteps Hsound.
  { apply episode_steps_nil in Hrun as (_ & -> & _).
    unfold score_ups, stall; simpl. lia. }
  apply episode_steps_snoc in Hrun
    as (m & ai0 & ep0 & r0 & Hpre & Hgo0 & Hit).
  destruct (IH _ _ _ _ _ _ _ Hpre Hsteps Hsound) as (Hm & Hs & Hlen & _).
  destruct (stall_counter _ _ _ _ _ _ _ _ _ Hpre Hsteps Hgo0) as [_ Hstall].
  assert (game_sound (game ep0)) as Hsound0.
  { apply (episode_steps_game game_sound fuel) in Hpre; [done| | | |done].
    - intros. by apply apply_action_sound.
    - intros. by eapply Game_update_sound.
    - intros. by apply set_game_over_sound. }
  apply train_iteration_inv in Hit
    as (ai1 & g & Htick & Hold & Hnew & _ & Hrew & Hmoves & _).
  assert (score (game ep') = score g) as Hsc.
  { unfold calculate_reward in Hrew.
    repeat case_match; by injection Hrew as _ _ <-. }
  assert (score g = score (game ep0) ∨ score g = score (game ep0) + 1) as Hg.
  { unfold play_tick in Htick.
    apply bind_Ok in Htick as (s0 & r1 & _ & H).
    apply bind_Ok in H as ([a ai2] & r2 & _ & H).
    apply bind_Ok in H as (g1 & r3 & Hupd & H).
    apply bind_Ok in H as (s1 & r4 & _ & H).
    apply ret_Ok in H as [[= _ -> _ _ _] _].
    apply Game_update_score_step in Hupd.
    rewrite (apply_action_only_heading (game ep0) a) in Hupd. simpl in Hupd.
    destruct Hsound0 as ((_ & _ & _ & _ & _ & Hpts) & _).
    rewrite Hpts in Hupd. done. }
  rewrite length_app, score_ups_snoc, stall_snoc. simpl length.
  unfold scored. rewrite Hold, Hnew.
  destruct (Z.ltb_spec (score (game ep0)) (score g)); split_and!; lia.
Qed.

(** X19: an episode is at most 101 ticks longer than 101 times its
    score. After any number of rounds of the training loop on a new
    game, [moves_made] is the number of rounds, the score is the number
    of rounds in which it went up, and the number of rounds is at most
    [101 * (score + 1)]. *)
Theorem episode_length_bounded_by_score fuel n ai r ai' ep' trs r' :
  episode_prefix fuel n ai r = Ok (ai', ep', trs, r') →
  moves_made ep' = Z.of_nat (length trs)
  ∧ score (game ep') = Z.of_nat (score_ups trs)
  ∧ Z.of_nat (length trs) ≤ 101 * (score (game ep') + 1).
Proof.
  unfold episode_prefix. intros H.
  apply bind_Ok in H as (g & r1 & Hinit & H).
  pose proof (Game_init_sound _ _ _ _ _ _ Hinit) as Hsound.
  apply Game_init_inv in Hinit as (f & -> & _).
  destruct (episode_steps_count _ _ _ _ _ _ _ _ _ H eq_refl Hsound)
    as (Hm & Hs & Hlen & Hstall).
  simpl in Hm, Hs. split_and!; lia.
Qed.

Lemma episode_length_bounded_by_score_witness :
  ∃ ai' ep' trs r',
    episode_prefix 10 3 SnakeAI_init ones = Ok (ai', ep', trs, r')
    ∧ moves_made ep' = Z.of_nat (length trs)
    ∧ Z.of_nat (length trs) ≤ 101 * (score (game ep') + 1).
Proof.
  pose proof three_training_ticks as Hok.
  destruct (episode_prefix 10 3 SnakeAI_init ones)
    as [[[[ai' ep'] trs] r']|e] eqn:E; [|discriminate Hok].
  exists ai', ep', trs, r'. split; [reflexivity|].
  destruct (episode_length_bounded_by_score _ _ _ _ _ _ _ _ E)
    as (H1 & _ & H2).
  exact (conj H1 H2).
Defined.

End Episodes.

(** ** The exploration rate after training *)

Section EpsilonBounds.

Implicit Types (ai : SnakeAI) (n : nat).

Lemma epsilon_after_bounds ai n :
  (0 <= epsilon_decay ai)%Qc → (epsilon_decay ai <= 1)%Qc →
  (0 <= epsilon_min ai)%Qc → (epsilon_min ai <= epsilon ai)%Qc →
  (epsilon_after n ai <= epsilon ai)%Qc
  ∧ (epsilon_min ai * epsilon_decay ai <= epsilon_after n ai)%Qc.
Proof.
  intros Hd0 Hd1 Hm0 Hm.
  induction n as [|n [IH1 IH2]].
  - unfold epsilon_after; simpl. split; [apply Qcle_refl|].
    revert Hd0 Hd1 Hm0 Hm.
    generalize (epsilon ai), (epsilon_min ai), (epsilon_decay ai).
    intros e m d. qc_to_q. intros. nra.
  - rewrite epsilon_after_succ. case_bool_decide as Hlt; [|done].
    revert Hd0 Hd1 Hm0 Hm IH1 IH2 Hlt.
    generalize (epsilon_after n ai), (epsilon ai), (epsilon_min ai),
      (epsilon_decay ai).
    intros e' e m d. qc_to_q. intros. split; nra.
Qed.

(** X20: decay never pushes epsilon far below its floor. With a decay
    factor between 0 and 1 and epsilon at or above a floor of 0 or
    more, epsilon after [train] is at most what it was before and at
    least [epsilon_min * epsilon_decay]. *)
Theorem training_epsilon_bounds fuel ai num_games r ai' r' :
  train fuel ai num_games r = Ok (ai', r') →
  (0 <= epsilon_decay ai)%Qc → (epsilon_decay ai <= 1)%Qc →
  (0 <= epsilon_min ai)%Qc → (epsilon_min ai <= epsilon ai)%Qc →
  (epsilon ai' <= epsilon ai)%Qc
  ∧ (epsilon_min ai * epsilon_decay ai <= epsilon ai')%Qc.
Proof.
  intros H Hd0 Hd1 Hm0 Hm. rewrite (train_epsilon _ _ _ _ _ _ H).
  by apply epsilon_after_bounds.
Qed.

Lemma training_epsilon_bounds_witness :
  ∃ ai' r',
    train 200 SnakeAI_init 3 ones = Ok (ai', r')
    ∧ (epsilon ai' <= 1)%Qc
    ∧ (Q2Qc (1 # 100) * Q2Qc (998 # 1000) <= epsilon ai')%Qc.
Proof.
  pose proof train_three_games as Hrun.
  destruct (train 200 SnakeAI_init 3 ones) as [[ai' r']|e] eqn:E;
    [|discriminate Hrun].
  exists ai', r'. split; [reflexivity|].
  by apply (training_epsilon_bounds _ _ _ _ _ _ E).
Defined.

End EpsilonBounds.

(** ** The statistics of a training session *)

Section Statistics.

Implicit Types (ai : SnakeAI) (lg : SnakeLogger) (r : Random).

Lemma max_score_nonneg scores : 0 ≤ max_score scores.
Proof. induction scores as [|x l IH]; simpl; lia. Qed.

Lemma max_score_snoc scores sc :
  max_score (scores ++ [sc]) = Z.max (max_score scores) sc.
Proof.
  unfold max_score. induction scores as [|x l IH]; simpl; [lia|].
  rewrite IH. lia.
Qed.

Lemma log_game_result_best lg game_number sc q_table_size eps :
  best_score lg = max_score (scores_history lg) →
  best_score (log_game_result lg game_number sc q_table_size eps)
  = max_score (scores_history (log_game_result lg game_number sc
                                 q_table_size eps)).
Proof.
  intros Hbest. simpl. rewrite max_score_snoc, <- Hbest.
  destruct (Z.ltb_spec (best_score lg) sc); lia.
Qed.

(** One round of the [for] loop, spelled out: the agent the [while]
    loop leaves differs from the one it started from in the table
    only. *)
Lemma train_game_inv fuel ai game_num r ai' r' :
  train_game fuel ai game_num r = Ok (ai', r') →
  ∃ ai1 ep1,
    ai' = end_of_episode ai1 ep1 game_num
    ∧ ai1 = set_q_table (q_table ai1) ai.
Proof.
  unfold train_game. intros H.
  apply bind_Ok in H as (g & r1 & _ & H).
  apply bind_Ok in H as ([[ai1 ep1] trs] & r2 & Hloop & H).
  apply ret_Ok in H as [-> _].
  apply episode_loop_inv in Hloop as [Hsteps _].
  exists ai1, ep1. split; [done|]. by eapply episode_steps_frame.
Qed.

Lemma end_of_episode_logger ai ep game_num :
  logger (end_of_episode ai ep game_num)
  = log_game_result (logger ai) (game_num + 1) (score (game ep))
                    (size (q_table ai)) (epsilon ai).
Proof. unfold end_of_episode, decay_epsilon. by case_bool_decide. Qed.

(** What the rounds of the [for] loop add to the statistics. *)
Lemma train_games_logger fuel game_nums :
  ∀ ai r ai' r',
    train_games fuel ai game_nums r = Ok (ai', r') →
    ∃ scores sizes,
      scores_history (logger ai') = scores_history (logger ai) ++ scores
      ∧ q_table_sizes (logger ai') = q_table_sizes (logger ai) ++ sizes
      ∧ length scores = length game_nums
      ∧ length sizes = length game_nums
      ∧ total_games (logger ai') = total_games (logger ai)
      ∧ (game_nums ≠ [] → last sizes = Some (size (q_table ai')))
      ∧ (best_score (logger ai) = max_score (scores_history (logger ai)) →
         best_score (logger ai') = max_score (scores_history (logger ai'))).
Proof.
  induction game_nums as [|game_num rest IH]; intros ai r ai' r'; simpl.
  { intros [-> _]%ret_Ok. exists [], []. by rewrite !app_nil_r. }
  intros H. apply bind_Ok in H as (ai1 & r1 & Hgame & H).
  destruct (IH _ _ _ _ H)
    as (scores & sizes & Hsc & Hsz & Hlen1 & Hlen2 & Htot & Hlast & Hbest).
  apply train_game_inv in Hgame as (ai0 & ep0 & -> & Hframe).
  rewrite end_of_episode_logger in Hsc, Hsz, Htot, Hbest.
  assert (logger ai0 = logger ai) as Hlg by (by rewrite Hframe).
  rewrite Hlg in Hsc, Hsz, Htot, Hbest. simpl in Hsc, Hsz, Htot.
  exists (score (game ep0) :: scores), (size (q_table ai0) :: sizes).
  split_and!.
  - by rewrite Hsc, <- app_assoc.
  - by rewrite Hsz, <- app_assoc.
  - simpl. by rewrite Hlen1.
  - simpl. by rewrite Hlen2.
  - done.
  - intros _. destruct rest as [|game_num' rest'].
    + destruct sizes; [|done]. apply ret_Ok in H as [-> _].
      by rewrite end_of_episode_q_table.
    + rewrite last_cons. by rewrite Hlast.
  - intros Hb. apply Hbest.
    by apply (log_game_result_best (logger ai)).
Qed.

(** X21: [train] logs every game once: afterwards the statistics hold
    the number of games announced, and one more score and one more
    table size per game played, behind those that were there. *)
Theorem train_logs_every_game fuel ai num_games r ai' r' :
  train fuel ai num_games r = Ok (ai', r') →
  ∃ scores sizes,
    scores_history (logger ai') = scores_history (logger ai) ++ scores
    ∧ q_table_sizes (logger ai') = q_table_sizes (logger ai) ++ sizes
    ∧ length scores = Z.to_nat num_games
    ∧ length sizes = Z.to_nat num_games
    ∧ total_games (logger ai') = num_games.
Proof.
  unfold train. intros H.
  apply train_games_logger in H
    as (scores & sizes & Hsc & Hsz & Hlen1 & Hlen2 & Htot & _).
  rewrite length_seqZ in Hlen1, Hlen2.
  exists scores, sizes. split_and!; try done; lia.
Qed.

Lemma train_logs_every_game_witness :
  ∃ ai' r',
    train 200 SnakeAI_init 3 ones = Ok (ai', r')
    ∧ length (scores_history (logger ai')) = 3%nat
    ∧ total_games (logger ai') = 3.
Proof.
  pose proof train_three_games as Hrun.
  destruct (train 200 SnakeAI_init 3 ones) as [[ai' r']|e] eqn:E;
    [|discriminate Hrun].
  exists ai', r'. split; [reflexivity|].
  destruct (train_logs_every_game _ _ _ _ _ _ E)
    as (scores & sizes & Hsc & _ & Hlen & _ & Htot).
  split; [|exact Htot]. rewrite Hsc. exact Hlen.
Defined.

(** X22: the best score of the statistics is the largest of 0 and the
    scores logged: that holds for the statistics of a new logger, and
    when it holds before [train] it holds after. *)
Theorem best_score_is_max_score fuel ai num_games r ai' r' :
  train fuel ai num_games r = Ok (ai', r') →
  best_score (logger ai) = max_score (scores_history (logger ai)) →
  best_score (logger ai') = max_score (scores_history (logger ai'))
  ∧ best_score SnakeLogger_init = max_score (scores_history SnakeLogger_init).
Proof.
  unfold train. intros H Hbest. split; [|done].
  apply train_games_logger in H as (_ & _ & _ & _ & _ & _ & _ & _ & Hb).
  by apply Hb.
Qed.

Lemma best_score_is_max_score_witness :
  ∃ ai' r',
    train 200 SnakeAI_init 3 ones = Ok (ai', r')
    ∧ best_score (logger ai') = max_score (scores_history (logger ai')).
Proof.
  pose proof train_three_games as Hrun.
  destruct (train 200 SnakeAI_init 3 ones) as [[ai' r']|e] eqn:E;
    [|discriminate Hrun].
  exists ai', r'. split; [reflexivity|].
  by destruct (best_score_is_max_score _ _ _ _ _ _ E eq_refl).
Defined.

(** X23: what [log_training_end] finds after [train] on an agent with
    a new logger. When no game was played ([num_games] is 0 or less)
    the average divides by zero and [log_training_end] raises
    [ZeroDivisionError]. Otherwise it logs its summary: the number of
    games, the best score, the sum of [num_games] scores, and as final
    table size the size of the table the agent ends with. In both cases
    [get_training_summary] returns, with the number of scores as
    [total_games]. *)
Theorem log_training_end_after_train fuel ai num_games r ai' r' :
  train fuel ai num_games r = Ok (ai', r') →
  logger ai = SnakeLogger_init →
  log_training_end (logger ai')
  = (if bool_decide (num_games ≤ 0) then ZeroDivisionError
     else LogSummary num_games
                     (max_score (scores_history (logger ai')))
                     (foldr Z.add 0 (scores_history (logger ai')))
                     (Z.to_nat num_games) (size (q_table ai')))
  ∧ get_training_summary (logger ai')
    = (max_score (scores_history (logger ai')),
       foldr Z.add 0 (scores_history (logger ai')),
       Nat.max (Z.to_nat num_games) 1,
       Z.to_nat num_games,
       if bool_decide (num_games ≤ 0) then 0%nat else size (q_table ai')).
Proof.
  unfold train. intros H Hlg.
  apply train_games_logger in H
    as (scores & sizes & Hsc & Hsz & Hlen1 & Hlen2 & Htot & Hlast & Hbest).
  simpl in Hsc, Hsz, Htot, Hlast, Hbest. rewrite Hlg in Hsc, Hsz, Hbest.
  simpl in Hsc, Hsz. specialize (Hbest eq_refl).
  rewrite length_seqZ in Hlen1, Hlen2.
  unfold log_training_end, get_training_summary.
  rewrite Hbest, Htot, Hsz, Hsc.
  case_bool_decide as Hn.
  - destruct scores; [|simpl in Hlen1; lia].
    destruct sizes; [|simpl in Hlen2; lia].
    by replace (Z.to_nat num_games) with 0%nat by lia.
  - rewrite Hlast.
    2: { intros Hnil. apply (f_equal length) in Hnil.
         rewrite length_seqZ in Hnil. simpl in Hnil. lia. }
    rewrite <- Hlen1. by destruct scores; [simpl in Hlen1; lia|].
Qed.

Example train_no_game : succeeds (train 10 SnakeAI_init 0 ones) = true.
Proof. reflexivity. Qed.

Lemma log_training_end_after_train_witness :
  ∃ ai' r',
    train 10 SnakeAI_init 0 ones = Ok (ai', r')
    ∧ log_training_end (logger ai') = ZeroDivisionError.
Proof.
  pose proof train_no_game as Hok.
  destruct (train 10 SnakeAI_init 0 ones) as [[ai' r']|e] eqn:E;
    [|discriminate Hok].
  exists ai', r'. split; [reflexivity|].
  by destruct (log_training_end_after_train _ _ _ _ _ _ E eq_refl) as [-> _].
Defined.

End Statistics.

(** ** Watching the agent play *)

Section Play.

Implicit Types (g : Game) (ai : SnakeAI) (r : Random).

(** X24: [play] does not learn and does not stop exploring: the agent
    it leaves differs from the one it was called on in the table only,
    so epsilon, the other parameters and the statistics are as before;
    in the table every row that was there is unchanged, and every row
    that was not there holds three zeros. *)
Theorem play_keeps_what_was_learned fuel frames ai r ai' g moves running r' :
  play fuel frames ai r = Ok (ai', g, moves, running, r') →
  ai' = set_q_table (q_table ai') ai
  ∧ (∀ (s : State) row, q_table ai !! s = Some row →
       q_table ai' !! s = Some row)
  ∧ (∀ (s : State) row, q_table ai' !! s = Some row →
       q_table ai !! s = Some row ∨ row = [Q2Qc 0; Q2Qc 0; Q2Qc 0]).
Proof.
  unfold play. intros H.
  apply bind_Ok in H as (g0 & r1 & _ & H).
  apply (play_loop_agent
           (λ a, a = set_q_table (q_table a) ai
                 ∧ (∀ (s : State) row, q_table ai !! s = Some row →
                      q_table a !! s = Some row)
                 ∧ (∀ (s : State) row, q_table a !! s = Some row →
                      q_table ai !! s = Some row
                      ∨ row = [Q2Qc 0; Q2Qc 0; Q2Qc 0])) fuel) in H;
    [done| |destruct ai; split_and!; [done|done|intros; by left]].
  intros _ a state r0 action a' r0' _ Hact (Hframe & Hkeep & Hnew).
  split_and!.
  - rewrite (get_action_frame _ _ _ _ _ _ Hact) at 1.
    rewrite Hframe at 1. done.
  - intros s row Hs.
    destruct (get_action_table _ _ _ _ _ _ Hact) as [->| ->]; [by apply Hkeep|].
    apply ensure_state_keeps. by apply Hkeep.
  - intros s row.
    destruct (get_action_table _ _ _ _ _ _ Hact) as [->| ->]; [by apply Hnew|].
    unfold ensure_state. destruct (q_table a !! state) eqn:Hstate;
      [by apply Hnew|].
    destruct (decide (state = s)) as [->|Hne].
    + rewrite lookup_insert_eq. intros [= <-]. by right.
    + rewrite lookup_insert_ne by done. by apply Hnew.
Qed.

Lemma play_keeps_what_was_learned_witness :
  ∃ ai' g moves running r',
    play 10 [[]; [OtherEvent; KEYDOWN K_ESCAPE]] SnakeAI_init ones
    = Ok (ai', g, moves, running, r')
    ∧ epsilon ai' = epsilon SnakeAI_init.
Proof.
  pose proof short_demonstration as Hok.
  destruct (play 10 [[]; [OtherEvent; KEYDOWN K_ESCAPE]] SnakeAI_init ones)
    as [[[[[ai' g] moves] running] r']|e] eqn:E; [|discriminate Hok].
  exists ai', g, moves, running, r'. split; [reflexivity|].
  destruct (play_keeps_what_was_learned _ _ _ _ _ _ _ _ _ E) as [-> _].
  reflexivity.
Defined.

Lemma play_loop_stops fuel n :
  ∀ frames ai g moves r ai' g' moves' running r',
    play_loop fuel n frames ai g moves r = Ok (ai', g', moves', running, r') →
    running = game_over g'
    ∧ moves ≤ moves' ≤ moves + Z.of_nat n
    ∧ ∀ (k : nat) events,
        frames !! k = Some events → play_events events = false →
        moves' ≤ moves + Z.of_nat k.
Proof.
  induction n as [|n IH]; intros frames ai g moves r ai' g' moves' running r';
    simpl.
  { destruct (game_over g) eqn:Hgo; [|done].
    intros [[= -> -> -> ->] _]%ret_Ok. split_and!; [done|lia|lia|].
    intros. lia. }
  destruct (game_over g) eqn:Hgo.
  { intros [[= -> -> -> ->] _]%ret_Ok. split_and!; [done|lia|lia|].
    intros. lia. }
  destruct (play_events (hd [] frames)) eqn:Hev.
  2: { intros [[= -> -> -> ->] _]%ret_Ok. split_and!; [done|lia|lia|].
       intros. lia. }
  intros H.
  apply bind_Ok in H as (s0 & r0 & _ & H).
  apply bind_Ok in H as ([a ai0] & r1 & _ & H).
  apply bind_Ok in H as (g1 & r2 & _ & H).
  destruct (IH _ _ _ _ _ _ _ _ _ _ H) as (Hrun & Hm & Hstop).
  split_and!; [done|lia|lia|].
  intros k events Hk Hev'. destruct frames as [|first frames]; [done|].
  destruct k as [|k].
  - simpl in Hk, Hev. congruence.
  - simpl in Hk. specialize (Hstop k events Hk Hev'). lia.
Qed.

(** X25: the loop of [play] ends in one of two ways, and [running]
    tells which: it is [True] exactly when the game is over. QUIT and
    the escape key stop the demonstration at once: when the events of
    round [k] hold one of them, at most [k] moves are made. *)
Theorem play_stops fuel frames ai r ai' g moves running r' :
  play fuel frames ai r = Ok (ai', g, moves, running, r') →
  running = game_over g
  ∧ 0 ≤ moves ≤ Z.of_nat fuel
  ∧ ∀ (k : nat) events,
      frames !! k = Some events → play_events events = false →
      moves ≤ Z.of_nat k.
Proof.
  unfold play. intros H.
  apply bind_Ok in H as (g0 & r1 & _ & H).
  apply play_loop_stops in H as (Hrun & Hm & Hstop).
  split_and!; [done|lia|lia|].
  intros k events Hk Hev. specialize (Hstop k events Hk Hev). lia.
Qed.

Lemma play_stops_witness :
  ∃ ai' g moves running r',
    play 10 [[]; [OtherEvent; KEYDOWN K_ESCAPE]] SnakeAI_init ones
    = Ok (ai', g, moves, running, r')
    ∧ running = game_over g
    ∧ moves ≤ 1.
Proof.
  pose proof short_demonstration as Hok.
  destruct (play 10 [[]; [OtherEvent; KEYDOWN K_ESCAPE]] SnakeAI_init ones)
    as [[[[[ai' g] moves] running] r']|e] eqn:E; [|discriminate Hok].
  exists ai', g, moves, running, r'. split; [reflexivity|].
  destruct (play_stops _ _ _ _ _ _ _ _ _ E) as (H1 & _ & H2).
  split; [exact H1|].
  exact (H2 1%nat [OtherEvent; KEYDOWN K_ESCAPE] eq_refl eq_refl).
Defined.

End Play.

(** ** No exception *)

Section NoException.

Implicit Types (g : Game) (f : Fruit) (r : Random) (ai : SnakeAI)
  (ep : Episode).

Lemma no_exception_bind {A B} (m : M A) (k : A → M B) r :
  no_exception (m r) →
  (∀ a r1, m r = Ok (a, r1) → no_exception (k a r1)) →
  no_exception ((m ≫= k) r).
Proof.
  unfold mbind, M_bind. destruct (m r) as [[a r1]|e]; [|done].
  intros _ Hk. by apply Hk.
Qed.

Lemma respawn_off_snake_no_exception fuel sn :
  ∀ f r,
    0 < fruit_block_size f →
    4 * fruit_block_size f < fruit_width f →
    4 * fruit_block_size f < fruit_height f →
    colors f ≠ [] →
    no_exception (respawn_off_snake fuel sn f r).
Proof.
  induction fuel as [|fuel IH]; intros f r Hbs Hw Hh Hcols; simpl.
  { by case_bool_decide. }
  case_bool_decide; [|done].
  destruct (Fruit_respawn_returns f r Hbs Hw Hh Hcols) as [f' Hf'].
  rewrite (bind_run _ _ _ _ _ Hf').
  destruct (Fruit_respawn_inv _ _ _ _ Hbs Hf') as (_ & E1 & E2 & E3 & E4 & _).
  apply IH; congruence.
Qed.

Lemma game_ready_fruit g :
  game_ready g →
  0 < fruit_block_size (fruit g)
  ∧ 4 * fruit_block_size (fruit g) < fruit_width (fruit g)
  ∧ 4 * fruit_block_size (fruit g) < fruit_height (fruit g)
  ∧ colors (fruit g) ≠ [].
Proof.
  intros (((Hbs & _ & Hfbs & _) & _ & _ & [[Hx _] [Hy _]] & _) & Hcols & _).
  split_and!; [lia|lia|lia|done].
Qed.

Lemma Game_update_no_exception fuel g r :
  game_ready g → no_exception (Game_update fuel g r).
Proof.
  intros Hready.
  pose proof (game_ready_fruit g Hready) as (Hbs & Hw & Hh & Hcols).
  destruct Hready as (_ & _ & Hb).
  unfold Game_update. destruct (game_over g); [done|].
  destruct (Snake_move_returns _ Hb) as [sn Hmove].
  destruct (Snake_move_inv _ _ Hmove) as (head & tl & _ & Hbsn & _).
  unfold mbind, M_bind, lift. rewrite Hmove. simpl.
  unfold Snake_check_collision. rewrite Hbsn.
  destruct (_ || _); [done|]. case_bool_decide; [done|]. simpl.
  case_bool_decide; [|done].
  destruct (Fruit_respawn_returns (fruit g) r Hbs Hw Hh Hcols) as [f1 Hf1].
  rewrite Hf1.
  destruct (Fruit_respawn_inv _ _ _ _ Hbs Hf1) as (_ & E1 & E2 & E3 & E4 & _).
  pose proof (respawn_off_snake_no_exception fuel (Snake_grow sn) f1
                (mkRandom (entropy r) (cursor r + 3))) as Hloop.
  destruct (respawn_off_snake fuel (Snake_grow sn) f1 _) as [[f2 r2]|e];
    [done|].
  apply Hloop; congruence.
Qed.

Lemma game_ready_heading g d :
  game_ready g → game_ready (set_snake (set_snake_direction d (snake g)) g).
Proof. done. Qed.

Lemma apply_action_ready g action :
  game_ready g → game_ready (apply_action g action).
Proof.
  intros H. rewrite apply_action_only_heading. by apply game_ready_heading.
Qed.

Lemma handle_input_ready events g :
  game_ready g → game_ready (handle_input events g).2.
Proof.
  intros H. rewrite handle_input_heading. by apply game_ready_heading.
Qed.

Lemma set_game_over_ready g : game_ready g → game_ready (set_game_over true g).
Proof.
  intros (Hs & ? & ?). split_and!; [by apply set_game_over_sound|done|done].
Qed.

Lemma respawn_off_snake_colors fuel sn f r f' r' :
  respawn_off_snake fuel sn f r = Ok (f', r') → colors f' = colors f.
Proof.
  apply (respawn_off_snake_keeps (λ f', colors f' = colors f)); [|done].
  by intros f1 r1 f2 r2 E (p & c & ->)%Fruit_respawn_frame.
Qed.

Lemma Game_update_ready fuel g r g' r' :
  Game_update fuel g r = Ok (g', r') → game_ready g → game_ready g'.
Proof.
  intros H (Hs & Hcols & Hb).
  split; [by eapply Game_update_sound|].
  apply Game_update_cases in H
    as [(_ & -> & _)|(_ & sn & new_head & rest & _ & Hbsn & Hcases)]; [done|].
  destruct Hcases as [(_ & -> & _)|[(_ & _ & -> & _)|(_ & _ & Hfruit)]];
    simpl; rewrite ?Hbsn; [done|done|].
  destruct Hfruit as (f1 & r1 & f2 & Hf1 & Hf2 & ->). simpl. rewrite Hbsn.
  split; [|done].
  apply respawn_off_snake_colors in Hf2.
  apply Fruit_respawn_frame in Hf1 as (p & c & ->). by rewrite Hf2.
Qed.

Lemma Game_init_ready w h vis r g r' :
  Game_init w h vis r = Ok (g, r') → game_ready g.
Proof.
  intros H. split; [by eapply Game_init_sound|].
  unfold Game_init, Fruit_init in H.
  apply bind_Ok in H as (f & r1 & H & Hret).
  apply ret_Ok in Hret as [-> _].
  apply bind_Ok in H as (c & r0 & _ & Hf).
  by apply Fruit_respawn_frame in Hf as (p & c' & ->).
Qed.

Lemma Game_reset_ready g r g' r' :
  Game_reset g r = Ok (g', r') → game_ready g → game_ready g'.
Proof.
  intros H ((Hwf & _) & Hcols & _).
  split; [by eapply Game_reset_sound|].
  apply Game_reset_inv in H as (f & Hf & ->). simpl.
  by apply Fruit_respawn_frame in Hf as (p & c' & ->).
Qed.

Lemma play_tick_no_exception fuel ai ep r :
  table_wf (q_table ai) → game_ready (game ep) →
  no_exception (play_tick fuel ai ep r).
Proof.
  intros Hwf Hready. unfold play_tick.
  destruct (get_state_returns (game ep)) as [s0 Hs0];
    [by destruct Hready as (_ & _ & ?)|].
  rewrite Hs0.
  apply no_exception_bind; [done|]. intros s r1 [= <- <-].
  destruct (get_action_returns ai s0 r Hwf) as (action & ai1 & r2 & Hact).
  rewrite (bind_run _ _ _ _ _ Hact).
  pose proof (apply_action_ready _ action Hready) as Hready1.
  apply no_exception_bind; [by apply Game_update_no_exception|].
  intros g1 r3 Hupd.
  pose proof (Game_update_ready _ _ _ _ _ Hupd Hready1) as (_ & _ & Hb).
  destruct (get_state_returns g1 Hb) as [s1 Hs1]. rewrite Hs1.
  by apply no_exception_bind.
Qed.

Lemma train_iteration_no_exception fuel ai ep r :
  table_wf (q_table ai) → game_ready (game ep) →
  no_exception (train_iteration fuel ai ep r).
Proof.
  intros Hwf Hready. unfold train_iteration.
  apply no_exception_bind; [by apply play_tick_no_exception|].
  intros [[[[ai1 g] old_state] action] new_state] r1 Htick.
  destruct (calculate_reward _ _ _ _) as [[reward steps] g'].
  assert (table_wf (q_table ai1) ∧ 0 ≤ action < 3) as [Hwf1 Hact].
  { unfold play_tick in Htick.
    apply bind_Ok in Htick as (s0 & r0 & _ & H).
    apply bind_Ok in H as ([a ai0] & r2 & Hget & H).
    apply bind_Ok in H as (g1 & r3 & _ & H).
    apply bind_Ok in H as (s1 & r4 & _ & H).
    apply ret_Ok in H as [[= -> _ _ -> _] _].
    by eapply get_action_wf. }
  destruct (q_update_spec ai1 old_state action reward new_state Hwf1 Hact)
    as (row & old_q & next_row & next_max & _ & _ & _ & _ & _ & Hupd).
  by rewrite Hupd.
Qed.

Lemma train_iteration_ready fuel ai ep r ai' ep' tr r' :
  train_iteration fuel ai ep r = Ok (ai', ep', tr, r') →
  game_ready (game ep) → game_ready (game ep').
Proof.
  apply (train_iteration_game game_ready fuel).
  - intros. by apply apply_action_ready.
  - intros. by eapply Game_update_ready.
  - intros. by apply set_game_over_ready.
Qed.

Lemma episode_steps_no_exception fuel n :
  ∀ ai ep r,
    table_wf (q_table ai) → game_ready (game ep) →
    no_exception (episode_steps fuel n ai ep r).
Proof.
  induction n as [|n IH]; intros ai ep r Hwf Hready; simpl; [done|].
  destruct (game_over (game ep)); [done|].
  apply no_exception_bind; [by apply train_iteration_no_exception|].
  intros [[ai1 ep1] tr1] r1 Hit.
  apply no_exception_bind; [|by intros [[ai2 ep2] trs2] r2 _].
  apply IH.
  - by destruct (train_iteration_wf _ _ _ _ _ _ _ _ Hwf Hit).
  - by eapply train_iteration_ready.
Qed.

Lemma train_game_no_exception fuel ai game_num r :
  table_wf (q_table ai) → no_exception (train_game fuel ai game_num r).
Proof.
  intros Hwf. unfold train_game.
  destruct (Game_init_returns 800 600 false r ltac:(lia)) as [g Hg].
  rewrite (bind_run _ _ _ _ _ Hg).
  apply no_exception_bind; [|by intros [[ai1 ep1] trs] r1 _].
  unfold episode_loop.
  apply no_exception_bind.
  - apply episode_steps_no_exception; [done|]. by eapply Game_init_ready.
  - intros [[ai1 ep1] trs] r1 _. by destruct (game_over (game ep1)).
Qed.

Lemma train_game_wf fuel ai game_num r ai' r' :
  train_game fuel ai game_num r = Ok (ai', r') →
  table_wf (q_table ai) → table_wf (q_table ai').
Proof.
  intros (g & r1 & ai1 & ep1 & trs & _ & Hloop & ->)%train_game_q_table Hwf.
  apply episode_loop_inv in Hloop as [Hsteps _].
  by eapply episode_steps_wf.
Qed.

Lemma train_games_no_exception fuel game_nums :
  ∀ ai r, table_wf (q_table ai) →
          no_exception (train_games fuel ai game_nums r).
Proof.
  induction game_nums as [|game_num rest IH]; intros ai r Hwf; simpl; [done|].
  apply no_exception_bind; [by apply train_game_no_exception|].
  intros ai1 r1 Hgame. apply IH. by eapply train_game_wf.
Qed.

Lemma play_loop_no_exception fuel n :
  ∀ frames ai g moves r,
    table_wf (q_table ai) → game_ready g →
    no_exception (play_loop fuel n frames ai g moves r).
Proof.
  induction n as [|n IH]; intros frames ai g moves r Hwf Hready; simpl.
  { by destruct (game_over g). }
  destruct (game_over g); [done|].
  destruct (play_events (hd [] frames)); [|done].
  destruct (get_state_returns g) as [s0 Hs0];
    [by destruct Hready as (_ & _ & ?)|].
  rewrite Hs0.
  apply no_exception_bind; [done|]. intros s r1 [= <- <-].
  destruct (get_action_returns ai s0 r Hwf) as (action & ai1 & r2 & Hact).
  rewrite (bind_run _ _ _ _ _ Hact).
  pose proof (apply_action_ready _ action Hready) as Hready1.
  apply no_exception_bind; [by apply Game_update_no_exception|].
  intros g1 r3 Hupd. apply IH.
  - by destruct (get_action_wf _ _ _ _ _ _ Hwf Hact).
  - by eapply Game_update_ready.
Qed.

Lemma run_frame_no_exception fuel events r_held g r :
  game_ready g → no_exception (run_frame fuel events r_held g r).
Proof.
  intros Hready. unfold run_frame.
  pose proof (handle_input_ready events g Hready) as Hready1.
  destruct (handle_input events g) as [running g1]. simpl in Hready1.
  apply no_exception_bind.
  - destruct (game_over g1 && r_held); [|done].
    unfold Game_reset.
    destruct (game_ready_fruit g1 Hready1) as (Hbs & Hw & Hh & Hcols).
    destruct (Fruit_respawn_returns (fruit g1) r Hbs Hw Hh Hcols) as [f Hf].
    simpl. by rewrite (bind_run _ _ _ _ _ Hf).
  - intros g2 r2 Hreset.
    assert (game_ready g2) as Hready2.
    { destruct (game_over g1 && r_held).
      - by eapply Game_reset_ready.
      - by apply ret_Ok in Hreset as [-> _]. }
    apply no_exception_bind; [by apply Game_update_no_exception|done].
Qed.

Lemma run_frame_ready fuel events r_held g r running g' r' :
  run_frame fuel events r_held g r = Ok (running, g', r') →
  game_ready g → game_ready g'.
Proof.
  unfold run_frame. intros H Hready.
  pose proof (handle_input_ready events g Hready) as Hready1.
  destruct (handle_input events g) as [run1 g1]. simpl in Hready1.
  apply bind_Ok in H as (g2 & r2 & Hreset & H).
  apply bind_Ok in H as (g3 & r3 & Hupd & H).
  apply ret_Ok in H as [[= -> ->] ->].
  eapply Game_update_ready; [exact Hupd|].
  destruct (game_over g1 && r_held).
  - by eapply Game_reset_ready.
  - by apply ret_Ok in Hreset as [-> _].
Qed.

(** X26: the games of [train] raise none of Python's exceptions. On
    an agent whose table holds rows of three values, no list index,
    dictionary key or random range is ever out of bounds, in any round
    of any game: the [for] loop returns, unless a loop is still going
    when the fuel is used up. (What [log_training_end] does afterwards
    is X23.) *)
Theorem train_never_raises fuel ai num_games r :
  table_wf (q_table ai) → no_exception (train fuel ai num_games r).
Proof. intros Hwf. unfold train. by apply train_games_no_exception. Qed.

Lemma train_never_raises_witness :
  no_exception (train 10 SnakeAI_init 2 ones).
Proof. apply (train_never_raises 10 SnakeAI_init 2 ones table_wf_empty). Defined.

(** X27: the loop of [play] raises none of Python's exceptions
    either, whatever the events it finds. *)
Theorem play_never_raises fuel frames ai r :
  table_wf (q_table ai) → no_exception (play fuel frames ai r).
Proof.
  intros Hwf. unfold play.
  destruct (Game_init_returns 800 600 true r ltac:(lia)) as [g Hg].
  rewrite (bind_run _ _ _ _ _ Hg).
  apply play_loop_no_exception; [done|]. by eapply Game_init_ready.
Qed.

Lemma play_never_raises_witness :
  no_exception (play 10 [[KEYDOWN K_other]; [QUIT]] SnakeAI_init ones).
Proof. apply (play_never_raises 10 _ SnakeAI_init ones table_wf_empty). Defined.

(** X28: [Game.run] raises none of Python's exceptions on a sound game
    with a snake and a colour for the fruit, whatever keys are pressed
    and whenever the game is restarted. *)
Theorem run_never_raises fuel n frames g r :
  game_ready g → no_exception (run fuel n frames g r).
Proof.
  revert frames g r. induction n as [|n IH]; intros frames g r Hready; simpl;
    [done|].
  destruct (hd ([], false) frames) as [events r_held].
  apply no_exception_bind; [by apply run_frame_no_exception|].
  intros [running g1] r1 Hframe. destruct running; [|done].
  apply IH. by eapply run_frame_ready.
Qed.

Lemma run_never_raises_witness :
  no_exception (run 10 3 [([KEYDOWN K_DOWN], true); ([QUIT], false)]
                    quiet_game ones).
Proof.
  apply (run_never_raises 10 3 _ quiet_game ones).
  split; [exact quiet_game_sound|done].
Defined.

End NoException.

(** ** The size of the table *)

Section StateSpace.

Implicit Types (g : Game) (r : Random) (ai : SnakeAI) (s : State)
  (t : gmap State (list Qc)).

Lemma state_space_length : length state_space = 288%nat.
Proof. reflexivity. Qed.

Lemma state_space_intro (ds dl dr fr fl fb fa hu hd hl hr : bool) :
  (fr, fl) ∈ fruit_sides → (fb, fa) ∈ fruit_sides →
  (hu, hd, hl, hr) ∈ heading_flags →
  (ds, dl, dr, fr, fl, fb, fa, hu, hd, hl, hr) ∈ state_space.
Proof.
  intros Hx Hy Hh. unfold state_space.
  apply list_elem_of_bind. exists ds.
  split; [|destruct ds; repeat constructor].
  apply list_elem_of_bind. exists dl.
  split; [|destruct dl; repeat constructor].
  apply list_elem_of_bind. exists dr.
  split; [|destruct dr; repeat constructor].
  apply list_elem_of_bind. exists (fr, fl). split; [|done].
  apply list_elem_of_bind. exists (fb, fa). split; [|done].
  apply list_elem_of_bind. exists (hu, hd, hl, hr). split; [|done].
  constructor.
Qed.

Lemma fruit_sides_intro (x : Z) : (0 <? x, x <? 0) ∈ fruit_sides.
Proof.
  destruct (Z.ltb_spec 0 x), (Z.ltb_spec x 0); try lia;
    unfold fruit_sides; repeat constructor.
Qed.

Lemma get_state_in_space g s : get_state g = Ok s → s ∈ state_space.
Proof.
  unfold get_state. destruct (body (snake g)) as [|[hx hy] rest]; [done|].
  destruct (fold_left _ _ _) as [[ds dl] dr]. intros [= <-].
  apply state_space_intro.
  - apply fruit_sides_intro.
  - apply fruit_sides_intro.
  - destruct (direction (snake g)); unfold heading_flags; repeat constructor.
Qed.

Lemma ensure_state_dom_inv (state k : State) t :
  k ∈ dom (ensure_state state t) → k = state ∨ k ∈ dom t.
Proof.
  unfold ensure_state. destruct (t !! state); [by right|].
  rewrite dom_insert. set_solver.
Qed.

Lemma table_in_space_size t :
  (∀ s, s ∈ dom t → s ∈ state_space) → (size t ≤ 288)%nat.
Proof.
  intros Hdom.
  rewrite <- length_map_to_list, <- (length_fmap fst), <- state_space_length.
  apply submseteq_length, NoDup_submseteq; [apply NoDup_fst_map_to_list|].
  intros s [[s' row] [-> Hin]]%list_elem_of_fmap.
  apply elem_of_map_to_list in Hin. apply Hdom, elem_of_dom. by exists row.
Qed.

(** X29: the table never holds more than 288 rows. Every state in it
    after [train] is one [get_state] can return: any danger flags, the
    fruit on at most one side along each axis, one heading; there are
    8 * 9 * 4 = 288 of them. *)
Theorem table_has_at_most_288_rows fuel ai num_games r ai' r' :
  train fuel ai num_games r = Ok (ai', r') →
  (∀ s, s ∈ dom (q_table ai) → s ∈ state_space) →
  (∀ s, s ∈ dom (q_table ai') → s ∈ state_space)
  ∧ (size (q_table ai') ≤ 288)%nat.
Proof.
  intros H Hdom.
  enough (∀ s, s ∈ dom (q_table ai') → s ∈ state_space) as Hdom'.
  { split; [done|by apply table_in_space_size]. }
  refine (train_agent (λ a, ∀ s, s ∈ dom (q_table a) → s ∈ state_space) fuel
            _ _ _ _ ai num_games r ai' r' H Hdom).
  - intros g a state r0 action a' r0' Hstate Hact Ha s.
    destruct (get_action_table _ _ _ _ _ _ Hact) as [->| ->]; [apply Ha|].
    intros [->|Hs]%ensure_state_dom_inv; [by eapply get_state_in_space|].
    by apply Ha.
  - intros g g' a old_state new_state action reward a' Hold Hnew _ Hupd Ha s.
    apply q_update_inv in Hupd as (row & i & old_q & next_row & next_max
                                   & _ & _ & _ & _ & ->).
    simpl. rewrite dom_insert.
    intros [->%elem_of_singleton|Hs]%elem_of_union;
      [by eapply get_state_in_space|].
    apply ensure_state_dom_inv in Hs as [->|Hs];
      [by eapply get_state_in_space|].
    apply ensure_state_dom_inv in Hs as [->|Hs];
      [by eapply get_state_in_space|].
    by apply Ha.
  - intros a ep game_num Ha. by rewrite end_of_episode_q_table.
  - by intros a n.
Qed.

Lemma table_has_at_most_288_rows_witness :
  ∃ ai' r',
    train 200 SnakeAI_init 3 ones = Ok (ai', r')
    ∧ (size (q_table ai') ≤ 288)%nat.
Proof.
  pose proof train_three_games as Hrun.
  destruct (train 200 SnakeAI_init 3 ones) as [[ai' r']|e] eqn:E;
    [|discriminate Hrun].
  exists ai', r'. split; [reflexivity|].
  apply (table_has_at_most_288_rows _ _ _ _ _ _ E).
  intros s Hs. simpl in Hs. by rewrite dom_empty in Hs.
Defined.

End StateSpace.

(** ** The plots *)

Section Plots.

Implicit Types (lg : SnakeLogger).

Lemma every_nth_length {A} (step : nat) (l : list A) :
  ∀ skip : nat,
    (skip < step)%nat →
    length (every_nth step skip l)
    = ((length l + step - 1 - skip) / step)%nat.
Proof.
  induction l as [|x l IH]; intros skip Hskip.
  - simpl. symmetry. apply Nat.div_small. lia.
  - destruct skip as [|skip]; cbn [every_nth length].
    + rewrite IH by lia.
      replace (length l + step - 1 - (step - 1))%nat with (length l) by lia.
      replace (S (length l) + step - 1 - 0)%nat
        with (length l + 1 * step)%nat by lia.
      rewrite Nat.div_add by lia. lia.
    + rewrite IH by lia. f_equal. lia.
Qed.

Lemma slice_step_length {A} (l : list A) (n : nat) :
  (1000 < n)%nat → length l = n →
  (1000 ≤ length (slice_step l (n / 1000)) ≤ 1999)%nat.
Proof.
  intros Hn Hl. unfold slice_step.
  pose proof (Nat.div_mod_eq n 1000) as Hdiv.
  pose proof (Nat.mod_upper_bound n 1000 ltac:(lia)) as Hmod.
  set (step := (n / 1000)%nat) in *.
  assert (1 ≤ step)%nat as Hstep by lia.
  rewrite every_nth_length by lia. rewrite Hl.
  pose proof (Nat.div_mod_eq (n + step - 1 - 0) step) as Hc.
  pose proof (Nat.mod_upper_bound (n + step - 1 - 0) step ltac:(lia)) as Hm.
  set (c := ((n + step - 1 - 0) / step)%nat) in *.
  split; nia.
Qed.

Lemma every_nth_lookup {A} (step : nat) (l : list A) :
  (0 < step)%nat →
  ∀ skip i : nat,
    (skip < step)%nat →
    every_nth step skip l !! i = l !! (skip + i * step)%nat.
Proof.
  intros Hstep. induction l as [|x l IH]; intros skip i Hskip; [done|].
  destruct skip as [|skip]; cbn [every_nth].
  - destruct i as [|i]; [done|].
    cbn [lookup list_lookup]. rewrite IH by lia.
    replace (0 + S i * step)%nat with (S (step - 1 + i * step)) by lia.
    done.
  - rewrite IH by lia. done.
Qed.

(** X30: the plots stay small, their two series stay in step, and what
    they show is what was logged. When at most 1000 games were logged,
    [plot_training_progress] draws every score and every table size.
    When more were logged it draws every [len // 1000]-th one, the
    first included: entry [i] of a series is entry [i * (len // 1000)]
    of what was logged. When as many table sizes as scores were logged,
    the two series have the same length, which is at most 1999, and at
    least 1000 once there are more than 1000 games. *)
Theorem plot_series_size lg :
  length (q_table_sizes lg) = length (scores_history lg) →
  length (plot_series lg).1 = length (plot_series lg).2
  ∧ (length (plot_series lg).1 ≤ 1999)%nat
  ∧ (length (scores_history lg) `min` 1000 ≤ length (plot_series lg).1)%nat
  ∧ ((length (scores_history lg) ≤ 1000)%nat →
     plot_series lg = (scores_history lg, q_table_sizes lg))
  ∧ ((1000 < length (scores_history lg))%nat →
     ∀ i : nat,
       (plot_series lg).1 !! i
       = scores_history lg !! (i * (length (scores_history lg) / 1000))%nat
       ∧ (plot_series lg).2 !! i
         = q_table_sizes lg !! (i * (length (scores_history lg) / 1000))%nat).
Proof.
  intros Hlen. unfold plot_series.
  destruct (Nat.ltb_spec 1000 (length (scores_history lg))) as [Hn|Hn];
    cbn [fst snd].
  - pose proof (slice_step_length (scores_history lg) _ Hn eq_refl) as H1.
    pose proof (Nat.div_mod_eq (length (scores_history lg)) 1000) as Hdiv.
    pose proof (Nat.mod_upper_bound (length (scores_history lg)) 1000
                  ltac:(lia)) as Hmod.
    split_and!; [|lia|lia|lia|].
    + unfold slice_step. rewrite !every_nth_length by lia. by rewrite Hlen.
    + intros _ i. unfold slice_step. by rewrite !every_nth_lookup by lia.
  - split_and!; [lia|lia|lia|done|lia].
Qed.

Lemma plot_series_size_witness :
  plot_series (mkSnakeLogger 3 2 [0; 2; 1] [5%nat; 9%nat; 12%nat])
  = ([0; 2; 1], [5%nat; 9%nat; 12%nat]).
Proof.
  destruct (plot_series_size
              (mkSnakeLogger 3 2 [0; 2; 1] [5%nat; 9%nat; 12%nat]) eq_refl)
    as (_ & _ & _ & Hall & _).
  apply Hall. simpl. lia.
Defined.

End Plots.

(** ** The episode that ends by a collision *)

Section TerminalEpisodes.

Implicit Types (ai : SnakeAI) (ep : Episode) (tr : Transition)
  (trs : list Transition) (r : Random) (g : Game).

(** What the table is after "Update Q-table": the table with the rows
    of the two states in place, and in the row of the old state, at the
    position of the action, the Bellman value. *)
Lemma q_update_assignment ai (old_state new_state : State) action reward ai' :
  q_update ai old_state action reward new_state = Ok ai' →
  let t := ensure_state new_state (ensure_state old_state (q_table ai)) in
  ∃ row i old_q next_row next_max,
    t !! old_state = Some row
    ∧ py_index row action = Ok i
    ∧ row !! i = Some old_q
    ∧ t !! new_state = Some next_row
    ∧ max_of next_row next_max
    ∧ q_table ai'
      = <[old_state :=
            <[i := (old_q + learning_rate ai
                            * (reward + discount_factor ai * next_max
                               - old_q))%Qc]> row]> t.
Proof.
  intros H. cbv zeta. unfold q_update, dict_get in H.
  set (t := ensure_state new_state (ensure_state old_state (q_table ai))) in *.
  destruct (t !! old_state) as [row|] eqn:Hrow; [|done].
  destruct (py_index row action) as [i|] eqn:Hi; [|done].
  destruct (row !! i) as [old_q|] eqn:Hq; [|done].
  destruct (t !! new_state) as [next_row|] eqn:Hnext; [|done].
  destruct (np_max next_row) as [next_max|] eqn:Hmax; [|done].
  injection H as <-.
  exists row, i, old_q, next_row, next_max. split_and!; try done.
  destruct (np_max_spec next_row) as (m & Hm & Hspec).
  { intros ->. done. }
  congruence.
Qed.

(** C8: when an episode ends on a tick at which the game itself
    reported the end (a collision), that tick is the last round of
    the loop and the only one at which the game was over: no round
    before it was terminal or was given the reward -10, so no update
    follows a termination. Its transition is learned with reward -10:
    the table the loop returns is the table as the last choice of an
    action left it, with the rows of the two states in place and, in
    the row of the old state at the position of the action, the value
    old + learning_rate * (-10 + discount_factor * max(next row) - old).
    Logging the result and decaying epsilon then leave the table as it
    is. *)
Theorem terminal_update_is_last fuel ai ep r ai' ep' trs r' tr game_num :
  episode_loop fuel ai ep r = Ok (ai', ep', trs, r') →
  last trs = Some tr →
  tr_terminal tr = true →
  tr_reward tr = Q2Qc (-10)
  ∧ (∃ ai0 ep0 r0 ai1 g,
        play_tick fuel ai0 ep0 r0
        = Ok (ai1, g, tr_old_state tr, tr_action tr, tr_new_state tr, r')
        ∧ game_over g = true
        ∧ game ep' = g
        ∧ q_update ai1 (tr_old_state tr) (tr_action tr) (Q2Qc (-10))
                   (tr_new_state tr) = Ok ai'
        ∧ let t := ensure_state (tr_new_state tr)
                     (ensure_state (tr_old_state tr) (q_table ai1)) in
          ∃ row i old_q next_row next_max,
            t !! tr_old_state tr = Some row
            ∧ py_index row (tr_action tr) = Ok i
            ∧ row !! i = Some old_q
            ∧ t !! tr_new_state tr = Some next_row
            ∧ max_of next_row next_max
            ∧ q_table ai'
              = <[tr_old_state tr :=
                    <[i := (old_q + learning_rate ai1
                                    * (Q2Qc (-10)
                                       + discount_factor ai1 * next_max
                                       - old_q))%Qc]> row]> t)
  ∧ q_table (end_of_episode ai' ep' game_num) = q_table ai'
  ∧ (∃ pre,
        trs = pre ++ [tr]
        ∧ Forall (λ tr0, tr_terminal tr0 = false
                         ∧ tr_reward tr0 ≠ Q2Qc (-10)) pre).
Proof.
  intros [Hsteps Hover]%episode_loop_inv Hlast Hterm.
  assert (game_over (game ep) = false) as Hgo.
  { destruct (game_over (game ep)) eqn:Hgo; [|done].
    rewrite episode_steps_over in Hsteps by done.
    injection Hsteps as _ _ <- _. done. }
  destruct (episode_steps_penalty _ _ _ _ _ _ _ _ _ Hsteps Hgo Hover)
    as (pre & final & -> & _ & Hpre).
  rewrite last_snoc in Hlast. injection Hlast as ->.
  apply episode_steps_snoc in Hsteps as (m & ai0 & ep0 & r0 & _ & _ & Hit).
  apply train_iteration_inv in Hit
    as (ai1 & g & Hplay & _ & _ & Hg & Hrew & _ & Hupd).
  rewrite Hterm in Hg. unfold calculate_reward in Hrew. rewrite <- Hg in Hrew.
  injection Hrew as Hr _ Hgame. rewrite <- Hr in *.
  split_and!; [done| |apply end_of_episode_q_table|].
  - exists ai0, ep0, r0, ai1, g. split_and!; try done.
    by apply q_update_assignment.
  - exists pre. split; [done|].
    eapply Forall_impl; [exact Hpre|]. by intros tr0 [? ?].
Qed.

Lemma terminal_update_is_last_witness :
  ∃ ai' ep' trs r' tr,
    episode_loop 30 (set_epsilon (Q2Qc 0) SnakeAI_init)
                 (mkEpisode (centred_game 800 600 20 (60, 60)) 0 0) ones
    = Ok (ai', ep', trs, r')
    ∧ last trs = Some tr
    ∧ tr_terminal tr = true
    ∧ tr_reward tr = Q2Qc (-10)
    ∧ q_table (end_of_episode ai' ep' 0) = q_table ai'.
Proof.
  pose proof wall_collision_episode as Hrun.
  destruct (episode_loop 30 (set_epsilon (Q2Qc 0) SnakeAI_init)
              (mkEpisode (centred_game 800 600 20 (60, 60)) 0 0) ones)
    as [[[[ai' ep'] trs] r']|e] eqn:E; [|discriminate Hrun].
  simpl in Hrun. injection Hrun as _ _ _ _ _ Hterm.
  destruct (last trs) as [tr|] eqn:Hlast; [|discriminate Hterm].
  injection Hterm as Hterm.
  exists ai', ep', trs, r', tr. split_and!; [reflexivity|exact Hlast|exact Hterm| |].
  - by destruct (terminal_update_is_last _ _ _ _ _ _ _ _ _ 0 E Hlast Hterm)
      as (H1 & _).
  - by destruct (terminal_update_is_last _ _ _ _ _ _ _ _ _ 0 E Hlast Hterm)
      as (_ & _ & H3 & _).
Defined.

End TerminalEpisodes.
